(** * FM-SYNTH: the signal-generation core, embedded in Rocq

    The development follows the C++ sources of the synthesizer:

    - [Oscillator]     synth/oscillator.h (the same class is repeated in
                       fm_synth_gui.cpp and in the older programs)
    - [ADSREnvelope]   synth/envelope.h   (same class in fm_synth_gui.cpp)
    - [ADSREnvelope64] the same class on binary64 doubles
    - [FMSynth]        synth/fm_synth.h   (four operators plus envelope)
    - [Pool]           the voice management functions of fm_synth_gui.cpp
    - [TwoOperator]    the first program, fm_synth.cpp (carrier, modulator)
    - [ThreeOperator]  the three-operator GUI build that preceded [FMSynth]
    - [VoiceCalls], [Session]  call and event sequences on a voice and on
                       the pool
    - [WaveformBuffer] synth/waveform_buffer.h
    - [midiToFreq]     fm_synth_gui.cpp
    - [Filter]         synth/filter.h
    - [LFO]            synth/lfo.h, with [applyLfoMod]
    - [JunoChorus], [AtmosphericReverb]  synth/effects.h
    - [Engine]         the globals, [main] and [audioCallback] of
                       fm_synth_gui.cpp

    Modelling conventions.

    - A C++ [double] is a real number of [R]; every arithmetic operation is
      exact and [std::sin] is the real sine.  Rounding, infinities and NaN
      are outside the model.  Where they decide the call at which a stage
      of the envelope ends, [ADSREnvelope64] computes the class on
      binary64, and the theorems on the length of a stage keep to the
      ranges of [Ranges].
    - [std::atomic<T>] members are plain fields: each method is modelled as
      one sequential state transformer (the value returned, the new state).
    - [int] values (the algorithm selector, note numbers, slot indices that
      can be -1) are integers of [Z]; array indices are [nat].
    - [std::max] and [std::min] on doubles are [Rmax] and [Rmin].
    - A method [T m(args)] of class [C] is [C.m args s : T * C.t], a
      [void] method is [C.m args s : C.t].
    - Where a method indexes a buffer or computes on [int]s, what C++
      leaves undefined (an access out of range, a signed overflow, a
      remainder by 0) is [None], and the method returns an [option].
      [float] values are reals like the doubles. *)

From Stdlib Require Import Reals Lra Lia ZArith List Bool.
From Stdlib Require Floats.
Import ListNotations.

Open Scope R_scope.

(** ** Constants

    fm_synth_gui.cpp, lines 13-14 and 617.  The split headers include
    synth/constants.h for the same names. *)

Definition TWO_PI : R := 6.28318530717958647692.
Definition SAMPLE_RATE : R := 44100.0.
Definition NUM_VOICES : nat := 6.

(** ** Oscillator *)

Module Oscillator.

Record t : Type := mk {
  phase : R;
  phaseIncrement : R;
  frequency : R;
  sampleRate : R
}.

Definition set_phase (p : R) (o : t) : t :=
  mk p (phaseIncrement o) (frequency o) (sampleRate o).

(** [phaseIncrement = TWO_PI * frequency / sampleRate;] *)
Definition updatePhaseIncrement (o : t) : t :=
  mk (phase o) (TWO_PI * frequency o / sampleRate o)
     (frequency o) (sampleRate o).

(** Constructor [Oscillator(freq, sr)].  The member [phaseIncrement] is
    not in the initialiser list; it is assigned by the constructor body
    before anything can read it, so its value before that call is
    irrelevant (written [0] here). *)
Definition make (freq sr : R) : t :=
  updatePhaseIncrement (mk 0 0 freq sr).

Definition setFrequency (freq : R) (o : t) : t :=
  updatePhaseIncrement (mk (phase o) (phaseIncrement o) freq (sampleRate o)).

Definition getFrequency (o : t) : R := frequency o.

(** The single conditional subtraction of [process]. *)
Definition wrap (p : R) : R :=
  if Rge_dec p TWO_PI then p - TWO_PI else p.

(** [double process(double modulation = 0.0)]: the sample, then the
    oscillator with its phase advanced. *)
Definition process (o : t) (modulation : R) : R * t :=
  let output := sin (phase o + modulation) in
  (output, set_phase (wrap (phase o + phaseIncrement o)) o).

Definition reset (o : t) : t := set_phase 0 o.

(** The oscillator after a series of [process] calls, one per modulation
    input of the list. *)
Fixpoint run (ms : list R) (o : t) : t :=
  match ms with
  | [] => o
  | m :: ms' => run ms' (snd (process o m))
  end.

End Oscillator.

(** ** ADSR envelope *)

Module ADSREnvelope.

Inductive EnvelopeState : Type :=
| ENV_IDLE
| ENV_ATTACK
| ENV_DECAY
| ENV_SUSTAIN
| ENV_RELEASE.

Record t : Type := mk {
  attackTime : R;
  decayTime : R;
  sustainLevel : R;
  releaseTime : R;
  state : EnvelopeState;
  currentLevel : R;
  sampleRate : R;
  attackIncrement : R;
  decayIncrement : R;
  releaseIncrement : R;
  releaseStartLevel : R
}.

(** [attackIncrement = 1.0 / (attackTime * sampleRate);
     decayIncrement = (1.0 - sustainLevel) / (decayTime * sampleRate);] *)
Definition updateIncrements (e : t) : t :=
  mk (attackTime e) (decayTime e) (sustainLevel e) (releaseTime e)
     (state e) (currentLevel e) (sampleRate e)
     (1.0 / (attackTime e * sampleRate e))
     ((1.0 - sustainLevel e) / (decayTime e * sampleRate e))
     (releaseIncrement e) (releaseStartLevel e).

(** Constructor [ADSREnvelope(sr)].  [releaseIncrement] is neither in
    the initialiser list nor assigned by [updateIncrements]: it holds an
    indeterminate value until the first effective [noteOff].  The model
    takes that value as the extra argument [uninit]. *)
Definition make (sr uninit : R) : t :=
  updateIncrements (mk 0.01 0.1 0.7 0.3 ENV_IDLE 0.0 sr 0 0 uninit 0.0).

Definition set_state (st : EnvelopeState) (e : t) : t :=
  mk (attackTime e) (decayTime e) (sustainLevel e) (releaseTime e)
     st (currentLevel e) (sampleRate e)
     (attackIncrement e) (decayIncrement e)
     (releaseIncrement e) (releaseStartLevel e).

Definition set_level (l : R) (e : t) : t :=
  mk (attackTime e) (decayTime e) (sustainLevel e) (releaseTime e)
     (state e) l (sampleRate e)
     (attackIncrement e) (decayIncrement e)
     (releaseIncrement e) (releaseStartLevel e).

Definition isActive (e : t) : bool :=
  match state e with
  | ENV_IDLE => false
  | _ => true
  end.

Definition getState (e : t) : EnvelopeState := state e.
Definition getLevel (e : t) : R := currentLevel e.

Definition noteOn (e : t) : t := set_state ENV_ATTACK e.

Definition noteOff (e : t) : t :=
  match state e with
  | ENV_IDLE => e
  | _ =>
      let releaseStartLevel' := currentLevel e in
      let releaseIncrement' :=
        if Rgt_dec (releaseTime e) 0.0
        then releaseStartLevel' / (releaseTime e * sampleRate e)
        else releaseStartLevel' in
      mk (attackTime e) (decayTime e) (sustainLevel e) (releaseTime e)
         ENV_RELEASE (currentLevel e) (sampleRate e)
         (attackIncrement e) (decayIncrement e)
         releaseIncrement' releaseStartLevel'
  end.

(** One sample of the state machine; the state after the call. *)
Definition advance (e : t) : t :=
  match state e with
  | ENV_IDLE => set_level 0.0 e
  | ENV_ATTACK =>
      let l := currentLevel e + attackIncrement e in
      if Rge_dec l 1.0
      then set_state ENV_DECAY (set_level 1.0 e)
      else set_level l e
  | ENV_DECAY =>
      let l := currentLevel e - decayIncrement e in
      if Rle_dec l (sustainLevel e)
      then set_state ENV_SUSTAIN (set_level (sustainLevel e) e)
      else set_level l e
  | ENV_SUSTAIN => set_level (sustainLevel e) e
  | ENV_RELEASE =>
      let l := currentLevel e - releaseIncrement e in
      if Rle_dec l 0.0
      then set_state ENV_IDLE (set_level 0.0 e)
      else set_level l e
  end.

(** [double process()]: [return currentLevel;] after the switch. *)
Definition process (e : t) : R * t :=
  let e' := advance e in (currentLevel e', e').

Definition set_attackTime (x : R) (e : t) : t :=
  mk x (decayTime e) (sustainLevel e) (releaseTime e)
     (state e) (currentLevel e) (sampleRate e)
     (attackIncrement e) (decayIncrement e)
     (releaseIncrement e) (releaseStartLevel e).

Definition set_decayTime (x : R) (e : t) : t :=
  mk (attackTime e) x (sustainLevel e) (releaseTime e)
     (state e) (currentLevel e) (sampleRate e)
     (attackIncrement e) (decayIncrement e)
     (releaseIncrement e) (releaseStartLevel e).

Definition set_sustainLevel (x : R) (e : t) : t :=
  mk (attackTime e) (decayTime e) x (releaseTime e)
     (state e) (currentLevel e) (sampleRate e)
     (attackIncrement e) (decayIncrement e)
     (releaseIncrement e) (releaseStartLevel e).

Definition set_releaseTime (x : R) (e : t) : t :=
  mk (attackTime e) (decayTime e) (sustainLevel e) x
     (state e) (currentLevel e) (sampleRate e)
     (attackIncrement e) (decayIncrement e)
     (releaseIncrement e) (releaseStartLevel e).

Definition setAttack (seconds : R) (e : t) : t :=
  updateIncrements (set_attackTime (Rmax 0.001 seconds) e).

Definition setDecay (seconds : R) (e : t) : t :=
  updateIncrements (set_decayTime (Rmax 0.001 seconds) e).

Definition setSustain (level : R) (e : t) : t :=
  updateIncrements (set_sustainLevel (Rmax 0.0 (Rmin 1.0 level)) e).

Definition setRelease (seconds : R) (e : t) : t :=
  updateIncrements (set_releaseTime (Rmax 0.001 seconds) e).

Definition getAttack (e : t) : R := attackTime e.
Definition getDecay (e : t) : R := decayTime e.
Definition getSustain (e : t) : R := sustainLevel e.
Definition getRelease (e : t) : R := releaseTime e.

(** The public interface as a type of calls, to speak about arbitrary
    sequences of operations on one envelope. *)
Inductive call : Type :=
| NoteOn
| NoteOff
| Process
| SetAttack (seconds : R)
| SetDecay (seconds : R)
| SetSustain (level : R)
| SetRelease (seconds : R).

Definition exec (c : call) (e : t) : t :=
  match c with
  | NoteOn => noteOn e
  | NoteOff => noteOff e
  | Process => snd (process e)
  | SetAttack x => setAttack x e
  | SetDecay x => setDecay x e
  | SetSustain x => setSustain x e
  | SetRelease x => setRelease x e
  end.

(** Calls are executed from the head of the list. *)
Fixpoint run (cs : list call) (e : t) : t :=
  match cs with
  | [] => e
  | c :: cs' => run cs' (exec c e)
  end.

(** [n] consecutive calls of [process()]. *)
Fixpoint process_n (n : nat) (e : t) : t :=
  match n with
  | O => e
  | S k => process_n k (snd (process e))
  end.

End ADSREnvelope.

(** ** FM voice: four operators and one envelope (synth/fm_synth.h) *)

Module FMSynth.

(** [enum FMAlgorithm]; the selector itself is stored as an [int]. *)
Abbreviation ALG_STACK := 0%Z (only parsing).
Abbreviation ALG_TWIN := 1%Z (only parsing).
Abbreviation ALG_BRANCH := 2%Z (only parsing).
Abbreviation ALG_PARALLEL := 3%Z (only parsing).
Abbreviation ALG_DUAL_CARRIER := 4%Z (only parsing).
Abbreviation ALG_TRIPLE := 5%Z (only parsing).
Abbreviation ALG_COUNT := 6%Z (only parsing).

Record t : Type := mk {
  op1 : Oscillator.t;
  op2 : Oscillator.t;
  op3 : Oscillator.t;
  op4 : Oscillator.t;
  envelope : ADSREnvelope.t;
  ratio1 : R;
  ratio2 : R;
  ratio3 : R;
  ratio4 : R;
  index1 : R;
  index2 : R;
  index3 : R;
  index4 : R;
  prevSample1 : R;
  algorithm : Z;
  amplitude : R;
  noteActive : bool;
  currentFrequency : R;
  sampleRate : R
}.

(** Constructor [FMSynth(freq, sr)]; [uninit] is the indeterminate
    [releaseIncrement] of the freshly built envelope. *)
Definition make (freq sr uninit : R) : t :=
  mk (Oscillator.make freq sr)
     (Oscillator.make (freq * 2.0) sr)
     (Oscillator.make (freq * 3.0) sr)
     (Oscillator.make (freq * 4.0) sr)
     (ADSREnvelope.make sr uninit)
     1.0 2.0 3.0 4.0
     0.0 2.0 1.5 1.0
     0.0
     ALG_STACK
     0.3
     false
     freq
     sr.

(** Field updates. *)
Definition set_ops (o1 o2 o3 o4 : Oscillator.t) (s : t) : t :=
  mk o1 o2 o3 o4 (envelope s)
     (ratio1 s) (ratio2 s) (ratio3 s) (ratio4 s)
     (index1 s) (index2 s) (index3 s) (index4 s)
     (prevSample1 s) (algorithm s) (amplitude s) (noteActive s)
     (currentFrequency s) (sampleRate s).

Definition set_envelope (e : ADSREnvelope.t) (s : t) : t :=
  mk (op1 s) (op2 s) (op3 s) (op4 s) e
     (ratio1 s) (ratio2 s) (ratio3 s) (ratio4 s)
     (index1 s) (index2 s) (index3 s) (index4 s)
     (prevSample1 s) (algorithm s) (amplitude s) (noteActive s)
     (currentFrequency s) (sampleRate s).

Definition set_ratios (r1 r2 r3 r4 : R) (s : t) : t :=
  mk (op1 s) (op2 s) (op3 s) (op4 s) (envelope s)
     r1 r2 r3 r4
     (index1 s) (index2 s) (index3 s) (index4 s)
     (prevSample1 s) (algorithm s) (amplitude s) (noteActive s)
     (currentFrequency s) (sampleRate s).

Definition set_indices (i1 i2 i3 i4 : R) (s : t) : t :=
  mk (op1 s) (op2 s) (op3 s) (op4 s) (envelope s)
     (ratio1 s) (ratio2 s) (ratio3 s) (ratio4 s)
     i1 i2 i3 i4
     (prevSample1 s) (algorithm s) (amplitude s) (noteActive s)
     (currentFrequency s) (sampleRate s).

Definition set_prevSample1 (x : R) (s : t) : t :=
  mk (op1 s) (op2 s) (op3 s) (op4 s) (envelope s)
     (ratio1 s) (ratio2 s) (ratio3 s) (ratio4 s)
     (index1 s) (index2 s) (index3 s) (index4 s)
     x (algorithm s) (amplitude s) (noteActive s)
     (currentFrequency s) (sampleRate s).

Definition set_algorithm (a : Z) (s : t) : t :=
  mk (op1 s) (op2 s) (op3 s) (op4 s) (envelope s)
     (ratio1 s) (ratio2 s) (ratio3 s) (ratio4 s)
     (index1 s) (index2 s) (index3 s) (index4 s)
     (prevSample1 s) a (amplitude s) (noteActive s)
     (currentFrequency s) (sampleRate s).

Definition set_noteActive (b : bool) (s : t) : t :=
  mk (op1 s) (op2 s) (op3 s) (op4 s) (envelope s)
     (ratio1 s) (ratio2 s) (ratio3 s) (ratio4 s)
     (index1 s) (index2 s) (index3 s) (index4 s)
     (prevSample1 s) (algorithm s) (amplitude s) b
     (currentFrequency s) (sampleRate s).

Definition set_currentFrequency (f : R) (s : t) : t :=
  mk (op1 s) (op2 s) (op3 s) (op4 s) (envelope s)
     (ratio1 s) (ratio2 s) (ratio3 s) (ratio4 s)
     (index1 s) (index2 s) (index3 s) (index4 s)
     (prevSample1 s) (algorithm s) (amplitude s) (noteActive s)
     f (sampleRate s).

(** [double process()].  The envelope is advanced before the switch;
    the cases that [break] share the tail after the switch, the two
    multi-carrier cases and [default] return from inside it. *)
Definition process (s : t) : R * t :=
  if negb (ADSREnvelope.isActive (envelope s)) then (0.0, s) else
  let idx1 := index1 s in
  let idx2 := index2 s in
  let idx3 := index3 s in
  let idx4 := index4 s in
  let feedback := idx1 * prevSample1 s in
  let '(envLevel, env') := ADSREnvelope.process (envelope s) in
  let s := set_envelope env' s in
  match algorithm s with
  | ALG_STACK =>
      let '(out4, o4) := Oscillator.process (op4 s) 0.0 in
      let '(out3, o3) := Oscillator.process (op3 s) (idx4 * out4) in
      let '(out2, o2) := Oscillator.process (op2 s) (idx3 * out3) in
      let '(out1, o1) :=
        Oscillator.process (op1 s) (idx2 * out2 + feedback) in
      (out1 * amplitude s * envLevel,
       set_prevSample1 out1 (set_ops o1 o2 o3 o4 s))
  | ALG_TWIN =>
      let '(out4, o4) := Oscillator.process (op4 s) 0.0 in
      let '(out3, o3) := Oscillator.process (op3 s) (idx4 * out4) in
      let '(out2, o2) := Oscillator.process (op2 s) 0.0 in
      let '(out1, o1) :=
        Oscillator.process (op1 s) (idx3 * out3 + idx2 * out2 + feedback) in
      (out1 * amplitude s * envLevel,
       set_prevSample1 out1 (set_ops o1 o2 o3 o4 s))
  | ALG_BRANCH =>
      let '(out4, o4) := Oscillator.process (op4 s) 0.0 in
      let '(out3, o3) := Oscillator.process (op3 s) (idx4 * out4) in
      let '(out2, o2) := Oscillator.process (op2 s) (idx4 * out4) in
      let '(out1, o1) :=
        Oscillator.process (op1 s) (idx3 * out3 + idx2 * out2 + feedback) in
      (out1 * amplitude s * envLevel,
       set_prevSample1 out1 (set_ops o1 o2 o3 o4 s))
  | ALG_PARALLEL =>
      let '(out2, o2) := Oscillator.process (op2 s) 0.0 in
      let '(out3, o3) := Oscillator.process (op3 s) 0.0 in
      let '(out4, o4) := Oscillator.process (op4 s) 0.0 in
      let '(out1, o1) :=
        Oscillator.process (op1 s)
          (idx2 * out2 + idx3 * out3 + idx4 * out4 + feedback) in
      (out1 * amplitude s * envLevel,
       set_prevSample1 out1 (set_ops o1 o2 o3 o4 s))
  | ALG_DUAL_CARRIER =>
      let '(out4, o4) := Oscillator.process (op4 s) 0.0 in
      let '(out3, o3) := Oscillator.process (op3 s) (idx4 * out4) in
      let '(out2, o2) := Oscillator.process (op2 s) 0.0 in
      let '(out1, o1) :=
        Oscillator.process (op1 s) (idx2 * out2 + feedback) in
      ((out1 + out3 * 0.7) * amplitude s * envLevel * 0.7,
       set_prevSample1 out1 (set_ops o1 o2 o3 o4 s))
  | ALG_TRIPLE =>
      let '(out4, o4) := Oscillator.process (op4 s) 0.0 in
      let '(out1, o1) :=
        Oscillator.process (op1 s) (idx4 * out4 + feedback) in
      let '(out2, o2) := Oscillator.process (op2 s) (idx4 * out4) in
      let '(out3, o3) := Oscillator.process (op3 s) (idx4 * out4) in
      ((out1 + out2 * 0.6 + out3 * 0.4) * amplitude s * envLevel * 0.5,
       set_prevSample1 out1 (set_ops o1 o2 o3 o4 s))
  | _ => (0.0, s)
  end.

Definition noteOn (freq : R) (s : t) : t :=
  let s := set_currentFrequency freq s in
  let o1 := Oscillator.setFrequency (freq * ratio1 s) (op1 s) in
  let o2 := Oscillator.setFrequency (freq * ratio2 s) (op2 s) in
  let o3 := Oscillator.setFrequency (freq * ratio3 s) (op3 s) in
  let o4 := Oscillator.setFrequency (freq * ratio4 s) (op4 s) in
  let s := set_ops (Oscillator.reset o1) (Oscillator.reset o2)
                   (Oscillator.reset o3) (Oscillator.reset o4) s in
  let s := set_prevSample1 0.0 s in
  let s := set_noteActive true s in
  set_envelope (ADSREnvelope.noteOn (envelope s)) s.

Definition noteOff (s : t) : t :=
  let s := set_noteActive false s in
  set_envelope (ADSREnvelope.noteOff (envelope s)) s.

Definition isActive (s : t) : bool := ADSREnvelope.isActive (envelope s).

Definition setRatio1 (r : R) (s : t) : t :=
  let s := set_ratios r (ratio2 s) (ratio3 s) (ratio4 s) s in
  if noteActive s
  then set_ops (Oscillator.setFrequency (currentFrequency s * r) (op1 s))
               (op2 s) (op3 s) (op4 s) s
  else s.

Definition setRatio2 (r : R) (s : t) : t :=
  let s := set_ratios (ratio1 s) r (ratio3 s) (ratio4 s) s in
  if noteActive s
  then set_ops (op1 s)
               (Oscillator.setFrequency (currentFrequency s * r) (op2 s))
               (op3 s) (op4 s) s
  else s.

Definition setRatio3 (r : R) (s : t) : t :=
  let s := set_ratios (ratio1 s) (ratio2 s) r (ratio4 s) s in
  if noteActive s
  then set_ops (op1 s) (op2 s)
               (Oscillator.setFrequency (currentFrequency s * r) (op3 s))
               (op4 s) s
  else s.

Definition setRatio4 (r : R) (s : t) : t :=
  let s := set_ratios (ratio1 s) (ratio2 s) (ratio3 s) r s in
  if noteActive s
  then set_ops (op1 s) (op2 s) (op3 s)
               (Oscillator.setFrequency (currentFrequency s * r) (op4 s)) s
  else s.

Definition setIndex1 (i : R) (s : t) : t :=
  set_indices i (index2 s) (index3 s) (index4 s) s.
Definition setIndex2 (i : R) (s : t) : t :=
  set_indices (index1 s) i (index3 s) (index4 s) s.
Definition setIndex3 (i : R) (s : t) : t :=
  set_indices (index1 s) (index2 s) i (index4 s) s.
Definition setIndex4 (i : R) (s : t) : t :=
  set_indices (index1 s) (index2 s) (index3 s) i s.

Definition setAlgorithm (alg : Z) (s : t) : t := set_algorithm alg s.

Definition setAttack (x : R) (s : t) : t :=
  set_envelope (ADSREnvelope.setAttack x (envelope s)) s.
Definition setDecay (x : R) (s : t) : t :=
  set_envelope (ADSREnvelope.setDecay x (envelope s)) s.
Definition setSustain (l : R) (s : t) : t :=
  set_envelope (ADSREnvelope.setSustain l (envelope s)) s.
Definition setRelease (x : R) (s : t) : t :=
  set_envelope (ADSREnvelope.setRelease x (envelope s)) s.

Definition getEnvelopeLevel (s : t) : R :=
  ADSREnvelope.getLevel (envelope s).
Definition getEnvelopeState (s : t) : ADSREnvelope.EnvelopeState :=
  ADSREnvelope.getState (envelope s).

(** The voice after [n] calls of [process()], and the sample returned
    by the call that follows them. *)
Fixpoint process_n (n : nat) (s : t) : t :=
  match n with
  | O => s
  | S k => process_n k (snd (process s))
  end.

Definition sample (n : nat) (s : t) : R := fst (process (process_n n s)).

End FMSynth.

(** ** The two-operator program (fm_synth.cpp, "Sintetizador FM de 2
    operadores")

    The first program of the repository: one carrier, one modulator, no
    envelope.  Its oscillator is the class above with [2.0 * PI] written
    for [TWO_PI], [PI] being the constant 3.14159265358979323846. *)

Module TwoOperator.

Definition PI_literal : R := 3.14159265358979323846.

Record t : Type := mk {
  carrier : Oscillator.t;
  modulator : Oscillator.t;
  modulationIndex : R;
  amplitude : R;
  isActive : bool
}.

(** Constructor [FMSynth(freq, modRatio, modIndex, sr)]. *)
Definition make (freq modRatio modIndex sr : R) : t :=
  mk (Oscillator.make freq sr) (Oscillator.make (freq * modRatio) sr)
     modIndex 0.3 false.

Definition process (s : t) : R * t :=
  if negb (isActive s) then (0.0, s) else
  let '(modulatorOutput, m') := Oscillator.process (modulator s) 0.0 in
  let phaseModulation := modulationIndex s * modulatorOutput in
  let '(carrierOutput, c') :=
    Oscillator.process (carrier s) phaseModulation in
  (carrierOutput * amplitude s,
   mk c' m' (modulationIndex s) (amplitude s) (isActive s)).

(** [void noteOn(double freq, double modRatio = 2.0)] *)
Definition noteOn (freq modRatio : R) (s : t) : t :=
  let c := Oscillator.setFrequency freq (carrier s) in
  let m := Oscillator.setFrequency (freq * modRatio) (modulator s) in
  mk (Oscillator.reset c) (Oscillator.reset m)
     (modulationIndex s) (amplitude s) true.

Definition noteOff (s : t) : t :=
  mk (carrier s) (modulator s) (modulationIndex s) (amplitude s) false.

Fixpoint process_n (n : nat) (s : t) : t :=
  match n with
  | O => s
  | S k => process_n k (snd (process s))
  end.

Definition sample (n : nat) (s : t) : R := fst (process (process_n n s)).

(** Ratio 2.0, index 3.0, note-on at 440 Hz. *)
Definition scenario : t :=
  noteOn 440.0 2.0 (make 440.0 2.0 3.0 SAMPLE_RATE).

End TwoOperator.

(** ** Voice pool (fm_synth_gui.cpp, "Voice management") *)

Module Pool.

Record Voice : Type := mkVoice {
  synth : FMSynth.t;
  note : Z
}.

(** The global array [Voice voices[NUM_VOICES]] is a list; every loop
    [for (int i = 0; i < NUM_VOICES; i++)] of the source scans it from
    slot 0. *)
Definition voices : Type := list Voice.

(** What [main] stores before the audio stream starts:
    [voices[i].synth = make_unique<FMSynth>(440.0, SAMPLE_RATE);
     voices[i].note = -1;] *)
Definition initial (uninit : R) : voices :=
  repeat (mkVoice (FMSynth.make 440.0 SAMPLE_RATE uninit) (-1)) NUM_VOICES.

(** [for (i...) if (p(voices[i])) return i;], [None] when the loop ends
    without returning; [i] is the index of the head of [vs]. *)
Fixpoint scan {A : Type} (p : A -> bool) (vs : list A) (i : nat)
  : option nat :=
  match vs with
  | [] => None
  | v :: rest => if p v then Some i else scan p rest (S i)
  end.

(** Assignment through [voices[i]]. *)
Fixpoint update (i : nat) (f : Voice -> Voice) (vs : voices) {struct vs}
  : voices :=
  match vs, i with
  | [], _ => []
  | v :: rest, O => f v :: rest
  | v :: rest, S k => v :: update k f rest
  end.

Definition is_free (v : Voice) : bool := (note v =? -1)%Z.

Definition is_free_and_silent (v : Voice) : bool :=
  (note v =? -1)%Z && negb (FMSynth.isActive (synth v)).

Definition findFreeVoice (vs : voices) : nat :=
  match scan is_free_and_silent vs 0 with
  | Some i => i
  | None =>
      match scan is_free vs 0 with
      | Some i => i
      | None => 0%nat
      end
  end.

Definition findVoiceWithNote (n : Z) (vs : voices) : Z :=
  match scan (fun v => (note v =? n)%Z) vs 0 with
  | Some i => Z.of_nat i
  | None => (-1)%Z
  end.

Definition voiceNoteOn (n : Z) (freq : R) (vs : voices) : voices :=
  let existing := findVoiceWithNote n vs in
  if (existing >=? 0)%Z then vs else
  let v := findFreeVoice vs in
  let vs :=
    update v (fun x => mkVoice (FMSynth.noteOn freq (synth x)) (note x)) vs in
  update v (fun x => mkVoice (synth x) n) vs.

Definition voiceNoteOff (n : Z) (vs : voices) : voices :=
  let v := findVoiceWithNote n vs in
  if (v >=? 0)%Z then
    let vs := update (Z.to_nat v)
                (fun x => mkVoice (FMSynth.noteOff (synth x)) (note x)) vs in
    update (Z.to_nat v) (fun x => mkVoice (synth x) (-1)) vs
  else vs.

(** The voice loop of [audioCallback] for one frame:
    [sample += voices[v].synth->process();] for every slot in order. *)
Fixpoint mixVoices (vs : voices) (sample : R) : R * voices :=
  match vs with
  | [] => (sample, [])
  | v :: rest =>
      let '(x, s') := FMSynth.process (synth v) in
      let '(total, rest') := mixVoices rest (sample + x) in
      (total, mkVoice s' (note v) :: rest')
  end.

(** What can happen to the pool: key events from the control side and
    frames rendered by the audio side, in any interleaving. *)
Inductive event : Type :=
| KeyDown (n : Z) (freq : R)
| KeyUp (n : Z)
| Frame.

Definition exec (ev : event) (vs : voices) : voices :=
  match ev with
  | KeyDown n freq => voiceNoteOn n freq vs
  | KeyUp n => voiceNoteOff n vs
  | Frame => snd (mixVoices vs 0.0)
  end.

Fixpoint run (evs : list event) (vs : voices) : voices :=
  match evs with
  | [] => vs
  | ev :: evs' => run evs' (exec ev vs)
  end.

(** Slot [i] of the pool. *)
Definition slot {A : Type} (vs : list A) (i : nat) : option A :=
  nth_error vs i.

(** No two slots carry the same note, the sentinel -1 apart. *)
Definition distinct_notes (vs : voices) : Prop :=
  forall i j vi vj,
    slot vs i = Some vi -> slot vs j = Some vj ->
    note vi = note vj -> note vi <> (-1)%Z -> i = j.

(** The net effect of the two assignments of [voiceNoteOn] on the slot
    they go through. *)
Definition assign (n : Z) (freq : R) (x : Voice) : Voice :=
  mkVoice (FMSynth.noteOn freq (synth x)) n.

(** The selection policy in the words of the specification: (a) the
    lowest slot that has no note and a silent voice; (b) failing that,
    the lowest slot that has no note; (c) failing that, slot 0. *)
Definition free_silent_at (vs : voices) (i : nat) : Prop :=
  exists v, slot vs i = Some v /\ note v = (-1)%Z /\
            FMSynth.isActive (synth v) = false.

Definition free_at (vs : voices) (i : nat) : Prop :=
  exists v, slot vs i = Some v /\ note v = (-1)%Z.

Definition lowest (P : nat -> Prop) (k : nat) : Prop :=
  P k /\ forall j, (j < k)%nat -> ~ P j.

Definition preferred_slot (vs : voices) (k : nat) : Prop :=
  ((exists i, free_silent_at vs i) -> lowest (free_silent_at vs) k) /\
  (~ (exists i, free_silent_at vs i) -> (exists i, free_at vs i) ->
   lowest (free_at vs) k) /\
  (~ (exists i, free_at vs i) -> k = 0%nat).

(** A pool with middle C held. *)
Definition pressed : voices := run [KeyDown 60 261.63] (initial 0).

End Pool.

(** ** The three-operator build (the older fm_synth_gui.cpp)

    The voice has no envelope: a flag [isActive] guards [process], and the
    pool looks only at the notes. *)

Module ThreeOperator.

Abbreviation ALG_SERIE := 0%Z (only parsing).
Abbreviation ALG_PARALELO := 1%Z (only parsing).
Abbreviation ALG_Y := 2%Z (only parsing).
Abbreviation ALG_DOBLE := 3%Z (only parsing).
Abbreviation ALG_COUNT := 4%Z (only parsing).

Record t : Type := mk {
  op1 : Oscillator.t;
  op2 : Oscillator.t;
  op3 : Oscillator.t;
  ratio1 : R;
  ratio2 : R;
  ratio3 : R;
  index1 : R;
  index2 : R;
  index3 : R;
  prevSample1 : R;
  algorithm : Z;
  amplitude : R;
  isActive : bool;
  currentFrequency : R;
  sampleRate : R
}.

Definition make (freq sr : R) : t :=
  mk (Oscillator.make freq sr)
     (Oscillator.make (freq * 2.0) sr)
     (Oscillator.make (freq * 3.0) sr)
     1.0 2.0 3.0
     0.0 2.0 1.5
     0.0
     ALG_SERIE
     0.3
     false
     freq
     sr.

(** The voice after the oscillator calls of one routing, with [out1]
    stored in [prevSample1]. *)
Definition after (o1 o2 o3 : Oscillator.t) (out1 : R) (s : t) : t :=
  mk o1 o2 o3 (ratio1 s) (ratio2 s) (ratio3 s)
     (index1 s) (index2 s) (index3 s) out1 (algorithm s) (amplitude s)
     (isActive s) (currentFrequency s) (sampleRate s).

Definition process (s : t) : R * t :=
  if negb (isActive s) then (0.0, s) else
  let idx1 := index1 s in
  let idx2 := index2 s in
  let idx3 := index3 s in
  let feedback := idx1 * prevSample1 s in
  match algorithm s with
  | ALG_SERIE =>
      let '(out3, o3) := Oscillator.process (op3 s) 0.0 in
      let '(out2, o2) := Oscillator.process (op2 s) (idx3 * out3) in
      let '(out1, o1) :=
        Oscillator.process (op1 s) (idx2 * out2 + feedback) in
      (out1 * amplitude s, after o1 o2 o3 out1 s)
  | ALG_PARALELO =>
      let '(out2, o2) := Oscillator.process (op2 s) 0.0 in
      let '(out3, o3) := Oscillator.process (op3 s) 0.0 in
      let '(out1, o1) :=
        Oscillator.process (op1 s) (idx2 * out2 + idx3 * out3 + feedback) in
      (out1 * amplitude s, after o1 o2 o3 out1 s)
  | ALG_Y =>
      let '(out3, o3) := Oscillator.process (op3 s) 0.0 in
      let '(out1, o1) :=
        Oscillator.process (op1 s) (idx3 * out3 + feedback) in
      let '(out2, o2) := Oscillator.process (op2 s) (idx3 * out3) in
      ((out1 + out2 * 0.5) * amplitude s * 0.7, after o1 o2 o3 out1 s)
  | ALG_DOBLE =>
      let '(out3, o3) := Oscillator.process (op3 s) 0.0 in
      let '(out2, o2) := Oscillator.process (op2 s) (idx3 * out3) in
      let '(out1, o1) :=
        Oscillator.process (op1 s)
          (idx2 * out2 + idx3 * out3 * 0.5 + feedback) in
      (out1 * amplitude s, after o1 o2 o3 out1 s)
  | _ => (0.0, s)
  end.

Definition noteOn (freq : R) (s : t) : t :=
  mk (Oscillator.reset (Oscillator.setFrequency (freq * ratio1 s) (op1 s)))
     (Oscillator.reset (Oscillator.setFrequency (freq * ratio2 s) (op2 s)))
     (Oscillator.reset (Oscillator.setFrequency (freq * ratio3 s) (op3 s)))
     (ratio1 s) (ratio2 s) (ratio3 s)
     (index1 s) (index2 s) (index3 s)
     0.0 (algorithm s) (amplitude s) true freq (sampleRate s).

Definition noteOff (s : t) : t :=
  mk (op1 s) (op2 s) (op3 s) (ratio1 s) (ratio2 s) (ratio3 s)
     (index1 s) (index2 s) (index3 s) (prevSample1 s) (algorithm s)
     (amplitude s) false (currentFrequency s) (sampleRate s).

Record Voice : Type := mkVoice {
  synth : t;
  note : Z
}.

(** [for (i...) if (voices[i].note == -1) return i;  return 0;] *)
Definition findFreeVoice (vs : list Voice) : nat :=
  match Pool.scan (fun v => (note v =? -1)%Z) vs 0 with
  | Some i => i
  | None => 0%nat
  end.

Definition free_at (vs : list Voice) (i : nat) : Prop :=
  exists v, Pool.slot vs i = Some v /\ note v = (-1)%Z.

End ThreeOperator.

(** ** Notions used in the statements *)

Module Terms.

(** The level returned by the envelope for the sample being computed:
    the local [envLevel] of [FMSynth::process]. *)
Definition envLevel (s : FMSynth.t) : R :=
  fst (ADSREnvelope.process (FMSynth.envelope s)).

(** Operator phases at the moment [process()] is called. *)
Definition ph1 (s : FMSynth.t) : R := Oscillator.phase (FMSynth.op1 s).
Definition ph2 (s : FMSynth.t) : R := Oscillator.phase (FMSynth.op2 s).
Definition ph3 (s : FMSynth.t) : R := Oscillator.phase (FMSynth.op3 s).
Definition ph4 (s : FMSynth.t) : R := Oscillator.phase (FMSynth.op4 s).

(** The selector names one of the six routing algorithms. *)
Definition named_algorithm (a : Z) : Prop := (0 <= a <= 5)%Z.

(** A voice as [main] builds it, and the same voice with a key held. *)
Definition fresh_voice : FMSynth.t := FMSynth.make 440.0 SAMPLE_RATE 0.
Definition held_voice : FMSynth.t := FMSynth.noteOn 440.0 fresh_voice.

(** A held voice whose selector is [ALG_COUNT], which names no routing. *)
Definition misrouted_voice : FMSynth.t :=
  FMSynth.setAlgorithm FMSynth.ALG_COUNT held_voice.

(** The oscillator left behind by one [process] call (the phase update
    does not depend on the modulation input). *)
Definition tick (o : Oscillator.t) : Oscillator.t :=
  snd (Oscillator.process o 0.0).

(** The voice left behind by a call of [process()] that ran one of the
    six routings and stored [out1] in [prevSample1]. *)
Definition stepped (out1 : R) (s : FMSynth.t) : FMSynth.t :=
  let s' := FMSynth.set_envelope
              (snd (ADSREnvelope.process (FMSynth.envelope s))) s in
  FMSynth.set_prevSample1 out1
    (FMSynth.set_ops (tick (FMSynth.op1 s)) (tick (FMSynth.op2 s))
                     (tick (FMSynth.op3 s)) (tick (FMSynth.op4 s)) s').

(** A voice with every modulation index at 0 and the Dual routing, one
    sample after note-on at 440 Hz. *)
Definition dual_probe : FMSynth.t :=
  FMSynth.process_n 1
    (FMSynth.noteOn 440.0
       (FMSynth.setAlgorithm FMSynth.ALG_DUAL_CARRIER
          (FMSynth.setIndex4 0.0
             (FMSynth.setIndex3 0.0
                (FMSynth.setIndex2 0.0 fresh_voice))))).

(** What every envelope built with a positive sample rate satisfies at
    all times. *)
Record well_formed (e : ADSREnvelope.t) : Prop := mk_wf {
  wf_sampleRate : 0 < ADSREnvelope.sampleRate e;
  wf_attackTime : 0 < ADSREnvelope.attackTime e;
  wf_decayTime : 0 < ADSREnvelope.decayTime e;
  wf_releaseTime : 0 < ADSREnvelope.releaseTime e;
  wf_sustainLevel : 0 <= ADSREnvelope.sustainLevel e <= 1;
  wf_currentLevel : 0 <= ADSREnvelope.currentLevel e <= 1;
  wf_attackIncrement : 0 <= ADSREnvelope.attackIncrement e;
  wf_decayIncrement : 0 <= ADSREnvelope.decayIncrement e;
  wf_releaseIncrement :
    ADSREnvelope.state e = ADSREnvelope.ENV_RELEASE ->
    0 <= ADSREnvelope.releaseIncrement e
}.

(** An envelope at the repository's sample rate with the shortest
    release, one sample into its attack. *)
Definition held_calls : list ADSREnvelope.call :=
  [ADSREnvelope.SetRelease 0.0; ADSREnvelope.NoteOn; ADSREnvelope.Process].

Definition held_envelope : ADSREnvelope.t :=
  ADSREnvelope.run held_calls (ADSREnvelope.make SAMPLE_RATE 0).

(** An operator asked for one and a half times the sample rate, 66150 Hz:
    about what the top key of the on-screen piano at octave 8 (MIDI note
    120, 8372 Hz) gives with an operator ratio of 7.9. *)
Definition fast_oscillator : Oscillator.t :=
  Oscillator.make 66150.0 SAMPLE_RATE.

(** What the calls of [Oscillator.process] preserve when the increment
    is at most one turn. *)
Definition in_turn (o : Oscillator.t) : Prop :=
  0 <= Oscillator.phase o < TWO_PI /\
  0 <= Oscillator.phaseIncrement o <= TWO_PI.

(** The end-to-end scenario: a voice as built by [main], modulator ratio
    2.0, modulation index 3.0, Stack routing, attack 0, decay 0,
    sustain 1, release 0, then [noteOn(440.0)].  [uninit] is the
    indeterminate release increment of the new envelope. *)
Definition scenario (uninit : R) : FMSynth.t :=
  FMSynth.noteOn 440.0
    (FMSynth.setRelease 0.0
       (FMSynth.setSustain 1.0
          (FMSynth.setDecay 0.0
             (FMSynth.setAttack 0.0
                (FMSynth.setAlgorithm FMSynth.ALG_STACK
                   (FMSynth.setIndex2 3.0
                      (FMSynth.setRatio2 2.0
                         (FMSynth.make 440.0 SAMPLE_RATE uninit)))))))).

(** Phase increment per sample of an operator of ratio [ratio] at 440 Hz. *)
Definition increment (ratio : R) : R :=
  TWO_PI * (440.0 * ratio) / SAMPLE_RATE.

(** [n] increments reduced modulo TWO_PI. *)
Definition phase_at (inc : R) (n : nat) : R :=
  INR n * inc - TWO_PI * IZR (Int_part (INR n * inc / TWO_PI)).

(** Envelope level after [n] samples of the scenario: a linear attack
    over the shortest attack time the setter allows, 1 ms, then 1. *)
Definition level_at (n : nat) : R :=
  Rmin 1 (INR n / (0.001 * SAMPLE_RATE)).

(** Sample number [n] (from 0) of the scenario in closed form: the whole
    chain 4 -> 3 -> 2 -> 1 with the indices of operators 3 and 4 at their
    constructor values 1.5 and 1.0. *)
Definition scenario_sample (n : nat) : R :=
  0.3 * level_at (S n) *
  sin (phase_at (increment 1.0) n +
       3.0 * sin (phase_at (increment 2.0) n +
                  1.5 * sin (phase_at (increment 3.0) n +
                             1.0 * sin (phase_at (increment 4.0) n)))).

(** The two-operator formula of the specification for the same sample. *)
Definition two_operator_sample (n : nat) : R :=
  0.3 * sin (phase_at (increment 1.0) n +
             3.0 * sin (phase_at (increment 2.0) n)).

(** The envelope of the scenario after [n] samples. *)
Record attack_course (n : nat) (e : ADSREnvelope.t) : Prop := mk_ac {
  ac_attackIncrement :
    ADSREnvelope.attackIncrement e = 1 / (0.001 * SAMPLE_RATE);
  ac_decayIncrement : ADSREnvelope.decayIncrement e = 0;
  ac_sustainLevel : ADSREnvelope.sustainLevel e = 1;
  ac_currentLevel : ADSREnvelope.currentLevel e = level_at n;
  ac_state :
    (ADSREnvelope.state e = ADSREnvelope.ENV_ATTACK /\
     INR n / (0.001 * SAMPLE_RATE) < 1) \/
    ((ADSREnvelope.state e = ADSREnvelope.ENV_DECAY \/
      ADSREnvelope.state e = ADSREnvelope.ENV_SUSTAIN) /\
     1 <= INR n / (0.001 * SAMPLE_RATE))
}.

(** The voice of the scenario after [n] samples. *)
Record on_course (n : nat) (s : FMSynth.t) : Prop := mk_oc {
  oc_algorithm : FMSynth.algorithm s = FMSynth.ALG_STACK;
  oc_index1 : FMSynth.index1 s = 0.0;
  oc_index2 : FMSynth.index2 s = 3.0;
  oc_index3 : FMSynth.index3 s = 1.5;
  oc_index4 : FMSynth.index4 s = 1.0;
  oc_amplitude : FMSynth.amplitude s = 0.3;
  oc_inc1 : Oscillator.phaseIncrement (FMSynth.op1 s) = increment 1.0;
  oc_inc2 : Oscillator.phaseIncrement (FMSynth.op2 s) = increment 2.0;
  oc_inc3 : Oscillator.phaseIncrement (FMSynth.op3 s) = increment 3.0;
  oc_inc4 : Oscillator.phaseIncrement (FMSynth.op4 s) = increment 4.0;
  oc_ph1 : ph1 s = phase_at (increment 1.0) n;
  oc_ph2 : ph2 s = phase_at (increment 2.0) n;
  oc_ph3 : ph3 s = phase_at (increment 3.0) n;
  oc_ph4 : ph4 s = phase_at (increment 4.0) n;
  oc_envelope : attack_course n (FMSynth.envelope s)
}.

(** The two-operator voice after [n] samples of its scenario. *)
Record two_on_course (n : nat) (s : TwoOperator.t) : Prop := mk_toc {
  toc_active : TwoOperator.isActive s = true;
  toc_index : TwoOperator.modulationIndex s = 3.0;
  toc_amplitude : TwoOperator.amplitude s = 0.3;
  toc_inc_c :
    Oscillator.phaseIncrement (TwoOperator.carrier s) = increment 1.0;
  toc_inc_m :
    Oscillator.phaseIncrement (TwoOperator.modulator s) = increment 2.0;
  toc_ph_c :
    Oscillator.phase (TwoOperator.carrier s) = phase_at (increment 1.0) n;
  toc_ph_m :
    Oscillator.phase (TwoOperator.modulator s) = phase_at (increment 2.0) n
}.

End Terms.

(** ** Calls on one voice

    The public interface of [FMSynth] as a type of calls, to speak about
    every voice a program can reach from the constructor.  The setters
    are a type of their own: the main loop of fm_synth_gui.cpp applies
    them to all the voices of the pool on every GUI frame. *)

Module VoiceCalls.

Inductive setter : Type :=
| SetRatio1 (r : R)
| SetRatio2 (r : R)
| SetRatio3 (r : R)
| SetRatio4 (r : R)
| SetIndex1 (i : R)
| SetIndex2 (i : R)
| SetIndex3 (i : R)
| SetIndex4 (i : R)
| SetAlgorithm (alg : Z)
| SetAttack (seconds : R)
| SetDecay (seconds : R)
| SetSustain (level : R)
| SetRelease (seconds : R).

Inductive call : Type :=
| NoteOn (freq : R)
| NoteOff
| Process
| Control (p : setter).

Definition apply (p : setter) (s : FMSynth.t) : FMSynth.t :=
  match p with
  | SetRatio1 r => FMSynth.setRatio1 r s
  | SetRatio2 r => FMSynth.setRatio2 r s
  | SetRatio3 r => FMSynth.setRatio3 r s
  | SetRatio4 r => FMSynth.setRatio4 r s
  | SetIndex1 i => FMSynth.setIndex1 i s
  | SetIndex2 i => FMSynth.setIndex2 i s
  | SetIndex3 i => FMSynth.setIndex3 i s
  | SetIndex4 i => FMSynth.setIndex4 i s
  | SetAlgorithm a => FMSynth.setAlgorithm a s
  | SetAttack x => FMSynth.setAttack x s
  | SetDecay x => FMSynth.setDecay x s
  | SetSustain l => FMSynth.setSustain l s
  | SetRelease x => FMSynth.setRelease x s
  end.

Definition exec (c : call) (s : FMSynth.t) : FMSynth.t :=
  match c with
  | NoteOn freq => FMSynth.noteOn freq s
  | NoteOff => FMSynth.noteOff s
  | Process => snd (FMSynth.process s)
  | Control p => apply p s
  end.

(** Calls are executed from the head of the list. *)
Fixpoint run (cs : list call) (s : FMSynth.t) : FMSynth.t :=
  match cs with
  | [] => s
  | c :: cs' => run cs' (exec c s)
  end.

End VoiceCalls.

(** ** A session on the voice pool

    The pool under everything the running program does to it
    (fm_synth_gui.cpp): key events, rendered frames, and the calls of
    the parameter loop of [main],
    [for (int v = 0; v < NUM_VOICES; v++) { voices[v].synth->setRatio1(..);
     ... voices[v].synth->setRelease(..); }], one event per call, so that
    frames and key events can fall between any two of them. *)

Module Session.

(** [voices[v].synth->setX(..)] for one setter. *)
Definition push (v : nat) (p : VoiceCalls.setter) (vs : Pool.voices)
  : Pool.voices :=
  Pool.update v (fun x => Pool.mkVoice (VoiceCalls.apply p (Pool.synth x))
                                       (Pool.note x)) vs.

Inductive event : Type :=
| Key (ev : Pool.event)
| Param (v : nat) (p : VoiceCalls.setter).

Definition exec (ev : event) (vs : Pool.voices) : Pool.voices :=
  match ev with
  | Key k => Pool.exec k vs
  | Param v p => push v p vs
  end.

Fixpoint run (evs : list event) (vs : Pool.voices) : Pool.voices :=
  match evs with
  | [] => vs
  | ev :: evs' => run evs' (exec ev vs)
  end.

(** [bool isNoteActive(int note)]: some slot carries the note. *)
Definition isNoteActive (n : Z) (vs : Pool.voices) : bool :=
  match Pool.scan (fun v => (Pool.note v =? n)%Z) vs 0 with
  | Some _ => true
  | None => false
  end.

(** The head of the frame loop of [audioCallback]:
    [double sample = 0.0; for (v...) sample += voices[v].synth->process();
     sample *= 0.4;] *)
Definition mixdown (vs : Pool.voices) : R * Pool.voices :=
  let '(sample, vs') := Pool.mixVoices vs 0.0 in
  (sample * 0.4, vs').

End Session.

(** ** Invariants of the reachable states *)

Module Invariants.

(** The envelope keeps its increments in step with its times, its times
    at or above the 1 ms floor of the setters, and the level at 0 while
    idle. *)
Record timed (e : ADSREnvelope.t) : Prop := mk_timed {
  tm_attackTime : 0.001 <= ADSREnvelope.attackTime e;
  tm_decayTime : 0.001 <= ADSREnvelope.decayTime e;
  tm_releaseTime : 0.001 <= ADSREnvelope.releaseTime e;
  tm_attackIncrement :
    ADSREnvelope.attackIncrement e =
    1.0 / (ADSREnvelope.attackTime e * ADSREnvelope.sampleRate e);
  tm_decayIncrement :
    ADSREnvelope.decayIncrement e =
    (1.0 - ADSREnvelope.sustainLevel e) /
    (ADSREnvelope.decayTime e * ADSREnvelope.sampleRate e);
  tm_idle :
    ADSREnvelope.state e = ADSREnvelope.ENV_IDLE ->
    ADSREnvelope.currentLevel e = 0
}.

(** The envelope is in one of the three stages of a held key. *)
Definition held (e : ADSREnvelope.t) : Prop :=
  ADSREnvelope.state e = ADSREnvelope.ENV_ATTACK \/
  ADSREnvelope.state e = ADSREnvelope.ENV_DECAY \/
  ADSREnvelope.state e = ADSREnvelope.ENV_SUSTAIN.

(** An operator of a voice built for the sample rate [sr]. *)
Definition operator_ok (sr : R) (o : Oscillator.t) : Prop :=
  Oscillator.sampleRate o = sr /\
  Oscillator.phaseIncrement o = TWO_PI * Oscillator.frequency o / sr.

(** What every voice built with the sample rate [sr] satisfies at all
    times. *)
Record voice_ok (sr : R) (s : FMSynth.t) : Prop := mk_voice_ok {
  vo_amplitude : FMSynth.amplitude s = 0.3;
  vo_envelope : Terms.well_formed (FMSynth.envelope s);
  vo_timed : timed (FMSynth.envelope s);
  vo_sampleRate : ADSREnvelope.sampleRate (FMSynth.envelope s) = sr;
  vo_prevSample1 : -1 <= FMSynth.prevSample1 s <= 1;
  vo_op1 : operator_ok sr (FMSynth.op1 s);
  vo_op2 : operator_ok sr (FMSynth.op2 s);
  vo_op3 : operator_ok sr (FMSynth.op3 s);
  vo_op4 : operator_ok sr (FMSynth.op4 s);
  vo_held : FMSynth.noteActive s = true <-> held (FMSynth.envelope s);
  vo_tuned :
    FMSynth.noteActive s = true ->
    Oscillator.frequency (FMSynth.op1 s) =
      FMSynth.currentFrequency s * FMSynth.ratio1 s /\
    Oscillator.frequency (FMSynth.op2 s) =
      FMSynth.currentFrequency s * FMSynth.ratio2 s /\
    Oscillator.frequency (FMSynth.op3 s) =
      FMSynth.currentFrequency s * FMSynth.ratio3 s /\
    Oscillator.frequency (FMSynth.op4 s) =
      FMSynth.currentFrequency s * FMSynth.ratio4 s
}.

(** Every slot of the pool holds such a voice. *)
Definition pool_ok (vs : Pool.voices) : Prop :=
  forall i v, Pool.slot vs i = Some v ->
              voice_ok SAMPLE_RATE (Pool.synth v).

(** No slot carries the note [n]. *)
Definition not_held (n : Z) (vs : Pool.voices) : Prop :=
  forall i v, Pool.slot vs i = Some v -> Pool.note v <> n.

(** An envelope whose attack takes one sample: the shortest attack the
    setter allows, 1 ms, at a sample rate of 1 kHz.  After the one
    [process()] call it is in its decay. *)
Definition one_sample_attack : list ADSREnvelope.call :=
  [ADSREnvelope.SetAttack 0.0; ADSREnvelope.NoteOn; ADSREnvelope.Process].

(** The calls that can reach an envelope while its note fades, short
    of a new note: [process()] and the four setters.  [processes] counts
    the [process()] calls among them. *)
Definition tail_call (c : ADSREnvelope.call) : bool :=
  match c with
  | ADSREnvelope.NoteOn | ADSREnvelope.NoteOff => false
  | _ => true
  end.

Fixpoint processes (cs : list ADSREnvelope.call) : nat :=
  match cs with
  | [] => O
  | ADSREnvelope.Process :: cs' => S (processes cs')
  | _ :: cs' => processes cs'
  end.

(** Two envelopes that fade alike: same stage, Release or Idle, same
    level and same release increment. *)
Definition same_tail (e1 e2 : ADSREnvelope.t) : Prop :=
  ADSREnvelope.state e1 = ADSREnvelope.state e2 /\
  ADSREnvelope.currentLevel e1 = ADSREnvelope.currentLevel e2 /\
  ADSREnvelope.releaseIncrement e1 = ADSREnvelope.releaseIncrement e2 /\
  (ADSREnvelope.state e1 = ADSREnvelope.ENV_RELEASE \/
   ADSREnvelope.state e1 = ADSREnvelope.ENV_IDLE).

(** A fading note one sample after note-off, with the release slider
    moved while it fades. *)
Definition fading : ADSREnvelope.t :=
  ADSREnvelope.noteOff
    (ADSREnvelope.run [ADSREnvelope.NoteOn; ADSREnvelope.Process]
       (ADSREnvelope.make SAMPLE_RATE 0)).

Definition slider_moves : list ADSREnvelope.call :=
  [ADSREnvelope.SetRelease 2.0; ADSREnvelope.Process;
   ADSREnvelope.SetSustain 0.2; ADSREnvelope.Process].

End Invariants.

(** ** Machine integers and indexed storage

    The [int] arithmetic of the buffers: a signed overflow, a remainder
    by 0 and an access outside a [std::vector] or array are undefined
    behaviour in C++; each is [None] here, and a method that can meet
    one returns an [option]. *)

Module Int.

Definition min_int : Z := (- 2 ^ 31)%Z.
Definition max_int : Z := (2 ^ 31 - 1)%Z.

Definition in_range (z : Z) : bool :=
  (min_int <=? z)%Z && (z <=? max_int)%Z.

Definition checked (z : Z) : option Z :=
  if in_range z then Some z else None.

Definition add (a b : Z) : option Z := checked (a + b).
Definition sub (a b : Z) : option Z := checked (a - b).

(** [(int)x] for a [double] x: truncation towards 0, undefined when the
    result does not fit. *)
Definition trunc (x : R) : Z :=
  if Rle_dec 0 x then Int_part x else (- Int_part (- x))%Z.

Definition of_double (x : R) : option Z := checked (trunc x).

(** [a % b]: the remainder of the division that truncates towards 0,
    undefined for [b == 0] and for [INT_MIN % -1]. *)
Definition rem (a b : Z) : option Z :=
  if (b =? 0)%Z || ((a =? min_int)%Z && (b =? -1)%Z) then None
  else checked (Z.rem a b).

End Int.

Module Vec.

(** [v[i]] read. *)
Definition get {A : Type} (v : list A) (i : Z) : option A :=
  if (i <? 0)%Z then None else nth_error v (Z.to_nat i).

Fixpoint set_nth {A : Type} (n : nat) (x : A) (v : list A) {struct v}
  : option (list A) :=
  match v, n with
  | [], _ => None
  | _ :: rest, O => Some (x :: rest)
  | y :: rest, S k =>
      match set_nth k x rest with
      | Some rest' => Some (y :: rest')
      | None => None
      end
  end.

(** [v[i] = x]. *)
Definition set {A : Type} (v : list A) (i : Z) (x : A) : option (list A) :=
  if (i <? 0)%Z then None else set_nth (Z.to_nat i) x v.

End Vec.

(** Sequencing of steps that can fail. *)
Definition bind {A B : Type} (m : option A) (k : A -> option B)
  : option B :=
  match m with
  | Some a => k a
  | None => None
  end.

Notation "x <- m ;; k" := (bind m (fun x => k))
  (at level 61, m at next level, right associativity).

(** ** Waveform ring buffer (synth/waveform_buffer.h)

    The samples are [float]; they are reals here, like the doubles. *)

Module WaveformBuffer.

Record t : Type := mk {
  buffer : list R;
  writeIndex : Z;
  size : Z
}.

(** Constructor [WaveformBuffer(bufferSize)]:
    [buffer.resize(size, 0.0f)] throws for a negative size, which the
    conversion to [size_t] turns into a huge one. *)
Definition make (bufferSize : Z) : option t :=
  if (bufferSize <? 0)%Z then None
  else Some (mk (repeat 0.0 (Z.to_nat bufferSize)) 0 bufferSize).

Definition write (sample : R) (b : t) : option t :=
  buffer' <- Vec.set (buffer b) (writeIndex b) sample ;;
  next <- Int.add (writeIndex b) 1 ;;
  index' <- Int.rem next (size b) ;;
  Some (mk buffer' index' (size b)).

Definition read (index : Z) (b : t) : option R :=
  sum <- Int.add (writeIndex b) index ;;
  readIdx <- Int.rem sum (size b) ;;
  Vec.get (buffer b) readIdx.

Definition getSize (b : t) : Z := size b.

(** The buffer after the samples of a list have been written, first
    sample first. *)
Fixpoint write_all (samples : list R) (b : t) : option t :=
  match samples with
  | [] => Some b
  | x :: rest => b' <- write x b ;; write_all rest b'
  end.

(** The slot an offset [k] lands on, counted from [writeIndex] with one
    wrap. *)
Definition landing (b : t) (k : Z) : Z :=
  if (writeIndex b + k <? size b)%Z then (writeIndex b + k)%Z
  else (writeIndex b + k - size b)%Z.

(** What the constructor establishes and [write] keeps, for a size that
    leaves room for [writeIndex + index] in an [int]. *)
Definition ok (b : t) : Prop :=
  (0 < size b <= 2 ^ 30)%Z /\
  length (buffer b) = Z.to_nat (size b) /\
  (0 <= writeIndex b < size b)%Z.

End WaveformBuffer.

(** ** Note numbers to frequencies (fm_synth_gui.cpp, "Utility")

    [return 440.0 * std::pow(2.0, (midiNote - 69) / 12.0);] with the
    subtraction done on [int]s. *)

Definition midiToFreq (midiNote : Z) : option R :=
  d <- Int.sub midiNote 69 ;;
  Some (440.0 * Rpower 2.0 (IZR d / 12.0)).

(** ** Biquad filter (synth/filter.h) *)

Module Filter.

Abbreviation FILTER_OFF := 0%Z (only parsing).
Abbreviation FILTER_LOWPASS := 1%Z (only parsing).
Abbreviation FILTER_HIGHPASS := 2%Z (only parsing).

Record t : Type := mk {
  y1 : R;
  y2 : R;
  x1 : R;
  x2 : R;
  a0 : R;
  a1 : R;
  a2 : R;
  b1 : R;
  b2 : R;
  sampleRate : R
}.

Definition make (sr : R) : t := mk 0 0 0 0 1 0 0 0 0 sr.

Definition set_coefficients (c0 c1 c2 d1 d2 : R) (f : t) : t :=
  mk (y1 f) (y2 f) (x1 f) (x2 f) c0 c1 c2 d1 d2 (sampleRate f).

Definition setLowPass (cutoff q : R) (f : t) : t :=
  let w0 := 2.0 * 3.14159265 * cutoff / sampleRate f in
  let cosw0 := cos w0 in
  let sinw0 := sin w0 in
  let alpha := sinw0 / (2.0 * q) in
  let b0 := (1.0 - cosw0) / 2.0 in
  let b1_t := 1.0 - cosw0 in
  let b2_t := (1.0 - cosw0) / 2.0 in
  let a0_t := 1.0 + alpha in
  let a1_t := -2.0 * cosw0 in
  let a2_t := 1.0 - alpha in
  set_coefficients (b0 / a0_t) (b1_t / a0_t) (b2_t / a0_t)
                   (a1_t / a0_t) (a2_t / a0_t) f.

Definition setHighPass (cutoff q : R) (f : t) : t :=
  let w0 := 2.0 * 3.14159265 * cutoff / sampleRate f in
  let cosw0 := cos w0 in
  let sinw0 := sin w0 in
  let alpha := sinw0 / (2.0 * q) in
  let b0 := (1.0 + cosw0) / 2.0 in
  let b1_t := - (1.0 + cosw0) in
  let b2_t := (1.0 + cosw0) / 2.0 in
  let a0_t := 1.0 + alpha in
  let a1_t := -2.0 * cosw0 in
  let a2_t := 1.0 - alpha in
  set_coefficients (b0 / a0_t) (b1_t / a0_t) (b2_t / a0_t)
                   (a1_t / a0_t) (a2_t / a0_t) f.

(** [double process(double input)]: the output, then the filter with
    its delay registers shifted. *)
Definition process (input : R) (f : t) : R * t :=
  let output :=
    a0 f * input + a1 f * x1 f + a2 f * x2 f - b1 f * y1 f - b2 f * y2 f in
  (output,
   mk output (y1 f) input (x1 f)
      (a0 f) (a1 f) (a2 f) (b1 f) (b2 f) (sampleRate f)).

Definition reset (f : t) : t :=
  mk 0.0 0.0 0.0 0.0 (a0 f) (a1 f) (a2 f) (b1 f) (b2 f) (sampleRate f).


End Filter.

(** ** Low-frequency oscillator and its routing (synth/lfo.h) *)

Module LFO.

Abbreviation LFO_OFF := 0%Z (only parsing).
Abbreviation LFO_RATIO1 := 1%Z (only parsing).
Abbreviation LFO_RATIO2 := 2%Z (only parsing).
Abbreviation LFO_RATIO3 := 3%Z (only parsing).
Abbreviation LFO_RATIO4 := 4%Z (only parsing).
Abbreviation LFO_INDEX1 := 5%Z (only parsing).
Abbreviation LFO_INDEX2 := 6%Z (only parsing).
Abbreviation LFO_INDEX3 := 7%Z (only parsing).
Abbreviation LFO_INDEX4 := 8%Z (only parsing).
Abbreviation LFO_FILTER_CUT := 9%Z (only parsing).
Abbreviation LFO_FILTER_Q := 10%Z (only parsing).
Abbreviation LFO_CHORUS := 11%Z (only parsing).
Abbreviation LFO_REVERB := 12%Z (only parsing).
Abbreviation LFO_TARGET_COUNT := 13%Z (only parsing).

Record t : Type := mk {
  phase : R;
  sampleRate : R
}.

Definition make (sr : R) : t := mk 0.0 sr.

(** [double process(double rate, double depth)]. *)
Definition process (rate depth : R) (l : t) : R * t :=
  let output := sin (phase l * TWO_PI) * depth in
  let p := phase l + rate / sampleRate l in
  (output, mk (if Rge_dec p 1.0 then p - 1.0 else p) (sampleRate l)).

Definition reset (l : t) : t := mk 0.0 (sampleRate l).

(** The oscillator after a series of calls, one per pair
    [(rate, depth)]. *)
Fixpoint run (calls : list (R * R)) (l : t) : t :=
  match calls with
  | [] => l
  | (rate, depth) :: rest => run rest (snd (process rate depth l))
  end.

(** [applyLfoMod]; the [float]s are reals. *)
Definition applyLfoMod (baseValue : R) (target lfoTarget : Z)
    (lfoValue minVal maxVal : R) : R :=
  if negb (target =? lfoTarget)%Z || (lfoTarget =? LFO_OFF)%Z
  then baseValue
  else
    let range := maxVal - minVal in
    Rmax minVal (Rmin maxVal (baseValue + lfoValue * range * 0.5)).

(** The two lines the main loop of fm_synth_gui.cpp writes for every
    modulated parameter: the first LFO, then the second on its result. *)
Definition modulated (baseValue : R) (target : Z)
    (lfo1Target : Z) (lfo1Val : R) (lfo2Target : Z) (lfo2Val : R)
    (minVal maxVal : R) : R :=
  let m := applyLfoMod baseValue target lfo1Target lfo1Val minVal maxVal in
  applyLfoMod m target lfo2Target lfo2Val minVal maxVal.

End LFO.

(** ** Chorus (synth/effects.h, class [JunoChorus]) *)

Module JunoChorus.

Definition MAX_DELAY : Z := 2048.
Definition lfoRate1 : R := 0.513.
Definition lfoRate2 : R := 0.863.
Definition baseDelay : R := 0.005.
Definition depth : R := 0.003.

Record t : Type := mk {
  delayLineL : list R;
  delayLineR : list R;
  writeIndex : Z;
  lfoPhase1 : R;
  lfoPhase2 : R;
  sampleRate : R
}.

Definition make (sr : R) : t :=
  mk (repeat 0.0 (Z.to_nat MAX_DELAY)) (repeat 0.0 (Z.to_nat MAX_DELAY))
     0 0 0 sr.

(** [double readPos = writeIndex - delaySamples;
     if (readPos < 0) readPos += MAX_DELAY;] *)
Definition readPos (writeIndex : Z) (delaySamples : R) : R :=
  let p := IZR writeIndex - delaySamples in
  if Rlt_dec p 0 then p + IZR MAX_DELAY else p.

(** The interpolated read, written once for the left line and once for
    the right one in the source:
    [int index = (int)readPos; int index2 = (index + 1) % MAX_DELAY;
     double frac = readPos - index;
     wet = line[index] * (1.0 - frac) + line[index2] * frac;] *)
Definition tap (line : list R) (pos : R) : option R :=
  index <- Int.of_double pos ;;
  next <- Int.add index 1 ;;
  index2 <- Int.rem next MAX_DELAY ;;
  let frac := pos - IZR index in
  a <- Vec.get line index ;;
  b <- Vec.get line index2 ;;
  Some (a * (1.0 - frac) + b * frac).

(** [if (lfoPhase >= 1.0) lfoPhase -= 1.0;] *)
Definition wrap (p : R) : R := if Rge_dec p 1.0 then p - 1.0 else p.

(** [void process(double input, double& outL, double& outR, double mix)]:
    the pair [(outL, outR)], then the chorus. *)
Definition process (input mix : R) (c : t) : option (R * R * t) :=
  lineL <- Vec.set (delayLineL c) (writeIndex c) input ;;
  lineR <- Vec.set (delayLineR c) (writeIndex c) input ;;
  let lfo1 := sin (lfoPhase1 c * 2.0 * 3.14159265) in
  let lfo2 := sin (lfoPhase2 c * 2.0 * 3.14159265 + 1.5708) in
  let delayTimeL := baseDelay + depth * lfo1 in
  let delayTimeR := baseDelay + depth * lfo2 in
  let delaySamplesL := delayTimeL * sampleRate c in
  let delaySamplesR := delayTimeR * sampleRate c in
  wetL <- tap lineL (readPos (writeIndex c) delaySamplesL) ;;
  wetR <- tap lineR (readPos (writeIndex c) delaySamplesR) ;;
  let outL := input * (1.0 - mix) + wetL * mix in
  let outR := input * (1.0 - mix) + wetR * mix in
  let p1 := lfoPhase1 c + lfoRate1 / sampleRate c in
  let p2 := lfoPhase2 c + lfoRate2 / sampleRate c in
  next <- Int.add (writeIndex c) 1 ;;
  writeIndex' <- Int.rem next MAX_DELAY ;;
  Some (outL, outR,
        mk lineL lineR writeIndex' (wrap p1) (wrap p2) (sampleRate c)).

(** The chorus after a series of calls, one per pair [(input, mix)];
    [None] as soon as a call fails. *)
Fixpoint run (calls : list (R * R)) (c : t) : option t :=
  match calls with
  | [] => Some c
  | (input, mix) :: rest =>
      r <- process input mix c ;; run rest (snd r)
  end.

(** What the constructor establishes and [process] keeps, with a bound
    [B] on what the delay lines hold. *)
Definition ok (B : R) (c : t) : Prop :=
  length (delayLineL c) = Z.to_nat MAX_DELAY /\
  length (delayLineR c) = Z.to_nat MAX_DELAY /\
  (0 <= writeIndex c < MAX_DELAY)%Z /\
  Forall (fun x => Rabs x <= B) (delayLineL c) /\
  Forall (fun x => Rabs x <= B) (delayLineR c).

End JunoChorus.

(** ** Reverb (synth/effects.h, class [AtmosphericReverb])

    The source keeps each comb filter in four parallel vectors indexed
    by the same [i] ([combBuffers], [combDelays], [combIndices],
    [combFilters]) and each all-pass filter in three; a comb or an
    all-pass is one record here, and the vectors are the list of the
    records. *)

Module AtmosphericReverb.

Record Comb : Type := mkComb {
  combBuffer : list R;
  combDelay : Z;
  combIndex : Z;
  combFilter : R
}.

Record Allpass : Type := mkAllpass {
  allpassBuffer : list R;
  allpassDelay : Z;
  allpassIndex : Z
}.

Record t : Type := mk {
  combs : list Comb;
  allpasses : list Allpass;
  decay : R;
  damping : R;
  sampleRate : R
}.

(** [d = (int)(d * srRatio)]. *)
Definition scaled (d : Z) (srRatio : R) : option Z :=
  Int.of_double (IZR d * srRatio).

(** [buffer.resize(d, 0.0)] on an empty vector; a negative [d] becomes
    a huge [size_t] and the call throws. *)
Definition line (d : Z) : option (list R) :=
  if (d <? 0)%Z then None else Some (repeat 0.0 (Z.to_nat d)).

Definition make_comb (srRatio : R) (d : Z) : option Comb :=
  d' <- scaled d srRatio ;;
  buffer <- line d' ;;
  Some (mkComb buffer d' 0 0.0).

Definition make_allpass (srRatio : R) (d : Z) : option Allpass :=
  d' <- scaled d srRatio ;;
  buffer <- line d' ;;
  Some (mkAllpass buffer d' 0).

(** A loop that builds one element per entry of a list. *)
Fixpoint build {A B : Type} (f : A -> option B) (l : list A)
  : option (list B) :=
  match l with
  | [] => Some []
  | a :: rest =>
      b <- f a ;;
      bs <- build f rest ;;
      Some (b :: bs)
  end.

Definition make (sr : R) : option t :=
  let srRatio := sr / 44100.0 in
  cs <- build (make_comb srRatio) [1687; 1931; 2053; 2251]%Z ;;
  aps <- build (make_allpass srRatio) [547; 331]%Z ;;
  Some (mk cs aps 0.85 0.3 sr).

(** The body of the comb loop for one [i]: the delayed sample that is
    added to [wet], and the comb after it. *)
Definition comb_step (input decay damping : R) (c : Comb)
  : option (R * Comb) :=
  let idx := combIndex c in
  delayed <- Vec.get (combBuffer c) idx ;;
  let filter := delayed * (1.0 - damping) + combFilter c * damping in
  let feedback := filter * decay in
  buffer <- Vec.set (combBuffer c) idx (input + feedback) ;;
  next <- Int.add idx 1 ;;
  idx' <- Int.rem next (combDelay c) ;;
  Some (delayed, mkComb buffer (combDelay c) idx' filter).

Fixpoint comb_loop (input decay damping : R) (cs : list Comb) (wet : R)
  : option (R * list Comb) :=
  match cs with
  | [] => Some (wet, [])
  | c :: rest =>
      r <- comb_step input decay damping c ;;
      r' <- comb_loop input decay damping rest (wet + fst r) ;;
      Some (fst r', snd r :: snd r')
  end.

(** The body of the all-pass loop for one [i]: the new [wet], and the
    all-pass after it. *)
Definition allpass_step (wet : R) (a : Allpass) : option (R * Allpass) :=
  let idx := allpassIndex a in
  delayed <- Vec.get (allpassBuffer a) idx ;;
  let g := 0.5 in
  let output := - g * wet + delayed in
  buffer <- Vec.set (allpassBuffer a) idx (wet + g * output) ;;
  next <- Int.add idx 1 ;;
  idx' <- Int.rem next (allpassDelay a) ;;
  Some (output, mkAllpass buffer (allpassDelay a) idx').

Fixpoint allpass_loop (aps : list Allpass) (wet : R)
  : option (R * list Allpass) :=
  match aps with
  | [] => Some (wet, [])
  | a :: rest =>
      r <- allpass_step wet a ;;
      r' <- allpass_loop rest (fst r) ;;
      Some (fst r', snd r :: snd r')
  end.

(** [double process(double input, double mix)]. *)
Definition process (input mix : R) (r : t) : option (R * t) :=
  c <- comb_loop input (decay r) (damping r) (combs r) 0.0 ;;
  let wet := fst c * 0.25 in
  a <- allpass_loop (allpasses r) wet ;;
  Some (input * (1.0 - mix) + fst a * mix,
        mk (snd c) (snd a) (decay r) (damping r) (sampleRate r)).

Fixpoint run (calls : list (R * R)) (r : t) : option t :=
  match calls with
  | [] => Some r
  | (input, mix) :: rest =>
      o <- process input mix r ;; run rest (snd o)
  end.

(** A delay line of at least one sample with its cursor inside, holding
    nothing above [M] in absolute value. *)
Definition line_ok (M : R) (buffer : list R) (delay index : Z) : Prop :=
  (1 <= delay <= Int.max_int)%Z /\
  length buffer = Z.to_nat delay /\
  (0 <= index < delay)%Z /\
  Forall (fun x => Rabs x <= M) buffer.

Definition comb_ok (M : R) (c : Comb) : Prop :=
  line_ok M (combBuffer c) (combDelay c) (combIndex c) /\
  Rabs (combFilter c) <= M.

Definition allpass_ok (M : R) (a : Allpass) : Prop :=
  line_ok M (allpassBuffer a) (allpassDelay a) (allpassIndex a).

(** The reverb as its constructor builds it, with what its lines hold
    bounded in terms of [M]: the combs by [M], the first all-pass by
    2.5 M, the second by 7.5 M. *)
Definition ok (M : R) (r : t) : Prop :=
  decay r = 0.85 /\ damping r = 0.3 /\
  length (combs r) = 4%nat /\
  Forall (comb_ok M) (combs r) /\
  exists a1 a2, allpasses r = [a1; a2] /\
                allpass_ok (2.5 * M) a1 /\ allpass_ok (7.5 * M) a2.

End AtmosphericReverb.

(** ** The audio engine (fm_synth_gui.cpp, globals, [main],
    [audioCallback])

    The globals the audio callback works on, as one record. *)

Module Engine.

Definition WAVEFORM_SIZE : Z := 512.

Record t : Type := mk {
  voices : Pool.voices;
  waveformBuffer : WaveformBuffer.t;
  chorus : JunoChorus.t;
  reverbL : AtmosphericReverb.t;
  reverbR : AtmosphericReverb.t;
  filterL : Filter.t;
  filterR : Filter.t;
  chorusMix : R;
  reverbMix : R;
  filterType : Z
}.

(** What [main] builds before it opens the stream; [uninit] is the
    indeterminate release increment of the new envelopes. *)
Definition start (uninit : R) : option t :=
  wb <- WaveformBuffer.make WAVEFORM_SIZE ;;
  rl <- AtmosphericReverb.make SAMPLE_RATE ;;
  rr <- AtmosphericReverb.make SAMPLE_RATE ;;
  Some (mk (Pool.initial uninit) wb (JunoChorus.make SAMPLE_RATE) rl rr
           (Filter.make SAMPLE_RATE) (Filter.make SAMPLE_RATE)
           0.0 0.0 Filter.FILTER_OFF).

(** The body of the frame loop: the pair written to the output buffer,
    then the engine. *)
Definition frame (chMix rvMix : R) (fType : Z) (e : t)
  : option (R * R * t) :=
  let '(sample, vs) := Session.mixdown (voices e) in
  let '(sample, fl) :=
    if negb (fType =? Filter.FILTER_OFF)%Z
    then Filter.process sample (filterL e)
    else (sample, filterL e) in
  c <- JunoChorus.process sample chMix (chorus e) ;;
  let '(outL, outR, ch) := c in
  l <- AtmosphericReverb.process outL rvMix (reverbL e) ;;
  r <- AtmosphericReverb.process outR rvMix (reverbR e) ;;
  let outL := tanh (fst l) in
  let outR := tanh (fst r) in
  wb <- WaveformBuffer.write ((outL + outR) * 0.5) (waveformBuffer e) ;;
  Some (outL, outR,
        mk vs wb ch (snd l) (snd r) fl (filterR e)
           (chorusMix e) (reverbMix e) (filterType e)).

Fixpoint frames (n : nat) (chMix rvMix : R) (fType : Z) (e : t)
  : option (list (R * R) * t) :=
  match n with
  | O => Some ([], e)
  | S k =>
      f <- frame chMix rvMix fType e ;;
      rest <- frames k chMix rvMix fType (snd f) ;;
      Some (fst f :: fst rest, snd rest)
  end.

(** [audioCallback]: the three atomics are loaded once, before the
    loop over [nFrames]. *)
Definition audioCallback (nFrames : nat) (e : t)
  : option (list (R * R) * t) :=
  frames nFrames (chorusMix e) (reverbMix e) (filterType e) e.

Definition set_voices (vs : Pool.voices) (e : t) : t :=
  mk vs (waveformBuffer e) (chorus e) (reverbL e) (reverbR e)
     (filterL e) (filterR e) (chorusMix e) (reverbMix e) (filterType e).

(** The tail of the parameter block of the main loop:
    [chorusMix.store(..); reverbMix.store(..); filterType.store(..);]
    and the coefficients of both filters for the type selected. *)
Definition setEffects (chMix rvMix : R) (fType : Z) (cutoff q : R) (e : t)
  : t :=
  let set f :=
    if (fType =? Filter.FILTER_LOWPASS)%Z then Filter.setLowPass cutoff q f
    else if (fType =? Filter.FILTER_HIGHPASS)%Z
         then Filter.setHighPass cutoff q f
         else f in
  mk (voices e) (waveformBuffer e) (chorus e) (reverbL e) (reverbR e)
     (set (filterL e)) (set (filterR e)) chMix rvMix fType.

(** What happens to the engine while the program runs: the key and
    parameter events of a session (its [Frame] event runs the voice loop
    alone, which the program never does outside the callback; the
    events here are a superset), the effect settings, and calls of the
    audio callback. *)
Inductive event : Type :=
| Control (ev : Session.event)
| Effects (chMix rvMix : R) (fType : Z) (cutoff q : R)
| Audio (nFrames : nat).

Definition exec (ev : event) (e : t) : option t :=
  match ev with
  | Control c => Some (set_voices (Session.exec c (voices e)) e)
  | Effects chMix rvMix fType cutoff q =>
      Some (setEffects chMix rvMix fType cutoff q e)
  | Audio n => r <- audioCallback n e ;; Some (snd r)
  end.

Fixpoint run (evs : list event) (e : t) : option t :=
  match evs with
  | [] => Some e
  | ev :: rest => e' <- exec ev e ;; run rest e'
  end.

(** What the engine keeps: every buffer with its cursor inside. *)
Definition ok (e : t) : Prop :=
  WaveformBuffer.ok (waveformBuffer e) /\
  JunoChorus.sampleRate (chorus e) = SAMPLE_RATE /\
  (exists B, JunoChorus.ok B (chorus e)) /\
  (exists M, AtmosphericReverb.ok M (reverbL e)) /\
  (exists M, AtmosphericReverb.ok M (reverbR e)).

End Engine.

(** ** ADSR envelope on binary64

    The class of synth/envelope.h once more, with each [double] as an
    IEEE 754 binary64 value (the primitive floats of the Standard
    Library, computed by the kernel) instead of a real number.  The
    call at which a stage ends is where the two differ: the comparisons
    [currentLevel >= 1.0], [<= sustainLevel] and [<= 0.0] are taken on
    the rounded sums of [currentLevel += ...], and the quotient of
    [noteOff] can underflow.  This model computes what the compiled
    class does at given settings. *)

Module ADSREnvelope64.

Import Floats.
#[local] Set Warnings "-inexact-float".

Record t : Type := mk {
  attackTime : float;
  decayTime : float;
  sustainLevel : float;
  releaseTime : float;
  state : ADSREnvelope.EnvelopeState;
  currentLevel : float;
  sampleRate : float;
  attackIncrement : float;
  decayIncrement : float;
  releaseIncrement : float;
  releaseStartLevel : float
}.

(** [std::max(a, b)] is [(a < b) ? b : a], [std::min(a, b)] is
    [(b < a) ? b : a]. *)
Definition max (a b : float) : float := if (a <? b)%float then b else a.
Definition min (a b : float) : float := if (b <? a)%float then b else a.

Definition updateIncrements (e : t) : t :=
  mk (attackTime e) (decayTime e) (sustainLevel e) (releaseTime e)
     (state e) (currentLevel e) (sampleRate e)
     (1.0 / (attackTime e * sampleRate e))%float
     ((1.0 - sustainLevel e) / (decayTime e * sampleRate e))%float
     (releaseIncrement e) (releaseStartLevel e).

(** Constructor; [uninit] is the indeterminate [releaseIncrement]. *)
Definition make (sr uninit : float) : t :=
  updateIncrements
    (mk 0.01%float 0.1%float 0.7%float 0.3%float ADSREnvelope.ENV_IDLE
        0.0%float sr 0%float 0%float uninit 0.0%float).

Definition set_state (st : ADSREnvelope.EnvelopeState) (e : t) : t :=
  mk (attackTime e) (decayTime e) (sustainLevel e) (releaseTime e)
     st (currentLevel e) (sampleRate e)
     (attackIncrement e) (decayIncrement e)
     (releaseIncrement e) (releaseStartLevel e).

Definition set_level (l : float) (e : t) : t :=
  mk (attackTime e) (decayTime e) (sustainLevel e) (releaseTime e)
     (state e) l (sampleRate e)
     (attackIncrement e) (decayIncrement e)
     (releaseIncrement e) (releaseStartLevel e).

Definition noteOn (e : t) : t := set_state ADSREnvelope.ENV_ATTACK e.

Definition noteOff (e : t) : t :=
  match state e with
  | ADSREnvelope.ENV_IDLE => e
  | _ =>
      let releaseStartLevel' := currentLevel e in
      let releaseIncrement' :=
        if (0.0 <? releaseTime e)%float
        then (releaseStartLevel' / (releaseTime e * sampleRate e))%float
        else releaseStartLevel' in
      mk (attackTime e) (decayTime e) (sustainLevel e) (releaseTime e)
         ADSREnvelope.ENV_RELEASE (currentLevel e) (sampleRate e)
         (attackIncrement e) (decayIncrement e)
         releaseIncrement' releaseStartLevel'
  end.

(** One call of [process()]; the value returned is the [currentLevel]
    of the result. *)
Definition advance (e : t) : t :=
  match state e with
  | ADSREnvelope.ENV_IDLE => set_level 0.0%float e
  | ADSREnvelope.ENV_ATTACK =>
      let l := (currentLevel e + attackIncrement e)%float in
      if (1.0 <=? l)%float
      then set_state ADSREnvelope.ENV_DECAY (set_level 1.0%float e)
      else set_level l e
  | ADSREnvelope.ENV_DECAY =>
      let l := (currentLevel e - decayIncrement e)%float in
      if (l <=? sustainLevel e)%float
      then set_state ADSREnvelope.ENV_SUSTAIN (set_level (sustainLevel e) e)
      else set_level l e
  | ADSREnvelope.ENV_SUSTAIN => set_level (sustainLevel e) e
  | ADSREnvelope.ENV_RELEASE =>
      let l := (currentLevel e - releaseIncrement e)%float in
      if (l <=? 0.0)%float
      then set_state ADSREnvelope.ENV_IDLE (set_level 0.0%float e)
      else set_level l e
  end.

Definition setAttack (seconds : float) (e : t) : t :=
  updateIncrements
    (mk (max 0.001%float seconds) (decayTime e) (sustainLevel e)
        (releaseTime e) (state e) (currentLevel e) (sampleRate e)
        (attackIncrement e) (decayIncrement e)
        (releaseIncrement e) (releaseStartLevel e)).

Definition setDecay (seconds : float) (e : t) : t :=
  updateIncrements
    (mk (attackTime e) (max 0.001%float seconds) (sustainLevel e)
        (releaseTime e) (state e) (currentLevel e) (sampleRate e)
        (attackIncrement e) (decayIncrement e)
        (releaseIncrement e) (releaseStartLevel e)).

Definition setSustain (level : float) (e : t) : t :=
  updateIncrements
    (mk (attackTime e) (decayTime e)
        (max 0.0%float (min 1.0%float level))
        (releaseTime e) (state e) (currentLevel e) (sampleRate e)
        (attackIncrement e) (decayIncrement e)
        (releaseIncrement e) (releaseStartLevel e)).

Definition setRelease (seconds : float) (e : t) : t :=
  updateIncrements
    (mk (attackTime e) (decayTime e) (sustainLevel e)
        (max 0.001%float seconds) (state e) (currentLevel e) (sampleRate e)
        (attackIncrement e) (decayIncrement e)
        (releaseIncrement e) (releaseStartLevel e)).

(** [n] consecutive calls of [process()]. *)
Definition process_n (n : N) (e : t) : t := N.iter n advance e.

(** The envelope [main] gives every voice, with a key held into the
    sustain stage. *)
Definition sustained : t :=
  process_n 6000 (noteOn (make 44100.0%float 0%float)).

(** The key released at the sustain level. *)
Definition released : t := noteOff sustained.

(** [k] times over: [noteOff()], then [m] calls of [process()]. *)
Definition fade (k m : N) (e : t) : t :=
  N.iter k (fun x => process_n m (noteOff x)) e.

(** A release restarted 78 times one call before its end, and
    [noteOff()] once more: the level is then in the subnormal range. *)
Definition faint : t := noteOff (fade 78 13229 sustained).

(** The attack slider at 0.03 s, a key down. *)
Definition slow_attack : t :=
  noteOn (setAttack 0.03%float (make 44100.0%float 0%float)).

(** The decay slider at 0.25 s and the sustain slider at its [float]
    0.7f: the envelope at the call that ends its attack, in Decay at
    level 1. *)
Definition slow_decay : t :=
  process_n 441
    (noteOn (setSustain 0x1.666666p-1%float
               (setDecay 0.25%float (make 44100.0%float 0%float)))).

(** An envelope built for a sample rate so small that
    releaseTime * sampleRate underflows to 0, released at level 0. *)
Definition stalled : t :=
  noteOff (noteOn (make 0x1p-1074%float 0%float)).

End ADSREnvelope64.

(** ** Ordinary ranges

    The theorems on the number of calls a stage of the envelope takes
    keep the stage within a million samples (the sliders of the GUI
    allow 3 s, 132300 samples at 44.1 kHz), the sample rate at 1 or
    more and the level either 0 or outside the subnormal range, and
    they leave a margin of one call on each side of time x sampleRate.
    Within these the rounding of the binary64 arithmetic, at most half
    a unit in the last place of the level per call, adds up to less
    than one increment and cannot move the end of a stage across the
    stated bound; at the exact count it can ([ADSREnvelope64]). *)

Module Ranges.

Definition MAX_STAGE : R := 1000000.
Definition MIN_LEVEL : R := 1e-300.

Definition ordinary_level (l : R) : Prop := l = 0 \/ MIN_LEVEL <= l.

(** A sustain level of 1, or far enough below 1 for the decay
    increment to stay above the rounding of the level. *)
Definition ordinary_sustain (s : R) : Prop := s <= 0.999 \/ s = 1.

(** The envelope is past its attack and the key is still held. *)
Definition settling (e : ADSREnvelope.t) : Prop :=
  ADSREnvelope.state e = ADSREnvelope.ENV_DECAY \/
  ADSREnvelope.state e = ADSREnvelope.ENV_SUSTAIN.

End Ranges.

(** * Properties *)

(** ** Arithmetic on literals *)

Lemma zero_lit : 0.0 = 0.
Proof. lra. Qed.

Lemma one_lit : 1.0 = 1.
Proof. lra. Qed.

Lemma TWO_PI_pos : 0 < TWO_PI.
Proof. unfold TWO_PI; lra. Qed.

(** ** Proof steps shared by the voice lemmas *)

(** Enter [FMSynth.process] on a voice whose envelope is active. *)
Ltac open_process Ha :=
  unfold FMSynth.process; rewrite Ha; cbn [negb];
  unfold ADSREnvelope.process;
  cbn [FMSynth.algorithm FMSynth.set_envelope].

(** Run the oscillator calls of the selected case. *)
Ltac route :=
  unfold Oscillator.process;
  cbn [fst snd FMSynth.op1 FMSynth.op2 FMSynth.op3 FMSynth.op4
       FMSynth.amplitude FMSynth.set_prevSample1 FMSynth.set_ops
       FMSynth.set_envelope].

(** Split the selector until the [default] case is reached. *)
Ltac invalid_selector :=
  match goal with
  | |- context [match ?a with Z0 => _ | Zpos _ => _ | Zneg _ => _ end] =>
      let p := fresh "p" in
      destruct a as [|p|p]; try lia;
      [ do 3 (destruct p as [p|p|]; try lia) | ]
  end.

(** ** FM voice: silence paths *)

Section VoiceSilence.

Import FMSynth Terms.

(** C8: with an inactive envelope [process()] returns 0 and the voice,
    oscillator phases and [prevSample1] included, is exactly as before. *)
Theorem C8_inactive_envelope_noop :
  forall s : FMSynth.t,
    ADSREnvelope.isActive (envelope s) = false ->
    process s = (0, s).
Proof.
  intros s Hidle. unfold process. rewrite Hidle. simpl.
  rewrite zero_lit. reflexivity.
Qed.

Lemma C8_inactive_envelope_noop_witness :
  ADSREnvelope.isActive (envelope fresh_voice) = false /\
  process fresh_voice = (0, fresh_voice).
Proof.
  split; [reflexivity | apply C8_inactive_envelope_noop; reflexivity].
Defined.

(** C9: a selector outside the six routing algorithms makes [process()]
    return 0, and no operator is run: the four oscillators and the
    feedback sample are the ones the call found. *)
Theorem C9_invalid_algorithm_silence :
  forall s : FMSynth.t,
    ~ named_algorithm (algorithm s) ->
    fst (process s) = 0 /\
    op1 (snd (process s)) = op1 s /\
    op2 (snd (process s)) = op2 s /\
    op3 (snd (process s)) = op3 s /\
    op4 (snd (process s)) = op4 s /\
    prevSample1 (snd (process s)) = prevSample1 s.
Proof.
  intros s Hbad. unfold named_algorithm in Hbad.
  destruct (ADSREnvelope.isActive (envelope s)) eqn:Ha.
  - open_process Ha. invalid_selector;
      cbn [fst snd]; rewrite zero_lit; repeat split; reflexivity.
  - unfold process. rewrite Ha. cbn [negb fst snd].
    rewrite zero_lit. repeat split; reflexivity.
Qed.

Lemma C9_invalid_algorithm_silence_witness :
  ~ named_algorithm (algorithm misrouted_voice) /\
  fst (process misrouted_voice) = 0 /\
  op1 (snd (process misrouted_voice)) = op1 misrouted_voice /\
  op2 (snd (process misrouted_voice)) = op2 misrouted_voice /\
  op3 (snd (process misrouted_voice)) = op3 misrouted_voice /\
  op4 (snd (process misrouted_voice)) = op4 misrouted_voice /\
  prevSample1 (snd (process misrouted_voice)) = prevSample1 misrouted_voice.
Proof.
  assert (H : ~ named_algorithm (algorithm misrouted_voice)).
  { unfold named_algorithm. simpl. lia. }
  split; [exact H | exact (C9_invalid_algorithm_silence _ H)].
Defined.

(** What an active voice with an invalid selector does in one call. *)
Lemma process_invalid_selector :
  forall s : FMSynth.t,
    ADSREnvelope.isActive (envelope s) = true ->
    ~ named_algorithm (algorithm s) ->
    process s =
      (0, set_envelope (snd (ADSREnvelope.process (envelope s))) s).
Proof.
  intros s Ha Hbad. unfold named_algorithm in Hbad. open_process Ha.
  invalid_selector; rewrite zero_lit; reflexivity.
Qed.

End VoiceSilence.

(** ** Envelope: single steps *)

Section EnvelopeSteps.

Import ADSREnvelope.

Lemma advance_attack_below :
  forall e : ADSREnvelope.t,
    state e = ENV_ATTACK ->
    currentLevel e + attackIncrement e < 1 ->
    advance e = set_level (currentLevel e + attackIncrement e) e.
Proof.
  intros e Hst Hlt. unfold advance. rewrite Hst.
  destruct (Rge_dec _ _) as [Hge|_]; [lra | reflexivity].
Qed.

Lemma advance_attack_full :
  forall e : ADSREnvelope.t,
    state e = ENV_ATTACK ->
    1 <= currentLevel e + attackIncrement e ->
    advance e = set_state ENV_DECAY (set_level 1.0 e).
Proof.
  intros e Hst Hge. unfold advance. rewrite Hst.
  destruct (Rge_dec _ _) as [_|Hn]; [reflexivity | lra].
Qed.

End EnvelopeSteps.

(** ** FM voice: the envelope still runs under an invalid selector *)

Section VoiceInvalidSelector.

Import FMSynth Terms.

Lemma misrouted_voice_level_moves :
  ADSREnvelope.currentLevel
    (ADSREnvelope.advance (envelope misrouted_voice)) <>
  ADSREnvelope.currentLevel (envelope misrouted_voice).
Proof.
  rewrite advance_attack_below.
  - cbn. unfold SAMPLE_RATE. lra.
  - reflexivity.
  - cbn. unfold SAMPLE_RATE. lra.
Qed.

(** C10: an active voice with an invalid selector returns 0 and keeps its
    four oscillators and [prevSample1], but its envelope is the one
    [envelope.process()] leaves behind; there are voices for which that
    call is therefore not a no-op. *)
Theorem C10_invalid_algorithm_advances_envelope :
  (forall s : FMSynth.t,
      ADSREnvelope.isActive (envelope s) = true ->
      ~ named_algorithm (algorithm s) ->
      process s =
        (0, set_envelope (snd (ADSREnvelope.process (envelope s))) s)) /\
  (exists s : FMSynth.t,
      ADSREnvelope.isActive (envelope s) = true /\
      ~ named_algorithm (algorithm s) /\
      snd (process s) <> s).
Proof.
  split.
  - exact process_invalid_selector.
  - exists misrouted_voice.
    assert (Ha : ADSREnvelope.isActive (envelope misrouted_voice) = true)
      by reflexivity.
    assert (Hbad : ~ named_algorithm (algorithm misrouted_voice)).
    { unfold named_algorithm. simpl. lia. }
    repeat split; try assumption.
    rewrite (process_invalid_selector _ Ha Hbad). cbn [snd].
    intro Heq.
    apply (f_equal (fun s => ADSREnvelope.currentLevel (envelope s))) in Heq.
    exact (misrouted_voice_level_moves Heq).
Qed.

Lemma C10_invalid_algorithm_advances_envelope_witness :
  ADSREnvelope.isActive (envelope misrouted_voice) = true /\
  ~ named_algorithm (algorithm misrouted_voice) /\
  process misrouted_voice =
    (0, set_envelope
          (snd (ADSREnvelope.process (envelope misrouted_voice)))
          misrouted_voice).
Proof.
  assert (Ha : ADSREnvelope.isActive (envelope misrouted_voice) = true)
    by reflexivity.
  assert (Hbad : ~ named_algorithm (algorithm misrouted_voice)).
  { unfold named_algorithm. simpl. lia. }
  split; [exact Ha | split; [exact Hbad |]].
  exact (proj1 C10_invalid_algorithm_advances_envelope _ Ha Hbad).
Defined.

End VoiceInvalidSelector.

(** ** Bounds on the sine *)

Lemma sin_cubic_lower :
  forall x : R, 0 <= x <= 4 -> x - x * x * x / 6 <= sin x.
Proof.
  intros x Hx.
  destruct (pre_sin_bound x 0 (proj1 Hx) (proj2 Hx)) as [Hlo _].
  replace (x - x * x * x / 6) with (sin_approx x (2 * 0 + 1));
    [exact Hlo |].
  unfold sin_approx, sin_term. simpl. field.
Qed.

Lemma sin_linear_upper : forall x : R, 0 < x -> sin x < x.
Proof. exact sin_lt_x. Qed.

Lemma sin_quintic_upper :
  forall x : R, 0 <= x <= 4 -> sin x <= x - x ^ 3 / 6 + x ^ 5 / 120.
Proof.
  intros x Hx.
  destruct (pre_sin_bound x 0 (proj1 Hx) (proj2 Hx)) as [_ Hhi].
  replace (x - x ^ 3 / 6 + x ^ 5 / 120) with (sin_approx x (2 * (0 + 1)));
    [exact Hhi |].
  unfold sin_approx, sin_term. simpl. field.
Qed.

Lemma sin_septic_lower :
  forall x : R,
    0 <= x <= 4 -> x - x ^ 3 / 6 + x ^ 5 / 120 - x ^ 7 / 5040 <= sin x.
Proof.
  intros x Hx.
  destruct (pre_sin_bound x 1 (proj1 Hx) (proj2 Hx)) as [Hlo _].
  replace (x - x ^ 3 / 6 + x ^ 5 / 120 - x ^ 7 / 5040)
    with (sin_approx x (2 * 1 + 1)); [exact Hlo |].
  unfold sin_approx, sin_term. simpl. field.
Qed.

Lemma pow_between :
  forall (lo hi x : R) (n : nat),
    0 <= lo -> lo <= x <= hi -> lo ^ n <= x ^ n <= hi ^ n.
Proof.
  intros lo hi x n Hlo [H1 H2]. split; apply pow_incr; lra.
Qed.

(** ** Oscillator: single steps *)

Section OscillatorSteps.

Import Oscillator.

Lemma wrap_below : forall p : R, p < TWO_PI -> wrap p = p.
Proof.
  intros p Hp. unfold wrap.
  destruct (Rge_dec p TWO_PI) as [Hge|_]; [lra | reflexivity].
Qed.

Lemma wrap_above : forall p : R, TWO_PI <= p -> wrap p = p - TWO_PI.
Proof.
  intros p Hp. unfold wrap.
  destruct (Rge_dec p TWO_PI) as [_|Hn]; [reflexivity | lra].
Qed.

Lemma process_output :
  forall (o : Oscillator.t) (m : R),
    fst (process o m) = sin (phase o + m).
Proof. reflexivity. Qed.

Lemma process_state :
  forall (o : Oscillator.t) (m : R), snd (process o m) = Terms.tick o.
Proof. reflexivity. Qed.

Lemma tick_phase :
  forall o : Oscillator.t,
    phase (Terms.tick o) = wrap (phase o + phaseIncrement o).
Proof. reflexivity. Qed.

Lemma tick_phaseIncrement :
  forall o : Oscillator.t,
    phaseIncrement (Terms.tick o) = phaseIncrement o.
Proof. reflexivity. Qed.

End OscillatorSteps.

(** ** FM voice: the routing table *)

Section Routing.

Import FMSynth Terms.

Variable s : FMSynth.t.
Hypothesis Hactive : ADSREnvelope.isActive (envelope s) = true.

Lemma route_stack :
  algorithm s = ALG_STACK ->
  let out4 := sin (ph4 s + 0.0) in
  let out3 := sin (ph3 s + index4 s * out4) in
  let out2 := sin (ph2 s + index3 s * out3) in
  let out1 := sin (ph1 s + (index2 s * out2 + index1 s * prevSample1 s)) in
  process s = (out1 * amplitude s * envLevel s, stepped out1 s).
Proof.
  intros Hg. open_process Hactive. rewrite Hg. route. reflexivity.
Qed.

Lemma route_twin :
  algorithm s = ALG_TWIN ->
  let out4 := sin (ph4 s + 0.0) in
  let out3 := sin (ph3 s + index4 s * out4) in
  let out2 := sin (ph2 s + 0.0) in
  let out1 :=
    sin (ph1 s + (index3 s * out3 + index2 s * out2
                  + index1 s * prevSample1 s)) in
  process s = (out1 * amplitude s * envLevel s, stepped out1 s).
Proof.
  intros Hg. open_process Hactive. rewrite Hg. route. reflexivity.
Qed.

Lemma route_branch :
  algorithm s = ALG_BRANCH ->
  let out4 := sin (ph4 s + 0.0) in
  let out3 := sin (ph3 s + index4 s * out4) in
  let out2 := sin (ph2 s + index4 s * out4) in
  let out1 :=
    sin (ph1 s + (index3 s * out3 + index2 s * out2
                  + index1 s * prevSample1 s)) in
  process s = (out1 * amplitude s * envLevel s, stepped out1 s).
Proof.
  intros Hg. open_process Hactive. rewrite Hg. route. reflexivity.
Qed.

Lemma route_parallel :
  algorithm s = ALG_PARALLEL ->
  let out2 := sin (ph2 s + 0.0) in
  let out3 := sin (ph3 s + 0.0) in
  let out4 := sin (ph4 s + 0.0) in
  let out1 :=
    sin (ph1 s + (index2 s * out2 + index3 s * out3 + index4 s * out4
                  + index1 s * prevSample1 s)) in
  process s = (out1 * amplitude s * envLevel s, stepped out1 s).
Proof.
  intros Hg. open_process Hactive. rewrite Hg. route. reflexivity.
Qed.

Lemma route_dual :
  algorithm s = ALG_DUAL_CARRIER ->
  let out4 := sin (ph4 s + 0.0) in
  let out3 := sin (ph3 s + index4 s * out4) in
  let out2 := sin (ph2 s + 0.0) in
  let out1 := sin (ph1 s + (index2 s * out2 + index1 s * prevSample1 s)) in
  process s =
    ((out1 + out3 * 0.7) * amplitude s * envLevel s * 0.7, stepped out1 s).
Proof.
  intros Hg. open_process Hactive. rewrite Hg. route. reflexivity.
Qed.

Lemma route_triple :
  algorithm s = ALG_TRIPLE ->
  let out4 := sin (ph4 s + 0.0) in
  let out1 := sin (ph1 s + (index4 s * out4 + index1 s * prevSample1 s)) in
  let out2 := sin (ph2 s + index4 s * out4) in
  let out3 := sin (ph3 s + index4 s * out4) in
  process s =
    ((out1 + out2 * 0.6 + out3 * 0.4) * amplitude s * envLevel s * 0.5,
     stepped out1 s).
Proof.
  intros Hg. open_process Hactive. rewrite Hg. route. reflexivity.
Qed.

End Routing.

(** ** FM voice: all modulation indices at 0 *)

(** Remove a phase-modulation input that is provably 0. *)
Ltac unmodulated :=
  repeat match goal with
  | |- context [sin (?a + ?x)] =>
      progress (replace (a + x) with a by lra)
  end.

Lemma TWO_PI_bounds : 6.2831 < TWO_PI < 6.2832.
Proof. unfold TWO_PI. lra. Qed.

Section ZeroIndices.

Import FMSynth Terms.

Lemma process_n_1 : forall s : FMSynth.t, process_n 1 s = snd (process s).
Proof. reflexivity. Qed.

(** The probe voice, field by field: two attack steps of 1/441 each and
    one phase increment per operator. *)
Lemma dual_probe_fields :
  ADSREnvelope.isActive (envelope dual_probe) = true /\
  algorithm dual_probe = ALG_DUAL_CARRIER /\
  index1 dual_probe = 0 /\ index2 dual_probe = 0 /\
  index3 dual_probe = 0 /\ index4 dual_probe = 0 /\
  amplitude dual_probe = 0.3 /\
  ADSREnvelope.currentLevel (envelope dual_probe) = 1 / 441 /\
  envLevel dual_probe = 2 / 441 /\
  ph1 dual_probe = TWO_PI * 440 / 44100 /\
  ph3 dual_probe = 3 * (TWO_PI * 440 / 44100).
Proof.
  unfold dual_probe. rewrite process_n_1.
  match goal with |- context [snd (process ?x)] => set (s0 := x) end.
  assert (Ha0 : ADSREnvelope.isActive (envelope s0) = true) by reflexivity.
  assert (Hg0 : algorithm s0 = ALG_DUAL_CARRIER) by reflexivity.
  rewrite (route_dual s0 Ha0 Hg0). cbn [snd].
  match goal with |- context [stepped ?x s0] => generalize x; intro out1 end.
  assert (He : envelope (stepped out1 s0) =
               ADSREnvelope.set_level (1 / 441) (envelope s0)).
  { change (envelope (stepped out1 s0))
      with (ADSREnvelope.advance (envelope s0)).
    rewrite advance_attack_below.
    - f_equal. cbn. unfold SAMPLE_RATE. lra.
    - reflexivity.
    - cbn. unfold SAMPLE_RATE. lra. }
  repeat split.
  - rewrite He. reflexivity.
  - cbn. lra.
  - cbn. lra.
  - cbn. lra.
  - cbn. lra.
  - rewrite He. reflexivity.
  - unfold envLevel. rewrite He. unfold ADSREnvelope.process. cbn [fst].
    rewrite advance_attack_below.
    + cbn. unfold SAMPLE_RATE. lra.
    + reflexivity.
    + cbn. unfold SAMPLE_RATE. lra.
  - unfold ph1. change (op1 (stepped out1 s0)) with (tick (op1 s0)).
    rewrite tick_phase. rewrite wrap_below.
    + cbn. unfold SAMPLE_RATE. lra.
    + cbn. unfold SAMPLE_RATE. pose proof TWO_PI_bounds. lra.
  - unfold ph3. change (op3 (stepped out1 s0)) with (tick (op3 s0)).
    rewrite tick_phase. rewrite wrap_below.
    + cbn. unfold SAMPLE_RATE. lra.
    + cbn. unfold SAMPLE_RATE. pose proof TWO_PI_bounds. lra.
Qed.

(** C1, as the code has it: with every index at 0 and an active envelope,
    the four single-carrier routings (Stack, Twin, Branch, Parallel)
    return amplitude x envLevel x sin(phase of operator 1); Dual returns
    0.7 x amplitude x envLevel x (sin(phase1) + 0.7 sin(phase3)) and Triple
    0.5 x amplitude x envLevel x (sin(phase1) + 0.6 sin(phase2)
    + 0.4 sin(phase3)): their extra carriers stay audible. *)
Theorem C1_zero_index_outputs :
  forall s : FMSynth.t,
    ADSREnvelope.isActive (envelope s) = true ->
    index1 s = 0 -> index2 s = 0 -> index3 s = 0 -> index4 s = 0 ->
    ((algorithm s = ALG_STACK \/ algorithm s = ALG_TWIN \/
      algorithm s = ALG_BRANCH \/ algorithm s = ALG_PARALLEL) ->
     fst (process s) = amplitude s * envLevel s * sin (ph1 s)) /\
    (algorithm s = ALG_DUAL_CARRIER ->
     fst (process s) =
       0.7 * (amplitude s * envLevel s *
              (sin (ph1 s) + 0.7 * sin (ph3 s)))) /\
    (algorithm s = ALG_TRIPLE ->
     fst (process s) =
       0.5 * (amplitude s * envLevel s *
              (sin (ph1 s) + 0.6 * sin (ph2 s) + 0.4 * sin (ph3 s)))).
Proof.
  intros s Ha H1 H2 H3 H4. repeat split.
  - intros [Hg|[Hg|[Hg|Hg]]];
      [ rewrite (route_stack s Ha Hg) | rewrite (route_twin s Ha Hg)
      | rewrite (route_branch s Ha Hg) | rewrite (route_parallel s Ha Hg) ];
      cbn [fst]; rewrite H1, H2, H3, H4; unmodulated; lra.
  - intros Hg. rewrite (route_dual s Ha Hg). cbn [fst].
    rewrite H1, H2, H4. unmodulated. lra.
  - intros Hg. rewrite (route_triple s Ha Hg). cbn [fst].
    rewrite H1, H4. unmodulated. lra.
Qed.

Lemma C1_zero_index_outputs_witness :
  ADSREnvelope.isActive (envelope dual_probe) = true /\
  index1 dual_probe = 0 /\ index2 dual_probe = 0 /\
  index3 dual_probe = 0 /\ index4 dual_probe = 0 /\
  algorithm dual_probe = ALG_DUAL_CARRIER /\
  fst (process dual_probe) =
    0.7 * (amplitude dual_probe * envLevel dual_probe *
           (sin (ph1 dual_probe) + 0.7 * sin (ph3 dual_probe))).
Proof.
  destruct dual_probe_fields as (Ha & Hg & H1 & H2 & H3 & H4 & _).
  repeat (split; [assumption |]).
  exact (proj1 (proj2 (C1_zero_index_outputs _ Ha H1 H2 H3 H4)) Hg).
Defined.

(** C1 as stated fails for the Dual routing: on the probe voice every
    index is 0 and the envelope is active, yet the sample is not
    amplitude x envLevel x sin(carrier phase), whether the level is read
    after or before the envelope step of the call. *)
Lemma C1_counterexample_dual :
  named_algorithm (algorithm dual_probe) /\
  index1 dual_probe = 0 /\ index2 dual_probe = 0 /\
  index3 dual_probe = 0 /\ index4 dual_probe = 0 /\
  ADSREnvelope.isActive (envelope dual_probe) = true /\
  fst (process dual_probe) <>
    amplitude dual_probe * envLevel dual_probe * sin (ph1 dual_probe) /\
  fst (process dual_probe) <>
    amplitude dual_probe *
    ADSREnvelope.currentLevel (envelope dual_probe) *
    sin (ph1 dual_probe).
Proof.
  destruct dual_probe_fields
    as (Ha & Hg & H1 & H2 & H3 & H4 & Hamp & Hlvl & Henv & Hp1 & Hp3).
  split; [unfold named_algorithm; rewrite Hg; lia |].
  repeat (split; [assumption |]).
  rewrite (route_dual _ Ha Hg). cbn [fst].
  rewrite H1, H2, H4, Hamp, Hlvl, Henv, Hp1, Hp3. unmodulated.
  set (a := TWO_PI * 440 / 44100).
  assert (Ha_bounds : 0.0626 < a < 0.0627).
  { unfold a. pose proof TWO_PI_bounds. lra. }
  assert (Hs1 : sin a < a) by (apply sin_linear_upper; lra).
  assert (Hs1' : a - a * a * a / 6 <= sin a)
    by (apply sin_cubic_lower; lra).
  assert (Hs3 : 3 * a - (3 * a) * (3 * a) * (3 * a) / 6 <= sin (3 * a))
    by (apply sin_cubic_lower; lra).
  assert (Hcube : a * a * a < 0.001) by nra.
  split; lra.
Qed.

End ZeroIndices.

(** ** Envelope: the level stays in the unit interval *)

Section EnvelopeInvariant.

Import ADSREnvelope Terms Ranges.

Lemma div_nonneg : forall a b : R, 0 <= a -> 0 < b -> 0 <= a / b.
Proof.
  intros a b Ha Hb. unfold Rdiv. apply Rmult_le_pos; [exact Ha |].
  left. apply Rinv_0_lt_compat. exact Hb.
Qed.

Lemma clamp_time_pos : forall x : R, 0 < Rmax 0.001 x.
Proof.
  intros x. apply Rlt_le_trans with 0.001; [lra | apply Rmax_l].
Qed.

Lemma clamp_level_unit : forall x : R, 0 <= Rmax 0.0 (Rmin 1.0 x) <= 1.
Proof.
  intros x. split.
  - apply Rle_trans with 0.0; [lra | apply Rmax_l].
  - apply Rmax_lub; [lra |]. apply Rle_trans with 1.0; [apply Rmin_l | lra].
Qed.

Lemma well_formed_make :
  forall sr uninit : R, 0 < sr -> well_formed (make sr uninit).
Proof.
  intros sr u Hsr. constructor; cbn; try lra.
  - apply div_nonneg; [lra|]. apply Rmult_lt_0_compat; lra.
  - apply div_nonneg; [lra|]. apply Rmult_lt_0_compat; lra.
  - discriminate.
Qed.

Lemma well_formed_updateIncrements e :
  0 < sampleRate e -> 0 < attackTime e -> 0 < decayTime e ->
  0 < releaseTime e ->
  0 <= sustainLevel e <= 1 -> 0 <= currentLevel e <= 1 ->
  (state e = ENV_RELEASE -> 0 <= releaseIncrement e) ->
  well_formed (updateIncrements e).
Proof.
  intros. constructor; cbn; try assumption.
  - apply div_nonneg; [lra|]. apply Rmult_lt_0_compat; lra.
  - apply div_nonneg; [lra|]. apply Rmult_lt_0_compat; lra.
Qed.

Ltac wf_fields :=
  constructor; cbn; try assumption; try lra; try discriminate.

Lemma well_formed_exec c e : well_formed e -> well_formed (exec c e).
Proof.
  intros H. pose proof H as [Hsr Hat Hdt Hrt Hsus Hlvl Hai Hdi _].
  destruct c; cbn [exec].
  - wf_fields.
  - unfold noteOff.
    destruct (state e) eqn:Hst; [exact H | | | |];
      (wf_fields; intros _; destruct (Rgt_dec _ _);
       [apply div_nonneg; [lra | apply Rmult_lt_0_compat; lra] | lra]).
  - unfold process. cbn [snd]. unfold advance.
    destruct (state e) eqn:Hst;
      pose proof (wf_releaseIncrement e H) as Hri.
    + wf_fields.
    + destruct (Rge_dec _ _); wf_fields.
    + destruct (Rle_dec _ _); wf_fields.
    + wf_fields.
    + specialize (Hri Hst). destruct (Rle_dec _ _); wf_fields.
  - apply well_formed_updateIncrements; cbn; try assumption;
      [apply clamp_time_pos | exact (wf_releaseIncrement e H)].
  - apply well_formed_updateIncrements; cbn; try assumption;
      [apply clamp_time_pos | exact (wf_releaseIncrement e H)].
  - apply well_formed_updateIncrements; cbn; try assumption;
      [apply clamp_level_unit | exact (wf_releaseIncrement e H)].
  - apply well_formed_updateIncrements; cbn; try assumption;
      [apply clamp_time_pos | exact (wf_releaseIncrement e H)].
Qed.

Lemma well_formed_run cs : forall e, well_formed e -> well_formed (run cs e).
Proof.
  induction cs as [|c cs IH]; intros e He; cbn [run]; [exact He |].
  apply IH, well_formed_exec, He.
Qed.

Lemma env_process_n_S n e : process_n (S n) e = process_n n (advance e).
Proof. reflexivity. Qed.

Lemma env_process_n_snoc n :
  forall e, process_n (S n) e = advance (process_n n e).
Proof.
  induction n as [|n IH]; intros e; [reflexivity |].
  rewrite env_process_n_S, IH. reflexivity.
Qed.

Lemma idle_stays n : forall e, state e = ENV_IDLE -> currentLevel e = 0 ->
  state (process_n n e) = ENV_IDLE /\ currentLevel (process_n n e) = 0.
Proof.
  induction n as [|n IH]; intros e Hst Hl; [split; assumption |].
  rewrite env_process_n_S.
  apply IH; unfold advance; rewrite Hst; cbn; [exact Hst | lra].
Qed.

Lemma release_ramp e : state e = ENV_RELEASE -> 0 <= currentLevel e ->
  forall n,
   (state (process_n n e) = ENV_IDLE /\ currentLevel (process_n n e) = 0) \/
   (state (process_n n e) = ENV_RELEASE /\
    releaseIncrement (process_n n e) = releaseIncrement e /\
    currentLevel (process_n n e) =
      currentLevel e - INR n * releaseIncrement e /\
    (n <> O -> 0 < currentLevel (process_n n e))).
Proof.
  intros Hst Hl n. induction n as [|n IH].
  - right. cbn [process_n]. repeat split; try assumption; try reflexivity.
    + cbn [INR]. lra.
    + intros Hn; contradiction.
  - rewrite env_process_n_snoc.
    destruct IH as [[Hs Hz]|(Hs & Hinc & Hlev & Hpos)].
    + left. unfold advance. rewrite Hs. cbn. split; [exact Hs | lra].
    + unfold advance. rewrite Hs.
      destruct (Rle_dec _ _) as [Hle|Hgt].
      * left. cbn. split; [reflexivity | lra].
      * right. cbn [state set_level releaseIncrement currentLevel].
        repeat split; try assumption.
        -- rewrite Hlev, Hinc, S_INR. lra.
        -- intros _. lra.
Qed.

Lemma release_completes e : state e = ENV_RELEASE -> 0 <= currentLevel e ->
  forall d, 0 < d -> releaseIncrement e = currentLevel e / d ->
  forall n, d <= INR n ->
    state (process_n n e) = ENV_IDLE /\ currentLevel (process_n n e) = 0.
Proof.
  intros Hst Hl d Hd Hinc n Hn.
  destruct (release_ramp e Hst Hl n) as [Hdone|(Hs & _ & Hlev & Hpos)];
    [exact Hdone | exfalso].
  assert (Hn0 : n <> O).
  { intros ->. cbn [INR] in Hn. lra. }
  specialize (Hpos Hn0). rewrite Hlev, Hinc in Hpos.
  assert (Hq : currentLevel e <= INR n * (currentLevel e / d)).
  { unfold Rdiv. rewrite <- Rmult_assoc, (Rmult_comm (INR n)), Rmult_assoc.
    rewrite <- (Rmult_1_r (currentLevel e)) at 1.
    apply Rmult_le_compat_l; [exact Hl |].
    apply Rmult_le_reg_r with d; [exact Hd |].
    rewrite Rmult_assoc, Rinv_l; lra. }
  lra.
Qed.

Lemma held_envelope_fields :
  state held_envelope = ENV_ATTACK /\
  currentLevel held_envelope = 1 / 441 /\
  attackIncrement held_envelope = 1 / 441 /\
  releaseTime held_envelope = 0.001 /\
  sampleRate held_envelope = SAMPLE_RATE.
Proof.
  unfold held_envelope, held_calls. cbn [run exec].
  unfold process, setRelease. cbn [snd].
  replace (Rmax 0.001 0.0) with 0.001 by (rewrite Rmax_left; lra).
  rewrite advance_attack_below.
  - repeat split; cbn; unfold SAMPLE_RATE; lra.
  - reflexivity.
  - cbn. unfold SAMPLE_RATE. lra.
Qed.

Lemma SAMPLE_RATE_pos : 0 < SAMPLE_RATE.
Proof. unfold SAMPLE_RATE. lra. Qed.

(** C5: whatever calls are made on an envelope built with a positive
    sample rate ([noteOn], [noteOff], [process], the four setters with any
    real argument), [currentLevel] is within [0, 1] after each of them;
    and [noteOn] on a sounding envelope only switches the state to Attack:
    the level is kept, and the next sample continues from it. *)
Theorem C5_level_within_unit_interval :
  (forall (sr uninit : R) (cs : list call),
      0 < sr ->
      0 <= currentLevel (run cs (make sr uninit)) <= 1) /\
  (forall e : ADSREnvelope.t,
      state e <> ENV_IDLE ->
      state (noteOn e) = ENV_ATTACK /\
      currentLevel (noteOn e) = currentLevel e /\
      fst (process (noteOn e)) =
        Rmin 1 (currentLevel e + attackIncrement e)).
Proof.
  split.
  - intros sr uninit cs Hsr.
    apply wf_currentLevel, well_formed_run, well_formed_make, Hsr.
  - intros e _. repeat split.
    unfold process, advance. cbn [fst noteOn set_state state currentLevel
                                   attackIncrement].
    destruct (Rge_dec _ _) as [Hge|Hlt]; cbn [currentLevel set_state set_level].
    + rewrite Rmin_left; lra.
    + rewrite Rmin_right; lra.
Qed.

Lemma C5_level_within_unit_interval_witness :
  0 < SAMPLE_RATE /\
  0 <= currentLevel
         (run [NoteOn; Process; SetSustain 2; NoteOff; Process; NoteOn]
              (make SAMPLE_RATE 0)) <= 1 /\
  state held_envelope <> ENV_IDLE /\
  currentLevel (noteOn held_envelope) = currentLevel held_envelope.
Proof.
  split; [exact SAMPLE_RATE_pos |].
  split; [exact (proj1 C5_level_within_unit_interval _ 0 _ SAMPLE_RATE_pos) |].
  assert (Hst : state held_envelope <> ENV_IDLE).
  { rewrite (proj1 held_envelope_fields). discriminate. }
  split; [exact Hst |].
  exact (proj1 (proj2 (proj2 C5_level_within_unit_interval _ Hst))).
Defined.

Lemma release_in_progress :
  forall (e : ADSREnvelope.t) (d : R),
    state e = ENV_RELEASE -> 0 < currentLevel e -> 0 < d ->
    releaseIncrement e = currentLevel e / d ->
    forall n : nat,
      INR n < d ->
      state (process_n n e) = ENV_RELEASE /\
      releaseIncrement (process_n n e) = releaseIncrement e /\
      currentLevel (process_n n e) =
        currentLevel e - INR n * (currentLevel e / d).
Proof.
  intros e d Hst Hl Hd Hinc n. induction n as [|n IH]; intros Hn.
  - cbn [process_n INR]. repeat split; [exact Hst | lra].
  - rewrite S_INR in Hn.
    destruct IH as (Hs & Hri & Hlev); [lra |].
    rewrite env_process_n_snoc. unfold advance. rewrite Hs, Hri, Hlev, Hinc.
    assert (Hq : (INR n + 1) * (currentLevel e / d) < currentLevel e).
    { unfold Rdiv. rewrite (Rmult_comm (currentLevel e)), <- Rmult_assoc.
      rewrite <- (Rmult_1_l (currentLevel e)) at 2.
      apply Rmult_lt_compat_r; [exact Hl |].
      apply Rmult_lt_reg_r with d; [exact Hd |].
      rewrite Rmult_assoc, Rinv_l; lra. }
    destruct (Rle_dec _ _) as [Hle|_]; [lra |].
    cbn [state set_level releaseIncrement currentLevel].
    repeat split; [exact Hs | rewrite Hri; exact Hinc | rewrite S_INR; lra].
Qed.

(** C3: on an envelope that is not Idle, [noteOff] sets the release
    increment to the current level L divided by releaseTime x sampleRate
    and enters Release.  For a sample rate of at least 1, a release of
    at most a million samples and a level L that is 0 or at least
    1e-300, the envelope is Idle with level 0 once
    releaseTime x sampleRate + 1 samples have been processed, whatever L
    was, and a positive L is still on its linear way down as long as
    no more than releaseTime x sampleRate - 1 samples have been. *)
Theorem C3_release_scaled_to_current_level :
  forall (sr uninit : R) (cs : list call),
    1 <= sr ->
    let e := run cs (make sr uninit) in
    let d := releaseTime e * sampleRate e in
    state e <> ENV_IDLE ->
    releaseIncrement (noteOff e) = currentLevel e / d /\
    state (noteOff e) = ENV_RELEASE /\
    (d <= MAX_STAGE -> ordinary_level (currentLevel e) ->
     (forall n : nat,
         d + 1 <= INR n ->
         state (process_n n (noteOff e)) = ENV_IDLE /\
         currentLevel (process_n n (noteOff e)) = 0) /\
     (forall n : nat,
         0 < currentLevel e ->
         INR n + 1 <= d ->
         state (process_n n (noteOff e)) = ENV_RELEASE /\
         currentLevel (process_n n (noteOff e)) =
           currentLevel e - INR n * (currentLevel e / d))).
Proof.
  intros sr uninit cs Hsr e d Hst.
  assert (Hwf : well_formed e)
    by (apply well_formed_run, well_formed_make; lra).
  destruct Hwf as [Hs _ _ Hrt _ Hlvl _ _ _].
  assert (Hd : 0 < d)
    by (apply Rmult_lt_0_compat; assumption).
  assert (Hoff : noteOff e =
                 mk (attackTime e) (decayTime e) (sustainLevel e)
                    (releaseTime e) ENV_RELEASE (currentLevel e)
                    (sampleRate e) (attackIncrement e) (decayIncrement e)
                    (currentLevel e / d) (currentLevel e)).
  { unfold noteOff. destruct (state e); [contradiction | | | |];
      (destruct (Rgt_dec _ _) as [_|Hn]; [reflexivity | lra]). }
  rewrite Hoff. cbn [releaseIncrement state].
  split; [reflexivity |]. split; [reflexivity |].
  intros _ _. split.
  - intros n Hn.
    apply release_completes with (d := d);
      [reflexivity | exact (proj1 Hlvl) | exact Hd | reflexivity | lra].
  - intros n Hpos Hn.
    match goal with
    | |- context [process_n n ?x] =>
        destruct (release_in_progress x d)
          with (n := n) as (Hs' & _ & Hl');
          [reflexivity | exact Hpos | exact Hd | reflexivity | lra |]
    end.
    split; [exact Hs' | exact Hl'].
Qed.

Lemma C3_release_scaled_to_current_level_witness :
  1 <= SAMPLE_RATE /\
  state held_envelope <> ENV_IDLE /\
  releaseTime held_envelope * sampleRate held_envelope <= MAX_STAGE /\
  ordinary_level (currentLevel held_envelope) /\
  releaseTime held_envelope * sampleRate held_envelope + 1 <= INR 46 /\
  releaseIncrement (noteOff held_envelope) =
    currentLevel held_envelope /
    (releaseTime held_envelope * sampleRate held_envelope) /\
  state (process_n 46 (noteOff held_envelope)) = ENV_IDLE /\
  currentLevel (process_n 46 (noteOff held_envelope)) = 0.
Proof.
  destruct held_envelope_fields as (Hst & Hlv & _ & Hrt & Hsr).
  assert (Hrate : 1 <= SAMPLE_RATE) by (unfold SAMPLE_RATE; lra).
  assert (Hact : state held_envelope <> ENV_IDLE)
    by (rewrite Hst; discriminate).
  assert (Hmax : releaseTime held_envelope * sampleRate held_envelope
                 <= MAX_STAGE).
  { rewrite Hrt, Hsr. unfold SAMPLE_RATE, MAX_STAGE. lra. }
  assert (Hord : ordinary_level (currentLevel held_envelope)).
  { right. rewrite Hlv. unfold MIN_LEVEL. lra. }
  assert (Hn : releaseTime held_envelope * sampleRate held_envelope + 1
               <= INR 46).
  { rewrite Hrt, Hsr, INR_IZR_INZ. unfold SAMPLE_RATE. simpl. lra. }
  destruct (C3_release_scaled_to_current_level
              SAMPLE_RATE 0 held_calls Hrate Hact)
    as (Hinc & _ & Hcourse).
  destruct (Hcourse Hmax Hord) as (Hdone & _).
  split; [exact Hrate |].
  split; [exact Hact |].
  split; [exact Hmax |].
  split; [exact Hord |].
  split; [exact Hn |].
  split; [exact Hinc |].
  exact (Hdone 46%nat Hn).
Defined.

End EnvelopeInvariant.

(** ** Envelope: the end of a stage on binary64 *)

Section EnvelopeOnBinary64.

Import Floats ADSREnvelope ADSREnvelope64.

(** C3 as stated fails on binary64 doubles: with the envelope [main]
    builds and the key released in the sustain stage,
    releaseTime x sampleRate is 13230, and after 13230 calls of
    [process()] the envelope is still in Release at a positive level;
    the call after that ends the release. *)
Lemma C3_counterexample_default_release :
  ADSREnvelope64.state sustained = ENV_SUSTAIN /\
  (ADSREnvelope64.releaseTime released *
   ADSREnvelope64.sampleRate released)%float = 13230%float /\
  ADSREnvelope64.state (ADSREnvelope64.process_n 13230 released)
    = ENV_RELEASE /\
  (0 <? ADSREnvelope64.currentLevel
          (ADSREnvelope64.process_n 13230 released))%float = true /\
  ADSREnvelope64.state (ADSREnvelope64.process_n 13231 released)
    = ENV_IDLE.
Proof. vm_compute. repeat split. Qed.

(** Why the level is kept out of the subnormal range: at a level near
    1.5e-320 the quotient of [noteOff] underflows to 0, [process()]
    subtracts nothing, and a million calls leave the envelope as it
    is, in Release. *)
Lemma subnormal_release_does_not_end :
  ADSREnvelope64.state faint = ENV_RELEASE /\
  (0 <? ADSREnvelope64.currentLevel faint)%float = true /\
  ADSREnvelope64.releaseIncrement faint = 0%float /\
  ADSREnvelope64.process_n 1000000 faint = faint.
Proof. vm_compute. repeat split. Qed.

(** Why the sample rate is kept at 1 or more: at the smallest positive
    binary64 rate releaseTime x sampleRate underflows to 0, a release
    from level 0 computes 0/0, and the level is not a number in a
    Release that no call ends. *)
Lemma underflowing_release_does_not_end :
  (ADSREnvelope64.releaseTime stalled *
   ADSREnvelope64.sampleRate stalled)%float = 0%float /\
  ADSREnvelope64.currentLevel stalled = 0%float /\
  ADSREnvelope64.state (ADSREnvelope64.process_n 1000000 stalled)
    = ENV_RELEASE.
Proof. vm_compute. repeat split. Qed.

(** The attack and the decay end one call late in the same way: with
    the attack at 0.03 s, attackTime x sampleRate is 1323 and call 1323
    leaves the envelope in Attack; with the decay at 0.25 s and the
    sustain level 0.7f, decayTime x sampleRate is 11025 and call 11025
    of the decay leaves it in Decay. *)
Lemma stages_end_one_call_late :
  (ADSREnvelope64.attackTime slow_attack *
   ADSREnvelope64.sampleRate slow_attack)%float = 1323%float /\
  ADSREnvelope64.state (ADSREnvelope64.process_n 1323 slow_attack)
    = ENV_ATTACK /\
  ADSREnvelope64.state (ADSREnvelope64.process_n 1324 slow_attack)
    = ENV_DECAY /\
  ADSREnvelope64.state slow_decay = ENV_DECAY /\
  ADSREnvelope64.currentLevel slow_decay = 1%float /\
  (ADSREnvelope64.decayTime slow_decay *
   ADSREnvelope64.sampleRate slow_decay)%float = 11025%float /\
  ADSREnvelope64.state (ADSREnvelope64.process_n 11025 slow_decay)
    = ENV_DECAY /\
  ADSREnvelope64.state (ADSREnvelope64.process_n 11026 slow_decay)
    = ENV_SUSTAIN.
Proof. vm_compute. repeat split. Qed.

End EnvelopeOnBinary64.

(** ** Oscillator: range of the phase *)

(** Twenty digits of pi, from the arctangent series of Machin's formula
    pi/4 = 2 atan(1/3) + atan(1/7). *)
Lemma PI_lower_bound : 3.14159265358979323846 < PI.
Proof.
  pose proof (PI_2_3_7_ineq 10) as [Hlo _].
  apply Rlt_le_trans
    with (4 * sum_f_R0 (tg_alt PI_2_3_7_tg) (S (2 * 10))); [| lra].
  clear Hlo. unfold tg_alt, PI_2_3_7_tg, Ratan_seq.
  cbn [sum_f_R0 Nat.mul Nat.add]. simpl INR. lra.
Qed.

(** The program's constant is below the real 2 pi. *)
Lemma TWO_PI_below_2PI : TWO_PI < 2 * PI.
Proof. pose proof PI_lower_bound. unfold TWO_PI. lra. Qed.

Section OscillatorRange.

Import Oscillator Terms.

Lemma make_phaseIncrement :
  forall f sr : R, phaseIncrement (make f sr) = TWO_PI * f / sr.
Proof. reflexivity. Qed.

Lemma increment_within_turn :
  forall f sr : R, 0 < f -> f <= sr -> 0 <= TWO_PI * f / sr <= TWO_PI.
Proof.
  intros f sr Hf Hle. pose proof TWO_PI_pos as Htp.
  assert (Hsr : 0 < sr) by lra.
  assert (Hq : 0 <= f / sr <= 1).
  { split.
    - apply div_nonneg; lra.
    - apply Rmult_le_reg_r with sr; [exact Hsr |].
      unfold Rdiv. rewrite Rmult_assoc, Rinv_l; lra. }
  replace (TWO_PI * f / sr) with (TWO_PI * (f / sr))
    by (unfold Rdiv; ring).
  split; [apply Rmult_le_pos; lra |].
  rewrite <- (Rmult_1_r TWO_PI) at 2.
  apply Rmult_le_compat_l; lra.
Qed.

Lemma in_turn_make :
  forall f sr : R, 0 < f -> f <= sr -> in_turn (make f sr).
Proof.
  intros f sr Hf Hle. split.
  - cbn. pose proof TWO_PI_pos. lra.
  - rewrite make_phaseIncrement. apply increment_within_turn; assumption.
Qed.

Lemma in_turn_process :
  forall (o : Oscillator.t) (m : R),
    in_turn o -> in_turn (snd (process o m)).
Proof.
  intros o m [[Hp0 Hp1] [Hi0 Hi1]]. split.
  - cbn [process snd set_phase phase]. unfold wrap.
    destruct (Rge_dec _ _) as [Hge|Hlt]; lra.
  - cbn [process snd set_phase phaseIncrement]. lra.
Qed.

Lemma in_turn_run :
  forall (ms : list R) (o : Oscillator.t), in_turn o -> in_turn (run ms o).
Proof.
  induction ms as [|m ms IH]; intros o Ho; cbn [run]; [exact Ho |].
  apply IH, in_turn_process, Ho.
Qed.

(** While the frequency does not exceed the sample rate, 0 < f <= sr,
    the phase is within [0, 2 pi) (indeed below the program's TWO_PI)
    after every [process] call, and the sample returned is
    sin(phase before + modulation). *)
Lemma phase_within_turn :
  forall f sr : R,
    0 < f -> f <= sr ->
    forall (ms : list R) (m : R),
      let o := run ms (make f sr) in
      (0 <= phase (snd (process o m)) < TWO_PI /\
       0 <= phase (snd (process o m)) < 2 * PI) /\
      fst (process o m) = sin (phase o + m).
Proof.
  intros f sr Hf Hle ms m o.
  assert (Ho : in_turn (snd (process o m))).
  { apply in_turn_process, in_turn_run, in_turn_make; assumption. }
  destruct Ho as [[Hp0 Hp1] _]. pose proof TWO_PI_below_2PI.
  repeat split; try assumption; try lra.
Qed.

(** The sample is sin(phase before + modulation) for every oscillator
    state and input. *)
Lemma process_sample :
  forall (o : Oscillator.t) (m : R), fst (process o m) = sin (phase o + m).
Proof. reflexivity. Qed.

Lemma fast_oscillator_increment :
  phaseIncrement fast_oscillator = 1.5 * TWO_PI.
Proof.
  unfold fast_oscillator, make, updatePhaseIncrement.
  cbn [phaseIncrement frequency sampleRate]. unfold SAMPLE_RATE. lra.
Qed.

(** C4: the code at a frequency above the sample rate.  [process]
    subtracts TWO_PI once per call, so with an increment of one and a half
    turns the phase is TWO_PI / 2, then TWO_PI, then 1.5 x TWO_PI: after
    the third call it is outside [0, 2 pi), with f > 0 and sr > 0. *)
Theorem C4_phase_escapes_above_sample_rate :
  0 < frequency fast_oscillator /\
  0 < sampleRate fast_oscillator /\
  phase (run [0; 0; 0] fast_oscillator) = 1.5 * TWO_PI /\
  ~ (0 <= phase (run [0; 0; 0] fast_oscillator) < 2 * PI).
Proof.
  assert (Hphase : phase (run [0; 0; 0] fast_oscillator) = 1.5 * TWO_PI).
  { pose proof TWO_PI_pos as Htp.
    cbn [run process snd set_phase phase phaseIncrement].
    rewrite fast_oscillator_increment.
    replace (phase fast_oscillator) with 0 by reflexivity.
    rewrite (wrap_above (0 + 1.5 * TWO_PI)) by lra.
    rewrite (wrap_above (0 + 1.5 * TWO_PI - TWO_PI + 1.5 * TWO_PI)) by lra.
    rewrite wrap_above by lra. lra. }
  split; [cbn; lra |]. split; [cbn; unfold SAMPLE_RATE; lra |].
  split; [exact Hphase |].
  rewrite Hphase. intros [_ Hlt].
  pose proof TWO_PI_bounds. pose proof PI_4. lra.
Qed.

End OscillatorRange.

(** ** Voice pool *)

Section VoicePool.

Import Pool.

Lemma slot_nil {A : Type} : forall i : nat, slot (@nil A) i = None.
Proof. destruct i; reflexivity. Qed.

Lemma scan_some {A : Type} : forall (p : A -> bool) (vs : list A) i k,
  scan p vs i = Some k ->
  (i <= k)%nat /\
  (exists v, slot vs (k - i) = Some v /\ p v = true) /\
  (forall j v, (j < k - i)%nat -> slot vs j = Some v -> p v = false).
Proof.
  intros p vs. induction vs as [|x vs IH]; intros i k H; cbn [scan] in H.
  - discriminate.
  - destruct (p x) eqn:Hp.
    + injection H as <-. rewrite Nat.sub_diag. split; [lia |]. split.
      * exists x. split; [reflexivity | exact Hp].
      * intros j v Hj. lia.
    + apply IH in H. destruct H as (Hle & (v & Hv & Hpv) & Hmin).
      split; [lia |].
      replace (k - i)%nat with (S (k - S i)) by lia. split.
      * exists v. split; [exact Hv | exact Hpv].
      * intros j w Hj Hw. destruct j as [|j].
        -- cbn in Hw. injection Hw as <-. exact Hp.
        -- apply (Hmin j w); [lia | exact Hw].
Qed.

Lemma scan_none {A : Type} : forall (p : A -> bool) (vs : list A) i,
  scan p vs i = None -> forall j v, slot vs j = Some v -> p v = false.
Proof.
  intros p vs. induction vs as [|x vs IH]; intros i H j v Hv.
  - rewrite slot_nil in Hv. discriminate.
  - cbn [scan] in H. destruct (p x) eqn:Hp; [discriminate |].
    destruct j as [|j].
    + cbn in Hv. injection Hv as <-. exact Hp.
    + exact (IH _ H j v Hv).
Qed.

Lemma slot_update_same : forall vs i f v,
  slot vs i = Some v -> slot (update i f vs) i = Some (f v).
Proof.
  induction vs as [|x vs IH]; intros i f v H.
  - rewrite slot_nil in H. discriminate.
  - destruct i as [|i]; cbn in *.
    + injection H as <-. reflexivity.
    + exact (IH i f v H).
Qed.

Lemma slot_update_other : forall vs i j f,
  i <> j -> slot (update i f vs) j = slot vs j.
Proof.
  induction vs as [|x vs IH]; intros i j f H.
  - reflexivity.
  - destruct i as [|i], j as [|j]; cbn; try reflexivity; try contradiction.
    apply IH. congruence.
Qed.

Lemma update_update : forall vs i f g,
  update i g (update i f vs) = update i (fun x => g (f x)) vs.
Proof.
  induction vs as [|x vs IH]; intros i f g; [reflexivity |].
  destruct i as [|i]; cbn; [reflexivity | rewrite IH; reflexivity].
Qed.

Lemma slot_update_none : forall vs i j f,
  slot vs j = None -> slot (update i f vs) j = None.
Proof.
  induction vs as [|x vs IH]; intros i j f H; [apply slot_nil |].
  destruct i as [|i], j as [|j]; cbn in *; try discriminate; try assumption.
  apply IH. exact H.
Qed.

Lemma slot_mixVoices : forall vs acc i,
  option_map note (slot (snd (mixVoices vs acc)) i) =
  option_map note (slot vs i).
Proof.
  induction vs as [|x vs IH]; intros acc i; [reflexivity |].
  cbn [mixVoices].
  destruct (FMSynth.process (synth x)) as [y s'].
  specialize (IH (acc + y)).
  destruct (mixVoices vs (acc + y)) as [total rest'].
  cbn [snd] in *. destruct i as [|i]; cbn; [reflexivity | apply IH].
Qed.

Lemma findVoiceWithNote_found : forall n vs i v,
  slot vs i = Some v -> note v = n -> (findVoiceWithNote n vs >= 0)%Z.
Proof.
  intros n vs i v Hv Hn. unfold findVoiceWithNote.
  destruct (scan _ vs 0) as [k|] eqn:Hs; [lia |].
  pose proof (scan_none _ _ _ Hs i v Hv) as Hf. cbn in Hf.
  apply Z.eqb_neq in Hf. contradiction.
Qed.

Lemma findVoiceWithNote_absent : forall n vs,
  (findVoiceWithNote n vs >=? 0)%Z = false ->
  forall i v, slot vs i = Some v -> note v <> n.
Proof.
  intros n vs H i v Hv. unfold findVoiceWithNote in H.
  destruct (scan _ vs 0) as [k|] eqn:Hs.
  - rewrite Z.geb_leb in H. apply Z.leb_gt in H. lia.
  - pose proof (scan_none _ _ _ Hs i v Hv) as Hf. cbn in Hf.
    apply Z.eqb_neq in Hf. exact Hf.
Qed.

Lemma findVoiceWithNote_present : forall n vs,
  (findVoiceWithNote n vs >=? 0)%Z = true ->
  exists v, slot vs (Z.to_nat (findVoiceWithNote n vs)) = Some v /\ note v = n.
Proof.
  intros n vs H. unfold findVoiceWithNote in *.
  destruct (scan _ vs 0) as [k|] eqn:Hs; [| discriminate].
  apply scan_some in Hs. destruct Hs as (_ & (v & Hv & Hp) & _).
  rewrite Nat.sub_0_r in Hv. rewrite Nat2Z.id.
  exists v. split; [exact Hv | apply Z.eqb_eq; exact Hp].
Qed.

Lemma voiceNoteOn_absent : forall n freq vs,
  (forall i v, slot vs i = Some v -> note v <> n) ->
  voiceNoteOn n freq vs = update (findFreeVoice vs) (assign n freq) vs.
Proof.
  intros n freq vs H. unfold voiceNoteOn.
  destruct (findVoiceWithNote n vs >=? 0)%Z eqn:Hf.
  - apply findVoiceWithNote_present in Hf. destruct Hf as (v & Hv & Hn).
    exfalso. exact (H _ _ Hv Hn).
  - rewrite update_update. reflexivity.
Qed.

Lemma voiceNoteOn_present : forall n freq vs i v,
  slot vs i = Some v -> note v = n -> voiceNoteOn n freq vs = vs.
Proof.
  intros n freq vs i v Hv Hn. unfold voiceNoteOn.
  pose proof (findVoiceWithNote_found n vs i v Hv Hn) as Hge.
  destruct (findVoiceWithNote n vs >=? 0)%Z eqn:Hf; [reflexivity |].
  rewrite Z.geb_leb in Hf. apply Z.leb_gt in Hf. lia.
Qed.

Lemma slot_update : forall vs i j f,
  slot (update i f vs) j =
  if Nat.eqb i j then option_map f (slot vs j) else slot vs j.
Proof.
  intros vs i j f. destruct (Nat.eqb_spec i j) as [->|Hne].
  - destruct (slot vs j) as [v|] eqn:Hv.
    + apply slot_update_same. exact Hv.
    + apply slot_update_none. exact Hv.
  - apply slot_update_other. exact Hne.
Qed.

Lemma distinct_notes_assign : forall n freq vs k,
  distinct_notes vs ->
  (forall i v, slot vs i = Some v -> note v <> n) ->
  distinct_notes (update k (assign n freq) vs).
Proof.
  intros n freq vs k Hd Habs i j vi vj Hi Hj Heq Hne.
  rewrite slot_update in Hi, Hj.
  destruct (Nat.eqb_spec k i) as [Hki|Hki], (Nat.eqb_spec k j) as [Hkj|Hkj].
  - congruence.
  - destruct (slot vs i) as [w|]; [| discriminate].
    injection Hi as <-. cbn in Heq. exfalso. exact (Habs _ _ Hj (eq_sym Heq)).
  - destruct (slot vs j) as [w|]; [| discriminate].
    injection Hj as <-. cbn in Heq. exfalso. exact (Habs _ _ Hi Heq).
  - exact (Hd i j vi vj Hi Hj Heq Hne).
Qed.

Lemma distinct_notes_voiceNoteOn : forall n freq vs,
  distinct_notes vs -> distinct_notes (voiceNoteOn n freq vs).
Proof.
  intros n freq vs Hd.
  destruct (findVoiceWithNote n vs >=? 0)%Z eqn:Hf.
  - unfold voiceNoteOn. rewrite Hf. exact Hd.
  - pose proof (findVoiceWithNote_absent n vs Hf) as Habs.
    rewrite (voiceNoteOn_absent n freq vs Habs).
    apply distinct_notes_assign; assumption.
Qed.

Lemma distinct_notes_voiceNoteOff : forall n vs,
  distinct_notes vs -> distinct_notes (voiceNoteOff n vs).
Proof.
  intros n vs Hd. unfold voiceNoteOff.
  destruct (findVoiceWithNote n vs >=? 0)%Z; [| exact Hd].
  rewrite update_update.
  intros i j vi vj Hi Hj Heq Hne. rewrite slot_update in Hi, Hj.
  destruct (Nat.eqb_spec (Z.to_nat (findVoiceWithNote n vs)) i) as [Hki|Hki].
  - destruct (slot vs i) as [w|]; [| discriminate].
    injection Hi as <-. cbn in Hne. contradiction.
  - destruct (Nat.eqb_spec (Z.to_nat (findVoiceWithNote n vs)) j) as [Hkj|Hkj].
    + destruct (slot vs j) as [w|]; [| discriminate].
      injection Hj as <-. cbn in Heq. congruence.
    + exact (Hd i j vi vj Hi Hj Heq Hne).
Qed.

Lemma distinct_notes_mixVoices : forall vs acc,
  distinct_notes vs -> distinct_notes (snd (mixVoices vs acc)).
Proof.
  intros vs acc Hd i j vi vj Hi Hj Heq Hne.
  pose proof (slot_mixVoices vs acc i) as Ei.
  pose proof (slot_mixVoices vs acc j) as Ej.
  rewrite Hi in Ei. rewrite Hj in Ej. cbn in Ei, Ej.
  destruct (slot vs i) as [wi|] eqn:Hwi; [| discriminate].
  destruct (slot vs j) as [wj|] eqn:Hwj; [| discriminate].
  cbn in Ei, Ej. injection Ei as Ei. injection Ej as Ej.
  apply (Hd i j wi wj Hwi Hwj); congruence.
Qed.

Lemma distinct_notes_exec ev vs :
  distinct_notes vs -> distinct_notes (exec ev vs).
Proof.
  intros Hd. destruct ev; cbn [exec].
  - apply distinct_notes_voiceNoteOn, Hd.
  - apply distinct_notes_voiceNoteOff, Hd.
  - apply distinct_notes_mixVoices, Hd.
Qed.

Lemma distinct_notes_run evs :
  forall vs, distinct_notes vs -> distinct_notes (run evs vs).
Proof.
  induction evs as [|ev evs IH]; intros vs Hd; cbn [run]; [exact Hd |].
  apply IH, distinct_notes_exec, Hd.
Qed.

Lemma slot_repeat :
  forall (x : Voice) k i v, slot (repeat x k) i = Some v -> v = x.
Proof.
  intros x k. induction k as [|k IH]; intros i v H.
  - cbn [repeat] in H. rewrite slot_nil in H. discriminate.
  - destruct i as [|i]; cbn in H; [congruence | exact (IH i v H)].
Qed.

Lemma distinct_notes_unassigned :
  forall vs : voices,
    (forall i v, slot vs i = Some v -> note v = (-1)%Z) ->
    distinct_notes vs.
Proof.
  intros vs Hfree i j vi vj Hi Hj _ Hne. exfalso. exact (Hne (Hfree i vi Hi)).
Qed.

Lemma initial_unassigned :
  forall (u : R) (i : nat) (v : Voice),
    slot (initial u) i = Some v -> note v = (-1)%Z.
Proof.
  intros u i v Hv. unfold initial in Hv.
  apply slot_repeat in Hv. subst v. reflexivity.
Qed.

Lemma is_free_and_silent_true v :
  is_free_and_silent v = true <->
  note v = (-1)%Z /\ FMSynth.isActive (synth v) = false.
Proof.
  unfold is_free_and_silent.
  rewrite andb_true_iff, Z.eqb_eq, negb_true_iff. tauto.
Qed.

Lemma is_free_true v : is_free v = true <-> note v = (-1)%Z.
Proof. unfold is_free. apply Z.eqb_eq. Qed.

Lemma scan_lowest {A : Type} (p : A -> bool) (P : list A -> nat -> Prop)
  (vs : list A) (k : nat) :
  (forall i, P vs i <-> exists v, slot vs i = Some v /\ p v = true) ->
  scan p vs 0 = Some k -> lowest (P vs) k.
Proof.
  intros HP Hs. apply scan_some in Hs.
  destruct Hs as (_ & (v & Hv & Hp) & Hmin). rewrite Nat.sub_0_r in *.
  split.
  - apply HP. exists v. split; assumption.
  - intros j Hj Hcontra. apply HP in Hcontra.
    destruct Hcontra as (w & Hw & Hpw).
    rewrite (Hmin j w Hj Hw) in Hpw. discriminate.
Qed.

Lemma scan_nowhere {A : Type} (p : A -> bool) (P : list A -> nat -> Prop)
  (vs : list A) :
  (forall i, P vs i <-> exists v, slot vs i = Some v /\ p v = true) ->
  scan p vs 0 = None -> ~ exists i, P vs i.
Proof.
  intros HP Hs [i Hi]. apply HP in Hi. destruct Hi as (v & Hv & Hp).
  rewrite (scan_none _ _ _ Hs i v Hv) in Hp. discriminate.
Qed.

Lemma free_silent_at_scan vs i :
  free_silent_at vs i <->
  exists v, slot vs i = Some v /\ is_free_and_silent v = true.
Proof.
  unfold free_silent_at. split; intros (v & Hv & H); exists v;
    (split; [exact Hv |]).
  - apply is_free_and_silent_true. exact H.
  - apply is_free_and_silent_true in H. exact H.
Qed.

Lemma free_at_scan vs i :
  free_at vs i <-> exists v, slot vs i = Some v /\ is_free v = true.
Proof.
  unfold free_at. split; intros (v & Hv & H); exists v;
    (split; [exact Hv |]); apply is_free_true; exact H.
Qed.

Lemma free_silent_is_free vs i : free_silent_at vs i -> free_at vs i.
Proof. intros (v & Hv & Hn & _). exists v. split; assumption. Qed.

Lemma findFreeVoice_preferred vs : preferred_slot vs (findFreeVoice vs).
Proof.
  unfold findFreeVoice, preferred_slot.
  destruct (scan is_free_and_silent vs 0) as [k|] eqn:Ha.
  - pose proof (scan_lowest _ free_silent_at vs k (free_silent_at_scan vs) Ha)
      as Hlow.
    split; [intros _; exact Hlow |]. split.
    + intros Hno. exfalso. apply Hno. exists k. exact (proj1 Hlow).
    + intros Hno. exfalso. apply Hno. exists k.
      apply free_silent_is_free. exact (proj1 Hlow).
  - pose proof (scan_nowhere _ free_silent_at vs (free_silent_at_scan vs) Ha)
      as Hnone.
    split; [intros Hsome; contradiction |].
    destruct (scan is_free vs 0) as [k|] eqn:Hb.
    + pose proof (scan_lowest _ free_at vs k (free_at_scan vs) Hb) as Hlow.
      split; [intros _ _; exact Hlow |].
      intros Hno. exfalso. apply Hno. exists k. exact (proj1 Hlow).
    + pose proof (scan_nowhere _ free_at vs (free_at_scan vs) Hb) as Hnone'.
      split; [intros _ Hsome; contradiction | intros _; reflexivity].
Qed.

Lemma findFreeVoice_in_range vs :
  (0 < length vs)%nat -> exists v, slot vs (findFreeVoice vs) = Some v.
Proof.
  intros Hlen. unfold findFreeVoice.
  destruct (scan is_free_and_silent vs 0) as [k|] eqn:Ha.
  - apply scan_some in Ha. destruct Ha as (_ & (v & Hv & _) & _).
    rewrite Nat.sub_0_r in Hv. exists v. exact Hv.
  - destruct (scan is_free vs 0) as [k|] eqn:Hb.
    + apply scan_some in Hb. destruct Hb as (_ & (v & Hv & _) & _).
      rewrite Nat.sub_0_r in Hv. exists v. exact Hv.
    + destruct vs as [|x vs]; [cbn in Hlen; lia |]. exists x. reflexivity.
Qed.

(** C6: start from any pool whose slots are all unassigned, as [main]
    leaves it; after any sequence of key-down and key-up events (and
    rendered frames) no two slots carry the same note other than -1; and a
    key-down for a note some slot already carries leaves the whole pool,
    hence every voice and envelope, as it was. *)
Theorem C6_pool_notes_distinct :
  (forall (vs0 : voices) (evs : list event),
      (forall i v, slot vs0 i = Some v -> note v = (-1)%Z) ->
      distinct_notes (run evs vs0)) /\
  (forall (vs : voices) (n : Z) (freq : R) (i : nat) (v : Voice),
      slot vs i = Some v -> note v = n ->
      voiceNoteOn n freq vs = vs).
Proof.
  split.
  - intros vs0 evs Hfree.
    apply distinct_notes_run, distinct_notes_unassigned, Hfree.
  - exact (fun vs n freq i v => voiceNoteOn_present n freq vs i v).
Qed.

Lemma C6_pool_notes_distinct_witness :
  (forall i v, slot (initial 0) i = Some v -> note v = (-1)%Z) /\
  distinct_notes
    (run [KeyDown 60 261.63; KeyDown 64 329.63; KeyDown 60 261.63;
          Frame; KeyUp 64]
         (initial 0)) /\
  slot pressed 0 =
    Some (mkVoice (FMSynth.noteOn 261.63 (FMSynth.make 440.0 SAMPLE_RATE 0))
                  60) /\
  voiceNoteOn 60 261.63 pressed = pressed.
Proof.
  assert (H : slot pressed 0 =
              Some (mkVoice
                      (FMSynth.noteOn 261.63
                         (FMSynth.make 440.0 SAMPLE_RATE 0)) 60))
    by reflexivity.
  split; [exact (initial_unassigned 0) |].
  split; [exact (proj1 C6_pool_notes_distinct _ _ (initial_unassigned 0)) |].
  split; [exact H |].
  exact (proj2 C6_pool_notes_distinct pressed 60%Z 261.63 0%nat _ H eq_refl).
Defined.

(** C7: a key-down for a note no slot carries picks the slot by the
    order (a) lowest slot without note whose voice is silent, (b) lowest
    slot without note, (c) slot 0; that slot then carries the note and its
    voice has received [noteOn]; the other slots are as before. *)
Theorem C7_voice_selection_order :
  forall (vs : voices) (n : Z) (freq : R),
    length vs = NUM_VOICES ->
    (forall i v, slot vs i = Some v -> note v <> n) ->
    let k := findFreeVoice vs in
    preferred_slot vs k /\
    (exists v, slot vs k = Some v /\
               slot (voiceNoteOn n freq vs) k =
                 Some (mkVoice (FMSynth.noteOn freq (synth v)) n)) /\
    (forall j, j <> k -> slot (voiceNoteOn n freq vs) j = slot vs j).
Proof.
  intros vs n freq Hlen Habs k.
  split; [apply findFreeVoice_preferred |].
  rewrite (voiceNoteOn_absent n freq vs Habs). fold k. split.
  - destruct (findFreeVoice_in_range vs) as [v Hv].
    { rewrite Hlen. unfold NUM_VOICES. lia. }
    exists v. split; [exact Hv |].
    apply (slot_update_same vs k (assign n freq) v Hv).
  - intros j Hj. apply slot_update_other. congruence.
Qed.

Lemma C7_voice_selection_order_witness :
  length pressed = NUM_VOICES /\
  (forall i v, slot pressed i = Some v -> note v <> 64%Z) /\
  findFreeVoice pressed = 1%nat /\
  preferred_slot pressed 1 /\
  slot (voiceNoteOn 64 329.63 pressed) 1 =
    Some (mkVoice (FMSynth.noteOn 329.63 (FMSynth.make 440.0 SAMPLE_RATE 0))
                  64).
Proof.
  assert (Hlen : length pressed = NUM_VOICES) by reflexivity.
  assert (Habs : forall i v, slot pressed i = Some v -> note v <> 64%Z).
  { intros i v Hv.
    do 6 (destruct i as [|i];
          [cbn in Hv; injection Hv as <-; cbn; lia |]).
    destruct i; discriminate. }
  assert (Hk : findFreeVoice pressed = 1%nat) by reflexivity.
  destruct (C7_voice_selection_order pressed 64%Z 329.63 Hlen Habs)
    as (Hpref & (v & Hv & Hnew) & _).
  rewrite Hk in Hpref, Hv, Hnew.
  split; [exact Hlen |]. split; [exact Habs |]. split; [exact Hk |].
  split; [exact Hpref |].
  cbn in Hv. injection Hv as <-. exact Hnew.
Defined.

End VoicePool.

(** ** The end-to-end scenario *)

(** Project fields through the setters and constructors. *)
Ltac voice_fields :=
  cbn [Terms.scenario FMSynth.make FMSynth.noteOn FMSynth.noteOff
       FMSynth.setRatio1 FMSynth.setRatio2 FMSynth.setRatio3 FMSynth.setRatio4
       FMSynth.setIndex1 FMSynth.setIndex2 FMSynth.setIndex3 FMSynth.setIndex4
       FMSynth.setAlgorithm FMSynth.setAttack FMSynth.setDecay
       FMSynth.setSustain FMSynth.setRelease
       FMSynth.set_ops FMSynth.set_envelope FMSynth.set_ratios
       FMSynth.set_indices FMSynth.set_prevSample1 FMSynth.set_algorithm
       FMSynth.set_noteActive FMSynth.set_currentFrequency
       FMSynth.op1 FMSynth.op2 FMSynth.op3 FMSynth.op4 FMSynth.envelope
       FMSynth.ratio1 FMSynth.ratio2 FMSynth.ratio3 FMSynth.ratio4
       FMSynth.index1 FMSynth.index2 FMSynth.index3 FMSynth.index4
       FMSynth.prevSample1 FMSynth.algorithm FMSynth.amplitude
       FMSynth.noteActive FMSynth.currentFrequency FMSynth.sampleRate
       Terms.stepped Terms.tick
       ADSREnvelope.make ADSREnvelope.updateIncrements ADSREnvelope.noteOn
       ADSREnvelope.setAttack ADSREnvelope.setDecay ADSREnvelope.setSustain
       ADSREnvelope.setRelease ADSREnvelope.set_state ADSREnvelope.set_level
       ADSREnvelope.set_attackTime ADSREnvelope.set_decayTime
       ADSREnvelope.set_sustainLevel ADSREnvelope.set_releaseTime
       ADSREnvelope.attackTime ADSREnvelope.decayTime
       ADSREnvelope.sustainLevel ADSREnvelope.releaseTime
       ADSREnvelope.state ADSREnvelope.currentLevel ADSREnvelope.sampleRate
       ADSREnvelope.attackIncrement ADSREnvelope.decayIncrement
       ADSREnvelope.releaseIncrement ADSREnvelope.releaseStartLevel
       ADSREnvelope.process
       Oscillator.make Oscillator.updatePhaseIncrement Oscillator.setFrequency
       Oscillator.reset Oscillator.set_phase Oscillator.process
       Oscillator.phase Oscillator.phaseIncrement Oscillator.frequency
       Oscillator.sampleRate fst snd negb].

Section Scenario.

Import FMSynth Terms.

Lemma phase_at_unique inc n (k : Z) :
  0 <= INR n * inc - TWO_PI * IZR k < TWO_PI ->
  phase_at inc n = INR n * inc - TWO_PI * IZR k.
Proof.
  intros [H0 H1]. unfold phase_at. pose proof TWO_PI_pos as Htp.
  replace (Int_part (INR n * inc / TWO_PI)) with k; [reflexivity |].
  apply Int_part_spec.
  assert (Hx : INR n * inc / TWO_PI =
               IZR k + (INR n * inc - TWO_PI * IZR k) / TWO_PI).
  { field. lra. }
  assert (Hq : 0 <= (INR n * inc - TWO_PI * IZR k) / TWO_PI < 1).
  { split.
    - apply div_nonneg; assumption.
    - apply Rmult_lt_reg_r with TWO_PI; [exact Htp |].
      unfold Rdiv. rewrite Rmult_assoc, Rinv_l; lra. }
  rewrite Hx. lra.
Qed.

Lemma phase_at_0 inc : phase_at inc 0 = 0.
Proof.
  rewrite (phase_at_unique inc 0 0%Z); cbn [INR]; pose proof TWO_PI_pos;
    try lra.
Qed.

Lemma phase_at_range inc n : 0 <= phase_at inc n < TWO_PI.
Proof.
  unfold phase_at. pose proof TWO_PI_pos as Htp.
  destruct (base_Int_part (INR n * inc / TWO_PI)) as [Hlo Hhi].
  set (x := INR n * inc) in *. set (k := IZR (Int_part (x / TWO_PI))) in *.
  assert (Hx : x = TWO_PI * (x / TWO_PI)) by (field; lra).
  split.
  - assert (TWO_PI * k <= TWO_PI * (x / TWO_PI))
      by (apply Rmult_le_compat_l; lra).
    lra.
  - assert (TWO_PI * (x / TWO_PI) < TWO_PI * (k + 1))
      by (apply Rmult_lt_compat_l; lra).
    lra.
Qed.

Lemma phase_at_S inc n :
  0 <= inc <= TWO_PI ->
  phase_at inc (S n) = Oscillator.wrap (phase_at inc n + inc).
Proof.
  intros Hinc. pose proof (phase_at_range inc n) as Hr.
  unfold Oscillator.wrap.
  destruct (Rge_dec _ _) as [Hge|Hlt].
  - unfold phase_at at 2.
    set (k := Int_part (INR n * inc / TWO_PI)).
    rewrite (phase_at_unique inc (S n) (k + 1)%Z).
    + rewrite S_INR, plus_IZR. lra.
    + unfold phase_at in Hr, Hge. fold k in Hr, Hge.
      rewrite S_INR, plus_IZR. lra.
  - unfold phase_at at 2.
    set (k := Int_part (INR n * inc / TWO_PI)).
    rewrite (phase_at_unique inc (S n) k).
    + rewrite S_INR. lra.
    + unfold phase_at in Hr, Hlt. fold k in Hr, Hlt.
      rewrite S_INR. lra.
Qed.

Lemma clamp_zero_time : Rmax 0.001 0.0 = 0.001.
Proof. rewrite Rmax_left; lra. Qed.

Lemma clamp_full_level : Rmax 0.0 (Rmin 1.0 1.0) = 1.
Proof. rewrite Rmin_left, Rmax_right; lra. Qed.

Lemma level_at_below n :
  INR n / (0.001 * SAMPLE_RATE) < 1 ->
  level_at n = INR n / (0.001 * SAMPLE_RATE).
Proof. intros H. unfold level_at. rewrite Rmin_right; lra. Qed.

Lemma level_at_full n :
  1 <= INR n / (0.001 * SAMPLE_RATE) -> level_at n = 1.
Proof. intros H. unfold level_at. rewrite Rmin_left; lra. Qed.

Lemma ramp_S n :
  INR (S n) / (0.001 * SAMPLE_RATE) =
  INR n / (0.001 * SAMPLE_RATE) + 1 / (0.001 * SAMPLE_RATE).
Proof. rewrite S_INR. unfold SAMPLE_RATE. lra. Qed.

Lemma on_course_scenario u : on_course 0 (scenario u).
Proof.
  constructor; try reflexivity.
  1-4: unfold ph1, ph2, ph3, ph4; voice_fields; rewrite phase_at_0; reflexivity.
  constructor; voice_fields; rewrite ?clamp_zero_time, ?clamp_full_level.
  - lra.
  - unfold SAMPLE_RATE. lra.
  - reflexivity.
  - unfold level_at. cbn [INR]. rewrite Rmin_right; unfold SAMPLE_RATE; lra.
  - left. split; [reflexivity |]. cbn [INR]. unfold SAMPLE_RATE. lra.
Qed.

Lemma attack_course_advance n e :
  attack_course n e -> attack_course (S n) (ADSREnvelope.advance e).
Proof.
  intros [Hai Hdi Hsl Hlv Hst]. unfold ADSREnvelope.advance.
  destruct Hst as [[Hst Hlt]|[[Hst|Hst] Hge]]; rewrite Hst.
  - rewrite Hlv, Hai, (level_at_below n Hlt), <- ramp_S.
    destruct (Rge_dec _ _) as [Hfull|Hbelow].
    + constructor; voice_fields; try assumption.
      * rewrite level_at_full; lra.
      * right. split; [left; reflexivity | lra].
    + constructor; voice_fields; try assumption.
      * rewrite level_at_below; lra.
      * left. split; [exact Hst | lra].
  - assert (Hnext : 1 <= INR (S n) / (0.001 * SAMPLE_RATE)).
    { rewrite ramp_S. unfold SAMPLE_RATE in *. lra. }
    rewrite Hlv, Hdi, Hsl, (level_at_full n Hge).
    destruct (Rle_dec _ _) as [_|Hn]; [| lra].
    constructor; voice_fields; try assumption.
    + rewrite level_at_full; lra.
    + right. split; [right; reflexivity | exact Hnext].
  - assert (Hnext : 1 <= INR (S n) / (0.001 * SAMPLE_RATE)).
    { rewrite ramp_S. unfold SAMPLE_RATE in *. lra. }
    constructor; voice_fields; try assumption.
    + rewrite Hsl, level_at_full; lra.
    + right. split; [right; exact Hst | exact Hnext].
Qed.

Lemma attack_course_active n e :
  attack_course n e -> ADSREnvelope.isActive e = true.
Proof.
  intros [_ _ _ _ Hst]. unfold ADSREnvelope.isActive.
  destruct Hst as [[Hst _]|[[Hst|Hst] _]]; rewrite Hst; reflexivity.
Qed.

Lemma increment_range r : 0 <= r <= 100 -> 0 <= increment r <= TWO_PI.
Proof.
  intros Hr. unfold increment, SAMPLE_RATE. pose proof TWO_PI_pos as Htp.
  replace (TWO_PI * (440.0 * r) / 44100.0) with (TWO_PI * (r * (440 / 44100)))
    by lra.
  split; [apply Rmult_le_pos; lra |].
  rewrite <- (Rmult_1_r TWO_PI) at 2. apply Rmult_le_compat_l; lra.
Qed.

Lemma on_course_step n s :
  on_course n s ->
  fst (process s) = scenario_sample n /\ on_course (S n) (snd (process s)).
Proof.
  intros [Hg H1 H2 H3 H4 Hamp Hi1 Hi2 Hi3 Hi4 Hp1 Hp2 Hp3 Hp4 Henv].
  pose proof (attack_course_active n _ Henv) as Hact.
  pose proof (attack_course_advance n _ Henv) as Hnext.
  rewrite (route_stack s Hact Hg). cbn [fst snd]. split.
  - unfold envLevel, ADSREnvelope.process. cbn [fst].
    rewrite (ac_currentLevel _ _ Hnext).
    rewrite H1, H2, H3, H4, Hamp, Hp1, Hp2, Hp3, Hp4.
    unfold scenario_sample.
    match goal with
    | |- sin ?x * _ * _ = _ * _ * sin ?y =>
        replace x with y; [ring |]
    end.
    replace (phase_at (increment 4.0) n + 0.0)
      with (phase_at (increment 4.0) n) by lra.
    lra.
  - constructor; try assumption.
    + unfold ph1. voice_fields. fold (ph1 s).
      rewrite Hp1, Hi1, phase_at_S; [reflexivity | apply increment_range; lra].
    + unfold ph2. voice_fields. fold (ph2 s).
      rewrite Hp2, Hi2, phase_at_S; [reflexivity | apply increment_range; lra].
    + unfold ph3. voice_fields. fold (ph3 s).
      rewrite Hp3, Hi3, phase_at_S; [reflexivity | apply increment_range; lra].
    + unfold ph4. voice_fields. fold (ph4 s).
      rewrite Hp4, Hi4, phase_at_S; [reflexivity | apply increment_range; lra].
Qed.

Lemma voice_process_n_snoc :
  forall (n : nat) (s : FMSynth.t),
    process_n (S n) s = snd (process (process_n n s)).
Proof.
  induction n as [|n IH]; intros s; [reflexivity |].
  change (process_n (S (S n)) s) with (process_n (S n) (snd (process s))).
  rewrite IH. reflexivity.
Qed.

Lemma on_course_process_n :
  forall (u : R) (n : nat), on_course n (process_n n (scenario u)).
Proof.
  intros u. induction n as [|n IH].
  - apply on_course_scenario.
  - rewrite voice_process_n_snoc. apply on_course_step, IH.
Qed.

Lemma sample_on_course :
  forall (u : R) (n : nat), sample n (scenario u) = scenario_sample n.
Proof.
  intros u n. unfold sample.
  apply on_course_step, on_course_process_n.
Qed.

Lemma scenario_sample_0 : scenario_sample 0 = 0.
Proof.
  unfold scenario_sample. rewrite !phase_at_0.
  replace (0 + 1.0 * sin 0) with 0 by (rewrite sin_0; lra).
  replace (0 + 1.5 * sin 0) with 0 by (rewrite sin_0; lra).
  replace (0 + 3.0 * sin 0) with 0 by (rewrite sin_0; lra).
  rewrite sin_0. lra.
Qed.

(** C2, as the code has it: in the scenario the first sample is 0, and
    sample n (every n, so the first 100 too) is
    amplitude x level x sin(p1 + 3.0 sin(p2 + 1.5 sin(p3 + 1.0 sin(p4)))),
    where amplitude is 0.3, level is min(1, (n+1) / (0.001 x 44100)) (the
    attack time 0 is clamped to 1 ms, so the level reaches 1 at the 45th
    sample) and p_i is n increments of TWO_PI x 440 x ratio_i / 44100
    reduced modulo TWO_PI: operators 3 and 4 keep modulating with the
    constructor's indices. *)
Theorem C2_scenario_closed_form :
  forall u : R,
    sample 0 (scenario u) = 0 /\
    forall n : nat, sample n (scenario u) = scenario_sample n.
Proof.
  intros u. split.
  - rewrite sample_on_course. exact scenario_sample_0.
  - exact (sample_on_course u).
Qed.

Lemma phase_at_1 :
  forall r : R,
    0 <= r <= 4 -> phase_at (increment r) 1 = TWO_PI * 440 / 44100 * r.
Proof.
  intros r Hr. pose proof TWO_PI_bounds as Htp.
  rewrite (phase_at_unique _ 1 0%Z); unfold increment, SAMPLE_RATE; cbn [INR].
  - lra.
  - split.
    + assert (0 <= TWO_PI * r) by (apply Rmult_le_pos; lra). lra.
    + assert (TWO_PI * r <= TWO_PI * 4) by (apply Rmult_le_compat_l; lra).
      lra.
Qed.

(** At the second sample the chain through operators 3 and 4 moves the
    carrier's phase input from about 0.44 to about 2.1. *)
Lemma chain_differs :
  let a := TWO_PI * 440 / 44100 in
  sin (a * 1.0 +
       3.0 * sin (a * 2.0 + 1.5 * sin (a * 3.0 + 1.0 * sin (a * 4.0))))
  <> sin (a * 1.0 + 3.0 * sin (a * 2.0)).
Proof.
  intros a.
  assert (Ha : 0.0626 < a < 0.0627).
  { unfold a. pose proof TWO_PI_bounds. lra. }
  assert (H4lo : a * 4.0 - (a * 4.0) * (a * 4.0) * (a * 4.0) / 6
                 <= sin (a * 4.0))
    by (apply sin_cubic_lower; lra).
  assert (H4hi : sin (a * 4.0) < a * 4.0) by (apply sin_linear_upper; lra).
  assert (Hc : a * a * a < 0.00025) by nra.
  set (s4 := sin (a * 4.0)) in *.
  assert (Hs4 : 0.2477 < s4 < 0.2508) by lra.
  set (y3 := a * 3.0 + 1.0 * s4).
  assert (Hy3 : 0.4355 < y3 < 0.4389) by (unfold y3; lra).
  assert (H3lo : y3 - y3 * y3 * y3 / 6 <= sin y3)
    by (apply sin_cubic_lower; lra).
  assert (H3hi : sin y3 < y3) by (apply sin_linear_upper; lra).
  assert (Hy3c : y3 * y3 * y3 < 0.0846) by nra.
  set (s3 := sin y3) in *.
  assert (Hs3 : 0.4214 < s3 < 0.4389) by lra.
  set (y2 := a * 2.0 + 1.5 * s3).
  assert (Hy2 : 0.7573 < y2 < 0.7838) by (unfold y2; lra).
  assert (H2lo : y2 - y2 * y2 * y2 / 6 <= sin y2)
    by (apply sin_cubic_lower; lra).
  assert (H2hi : sin y2 <= y2 - y2 ^ 3 / 6 + y2 ^ 5 / 120)
    by (apply sin_quintic_upper; lra).
  pose proof (pow_between 0.7573 0.7838 y2 3 ltac:(lra) ltac:(lra)) as Hp3.
  pose proof (pow_between 0.7573 0.7838 y2 5 ltac:(lra) ltac:(lra)) as Hp5.
  assert (Hy2c : y2 * y2 * y2 = y2 ^ 3) by ring.
  set (s2 := sin y2) in *.
  assert (Hs2 : 0.677 < s2 < 0.7139) by lra.
  set (x1 := a * 1.0 + 3.0 * s2).
  assert (Hx1 : 2.0936 < x1 < 2.2044) by (unfold x1; lra).
  pose proof (sin_septic_lower x1 ltac:(lra)) as H1lo.
  pose proof (pow_between 2.0936 2.2044 x1 3 ltac:(lra) ltac:(lra)) as Hq3.
  pose proof (pow_between 2.0936 2.2044 x1 5 ltac:(lra) ltac:(lra)) as Hq5.
  pose proof (pow_between 2.0936 2.2044 x1 7 ltac:(lra) ltac:(lra)) as Hq7.
  assert (Hout1 : 0.5 < sin x1) by lra.
  assert (Hm_hi : sin (a * 2.0) < a * 2.0) by (apply sin_linear_upper; lra).
  set (x2 := a * 1.0 + 3.0 * sin (a * 2.0)) in *.
  assert (Hx2lo : 0 < x2).
  { assert (0 < sin (a * 2.0))
      by (apply sin_gt_0; [lra | pose proof PI_lower_bound; lra]).
    unfold x2. lra. }
  assert (Hx2hi : x2 < 0.45) by (unfold x2; lra).
  assert (Hout2 : sin x2 < x2) by (apply sin_linear_upper; lra).
  lra.
Qed.

(** C2 as stated fails at the second sample of the scenario: the level
    is still 2 / 44.1 there, so the sample is below 0.014, while the
    two-operator formula gives more than 0.12; and scaling that formula
    by the level does not repair it, because operators 3 and 4 modulate
    operator 2. *)
Lemma C2_counterexample_second_sample :
  sample 1 (scenario 0) <> two_operator_sample 1 /\
  sample 1 (scenario 0) <> level_at 2 * two_operator_sample 1.
Proof.
  rewrite sample_on_course. unfold scenario_sample, two_operator_sample.
  rewrite !phase_at_1 by lra.
  rewrite (level_at_below 2) by (cbn [INR]; unfold SAMPLE_RATE; lra).
  cbn [INR]. unfold SAMPLE_RATE.
  pose proof chain_differs as Hchain. cbv zeta in Hchain.
  set (a := TWO_PI * 440 / 44100) in *.
  assert (Ha : 0.0626 < a < 0.0627).
  { unfold a. pose proof TWO_PI_bounds. lra. }
  split.
  - match goal with
    | |- _ * _ * sin ?x <> _ => pose proof (SIN_bound x) as Hb
    end.
    assert (Hm_hi : sin (a * 2.0) < a * 2.0)
      by (apply sin_linear_upper; lra).
    assert (Hm_lo : a * 2.0 - a * 2.0 * (a * 2.0) * (a * 2.0) / 6
                    <= sin (a * 2.0))
      by (apply sin_cubic_lower; lra).
    assert (Hcube : a * a * a < 0.001) by nra.
    set (x := a * 1.0 + 3.0 * sin (a * 2.0)) in *.
    assert (Hx : 0.43 < x < 0.45) by (unfold x; lra).
    assert (Hsx : x - x * x * x / 6 <= sin x)
      by (apply sin_cubic_lower; lra).
    assert (Hx3 : x * x * x < 0.1) by nra.
    lra.
  - intros Heq. apply Hchain. lra.
Qed.

(** *** The same scenario on the two-operator program *)

Lemma two_PI_literal : 2.0 * TwoOperator.PI_literal = TWO_PI.
Proof. unfold TwoOperator.PI_literal, TWO_PI. lra. Qed.

Lemma two_on_course_scenario : two_on_course 0 TwoOperator.scenario.
Proof.
  constructor; try reflexivity.
  - cbn. unfold increment. lra.
  - cbn. rewrite phase_at_0. reflexivity.
  - cbn. rewrite phase_at_0. reflexivity.
Qed.

Lemma two_on_course_step :
  forall (n : nat) (s : TwoOperator.t),
    two_on_course n s ->
    fst (TwoOperator.process s) = two_operator_sample n /\
    two_on_course (S n) (snd (TwoOperator.process s)).
Proof.
  intros n s [Hact Hidx Hamp Hic Him Hpc Hpm].
  unfold TwoOperator.process. rewrite Hact. cbn [negb].
  unfold Oscillator.process. cbn [fst snd]. split.
  - rewrite Hidx, Hamp, Hpc, Hpm. unfold two_operator_sample.
    replace (phase_at (increment 2.0) n + 0.0)
      with (phase_at (increment 2.0) n) by lra.
    ring.
  - constructor;
      cbn [TwoOperator.carrier TwoOperator.modulator TwoOperator.isActive
           TwoOperator.modulationIndex TwoOperator.amplitude
           Oscillator.phase Oscillator.phaseIncrement Oscillator.set_phase];
      try assumption; try reflexivity.
    + rewrite Hpc, Hic, phase_at_S;
        [reflexivity | apply increment_range; lra].
    + rewrite Hpm, Him, phase_at_S;
        [reflexivity | apply increment_range; lra].
Qed.

Lemma two_process_n_snoc :
  forall (n : nat) (s : TwoOperator.t),
    TwoOperator.process_n (S n) s =
    snd (TwoOperator.process (TwoOperator.process_n n s)).
Proof.
  induction n as [|n IH]; intros s; [reflexivity |].
  change (TwoOperator.process_n (S (S n)) s)
    with (TwoOperator.process_n (S n) (snd (TwoOperator.process s))).
  rewrite IH. reflexivity.
Qed.

(** On the two-operator program every sample of the scenario is the
    two-operator formula amplitude x sin(p_c + 3.0 sin(p_m)): there is no
    envelope and no further operator. *)
Lemma two_operator_closed_form :
  forall n : nat,
    TwoOperator.sample n TwoOperator.scenario = two_operator_sample n.
Proof.
  intros n. unfold TwoOperator.sample. apply two_on_course_step.
  induction n as [|n IH].
  - apply two_on_course_scenario.
  - rewrite two_process_n_snoc. apply two_on_course_step, IH.
Qed.

End Scenario.

(** ** The three-operator build *)

Section ThreeOperatorBuild.

Import ThreeOperator.

(** A voice that is not active returns 0 and is left as it was. *)
Lemma three_inactive_noop :
  forall s : ThreeOperator.t, isActive s = false -> process s = (0, s).
Proof.
  intros s Hoff. unfold process. rewrite Hoff. cbn [negb].
  rewrite zero_lit. reflexivity.
Qed.

(** A selector outside the four routings returns 0; nothing has been
    touched before the switch, so here the call is a full no-op. *)
Lemma three_invalid_algorithm_noop :
  forall s : ThreeOperator.t,
    ~ (0 <= algorithm s <= 3)%Z -> process s = (0, s).
Proof.
  intros s Hbad. unfold process.
  destruct (isActive s); cbn [negb]; [| rewrite zero_lit; reflexivity].
  destruct (algorithm s) as [|p|p]; try lia;
    [do 2 (destruct p as [p|p|]; try lia) |];
    rewrite zero_lit; reflexivity.
Qed.

(** The older [findFreeVoice]: the lowest slot without note, slot 0 when
    every slot has one. *)
Lemma three_findFreeVoice_lowest_free :
  forall vs : list Voice,
    ((exists i, free_at vs i) ->
     Pool.lowest (free_at vs) (findFreeVoice vs)) /\
    (~ (exists i, free_at vs i) -> findFreeVoice vs = 0%nat).
Proof.
  intros vs. unfold findFreeVoice.
  assert (HP : forall i,
             free_at vs i <->
             exists v, Pool.slot vs i = Some v /\
                       (note v =? -1)%Z = true).
  { intros i. unfold free_at.
    split; intros (v & Hv & H); exists v; (split; [exact Hv |]);
      apply Z.eqb_eq; exact H. }
  destruct (Pool.scan _ vs 0) as [k|] eqn:Hs.
  - pose proof (scan_lowest _ free_at vs k HP Hs) as Hlow.
    split; [intros _; exact Hlow |].
    intros Hno. exfalso. apply Hno. exists k. exact (proj1 Hlow).
  - pose proof (scan_nowhere _ free_at vs HP Hs) as Hnone.
    split; [intros Hsome; contradiction | intros _; reflexivity].
Qed.

End ThreeOperatorBuild.

(** ** Envelope: the stages of a note *)

Section EnvelopeStages.

Import ADSREnvelope Terms Invariants Ranges.

Ltac tm_fields :=
  constructor;
  cbn [attackTime decayTime releaseTime sustainLevel state currentLevel
       sampleRate attackIncrement decayIncrement releaseIncrement
       releaseStartLevel set_state set_level set_attackTime set_decayTime
       set_sustainLevel set_releaseTime updateIncrements];
  try assumption; try reflexivity; try discriminate; try lra.

Lemma timed_make : forall sr uninit : R, timed (make sr uninit).
Proof. intros sr u. unfold make. tm_fields. Qed.

Lemma timed_advance e : timed e -> timed (advance e).
Proof.
  intros [Ha Hd Hr Hai Hdi Hz]. unfold advance.
  destruct (state e) eqn:Hst.
  - tm_fields.
  - destruct (Rge_dec _ _); tm_fields; rewrite Hst; discriminate.
  - destruct (Rle_dec _ _); tm_fields; rewrite Hst; discriminate.
  - tm_fields; rewrite Hst; discriminate.
  - destruct (Rle_dec _ _); tm_fields; rewrite Hst; discriminate.
Qed.

Lemma timed_exec c e : timed e -> timed (exec c e).
Proof.
  intros H. pose proof H as [Ha Hd Hr Hai Hdi Hz].
  destruct c; cbn [exec].
  - unfold noteOn. tm_fields.
  - unfold noteOff. destruct (state e) eqn:Hst; [exact H | | | |]; tm_fields.
  - apply timed_advance, H.
  - unfold setAttack. tm_fields. apply Rmax_l.
  - unfold setDecay. tm_fields. apply Rmax_l.
  - unfold setSustain. tm_fields.
  - unfold setRelease. tm_fields. apply Rmax_l.
Qed.

Lemma timed_run cs : forall e, timed e -> timed (run cs e).
Proof.
  induction cs as [|c cs IH]; intros e He; cbn [run]; [exact He |].
  apply IH, timed_exec, He.
Qed.

Lemma sampleRate_exec c e : sampleRate (exec c e) = sampleRate e.
Proof.
  destruct c; cbn [exec]; try reflexivity.
  - unfold noteOff. destruct (state e); reflexivity.
  - unfold process, advance. cbn [snd].
    destruct (state e); try reflexivity;
      match goal with |- context [if ?c then _ else _] => destruct c end;
      reflexivity.
Qed.

Lemma sampleRate_run cs : forall e, sampleRate (run cs e) = sampleRate e.
Proof.
  induction cs as [|c cs IH]; intros e; cbn [run]; [reflexivity |].
  rewrite IH. apply sampleRate_exec.
Qed.

Lemma sampleRate_make sr u : sampleRate (make sr u) = sr.
Proof. reflexivity. Qed.

(** An idle envelope whose level is 0 is a fixed point of [advance]. *)
Lemma advance_idle e :
  state e = ENV_IDLE -> currentLevel e = 0 -> advance e = e.
Proof.
  intros Hst Hl. unfold advance. rewrite Hst.
  destruct e as [a d s r st l sr ai di ri rs]. cbn in *. subst.
  unfold set_level. cbn. f_equal. lra.
Qed.

(** The attack: [n] increments from the level at note-on, while they
    stay below 1. *)
Lemma attack_ramp e : state e = ENV_ATTACK ->
  forall n,
    currentLevel e + INR n * attackIncrement e < 1 ->
    0 <= attackIncrement e ->
    state (process_n n e) = ENV_ATTACK /\
    attackIncrement (process_n n e) = attackIncrement e /\
    currentLevel (process_n n e) = currentLevel e + INR n * attackIncrement e.
Proof.
  intros Hst n. induction n as [|n IH]; intros Hlt Hpos.
  - cbn [process_n INR]. repeat split; [exact Hst | lra].
  - rewrite S_INR in Hlt.
    destruct IH as (Hs & Hi & Hl); [nra | exact Hpos |].
    rewrite env_process_n_snoc.
    rewrite advance_attack_below; [| exact Hs | rewrite Hl, Hi; lra].
    cbn [state set_level attackIncrement currentLevel].
    repeat split; [exact Hs | exact Hi |].
    rewrite Hl, Hi, S_INR. lra.
Qed.

(** The decay: a linear ramp down to the sustain level. *)
Lemma decay_ramp e : state e = ENV_DECAY ->
  forall n,
   (state (process_n n e) = ENV_SUSTAIN /\
    currentLevel (process_n n e) = sustainLevel e /\
    sustainLevel (process_n n e) = sustainLevel e) \/
   (state (process_n n e) = ENV_DECAY /\
    decayIncrement (process_n n e) = decayIncrement e /\
    sustainLevel (process_n n e) = sustainLevel e /\
    currentLevel (process_n n e) =
      currentLevel e - INR n * decayIncrement e /\
    (n <> O -> sustainLevel e < currentLevel (process_n n e))).
Proof.
  intros Hst n. induction n as [|n IH].
  - right. cbn [process_n INR].
    repeat split; try assumption; try reflexivity; [lra |].
    intros Hn; contradiction.
  - rewrite env_process_n_snoc.
    destruct IH as [(Hs & Hl & Hsl)|(Hs & Hinc & Hsl & Hlev & Hpos)].
    + left. unfold advance. rewrite Hs.
      cbn [state set_level currentLevel sustainLevel].
      repeat split; assumption.
    + unfold advance. rewrite Hs.
      destruct (Rle_dec _ _) as [Hle|Hgt].
      * left. cbn [state set_state set_level currentLevel sustainLevel].
        repeat split; assumption.
      * right.
        cbn [state set_level decayIncrement currentLevel sustainLevel].
        repeat split; try assumption.
        -- rewrite Hlev, Hinc, S_INR. lra.
        -- intros _. rewrite <- Hsl. lra.
Qed.

Lemma decay_completes e : state e = ENV_DECAY -> currentLevel e <= 1 ->
  forall d, 0 < d ->
  decayIncrement e = (1 - sustainLevel e) / d ->
  sustainLevel e <= 1 ->
  forall n, d <= INR n ->
    state (process_n n e) = ENV_SUSTAIN /\
    currentLevel (process_n n e) = sustainLevel e.
Proof.
  intros Hst Hl d Hd Hinc Hs1 n Hn.
  destruct (decay_ramp e Hst n) as [(Hs & Hlev & _)|(Hs & _ & _ & Hlev & Hpos)];
    [split; assumption | exfalso].
  assert (Hn0 : n <> O).
  { intros ->. cbn [INR] in Hn. lra. }
  specialize (Hpos Hn0). rewrite Hlev, Hinc in Hpos.
  assert (Hq : 1 - sustainLevel e <= INR n * ((1 - sustainLevel e) / d)).
  { unfold Rdiv. rewrite <- Rmult_assoc, (Rmult_comm (INR n)), Rmult_assoc.
    rewrite <- (Rmult_1_r (1 - sustainLevel e)) at 1.
    apply Rmult_le_compat_l; [lra |].
    apply Rmult_le_reg_r with d; [exact Hd |].
    rewrite Rmult_assoc, Rinv_l; lra. }
  lra.
Qed.

(** A held note stays held under [process()]. *)
Lemma held_advance e : held e -> held (advance e).
Proof.
  unfold held, advance. intros [H|[H|H]]; rewrite H.
  - destruct (Rge_dec _ _); cbn; auto.
  - destruct (Rle_dec _ _); cbn; auto.
  - cbn. auto.
Qed.

Lemma held_process_n n : forall e, held e -> held (process_n n e).
Proof.
  induction n as [|n IH]; intros e He; [exact He |].
  rewrite env_process_n_S. apply IH, held_advance, He.
Qed.

Lemma held_active e : held e -> isActive e = true.
Proof. unfold held, isActive. intros [H|[H|H]]; rewrite H; reflexivity. Qed.

(** X2 (synth/envelope.h, every public method): in every state an
    envelope can reach from its constructor, the three times are at
    least 1 ms, the attack and decay increments are the ones
    [updateIncrements] computes from the current times and sustain
    level, and an idle envelope is at level 0. *)
Theorem envelope_increments_follow_times :
  forall (sr uninit : R) (cs : list call),
    timed (run cs (make sr uninit)).
Proof. intros sr u cs. apply timed_run, timed_make. Qed.

(** Past its attack, a held envelope is in Decay or Sustain and stays
    there under [process()]. *)
Lemma settling_advance e : settling e -> settling (advance e).
Proof.
  unfold settling, advance. intros [H|H]; rewrite H.
  - destruct (Rle_dec _ _); cbn; auto.
  - cbn. auto.
Qed.

(** The attack from its start to its end: after [n] calls the level is
    still on the ramp below 1, or the attack is over. *)
Lemma attack_course e : state e = ENV_ATTACK ->
  forall n,
   (state (process_n n e) = ENV_ATTACK /\
    attackIncrement (process_n n e) = attackIncrement e /\
    currentLevel (process_n n e) =
      currentLevel e + INR n * attackIncrement e /\
    (n <> O -> currentLevel (process_n n e) < 1)) \/
   settling (process_n n e).
Proof.
  intros Hst n. induction n as [|n IH].
  - left. cbn [process_n INR].
    repeat split; [exact Hst | lra | intros Hn; contradiction].
  - rewrite env_process_n_snoc.
    destruct IH as [(Hs & Hi & Hl & _)|Hset];
      [| right; apply settling_advance, Hset].
    unfold advance. rewrite Hs.
    destruct (Rge_dec _ _) as [Hge|Hlt].
    + right. left. reflexivity.
    + left. cbn [state set_level attackIncrement currentLevel].
      repeat split; [exact Hs | exact Hi | | intros _; lra].
      rewrite Hl, Hi, S_INR. lra.
Qed.

(** X3 (synth/envelope.h, [noteOn] and [process]): on an idle envelope
    reached from the constructor, [noteOn()] starts a linear attack of
    attackTime * sampleRate calls of [process()], to within one call.
    For a sample rate of at least 1 and an attack of at most a million
    samples: after [n] calls with [n] no more than
    attackTime * sampleRate - 1 the stage is Attack and the level is
    n / (attackTime * sampleRate); after [n] calls with [n] at least
    attackTime * sampleRate + 1 the attack is over, the envelope in
    Decay or Sustain. *)
Theorem attack_takes_attack_time :
  forall (sr uninit : R) (cs : list call), 1 <= sr ->
    let e := run cs (make sr uninit) in
    let T := attackTime e * sr in
    state e = ENV_IDLE ->
    T <= MAX_STAGE ->
    (forall n, INR n + 1 <= T ->
       state (process_n n (noteOn e)) = ENV_ATTACK /\
       currentLevel (process_n n (noteOn e)) = INR n / T) /\
    (forall n, T + 1 <= INR n -> settling (process_n n (noteOn e))).
Proof.
  intros sr u cs Hsr e T Hidle _.
  pose proof (timed_run cs _ (timed_make sr u)) as Ht. fold e in Ht.
  pose proof (sampleRate_run cs (make sr u)) as Hsre. fold e in Hsre.
  rewrite sampleRate_make in Hsre.
  destruct Ht as [Ha _ _ Hai _ Hz]. specialize (Hz Hidle).
  rewrite Hsre in Hai. fold T in Hai.
  assert (HT : 0 < T) by (unfold T; apply Rmult_lt_0_compat; lra).
  assert (Hst : state (noteOn e) = ENV_ATTACK) by reflexivity.
  assert (Hinc : attackIncrement (noteOn e) = 1 / T).
  { cbn [noteOn set_state attackIncrement]. rewrite Hai. lra. }
  assert (Hlev : currentLevel (noteOn e) = 0) by exact Hz.
  assert (Hpos : 0 <= attackIncrement (noteOn e)).
  { rewrite Hinc. apply div_nonneg; lra. }
  assert (Hscale : forall n, INR n * (1 / T) = INR n / T)
    by (intros; lra).
  assert (Hbelow : forall n, INR n < T -> INR n / T < 1).
  { intros n Hn. apply Rmult_lt_reg_r with T; [exact HT |].
    unfold Rdiv. rewrite Rmult_assoc, Rinv_l; lra. }
  assert (Habove : forall n, T <= INR n -> 1 <= INR n / T).
  { intros n Hn. apply Rmult_le_reg_r with T; [exact HT |].
    unfold Rdiv. rewrite Rmult_assoc, Rinv_l; lra. }
  split.
  - intros n Hn.
    assert (Hn' : INR n < T) by lra.
    destruct (attack_ramp (noteOn e) Hst n) as (Hs & _ & Hl);
      [rewrite Hlev, Hinc, Hscale; specialize (Hbelow n Hn'); lra
      | exact Hpos |].
    split; [exact Hs |]. rewrite Hl, Hlev, Hinc, Hscale. lra.
  - intros n Hn.
    destruct (attack_course (noteOn e) Hst n)
      as [(_ & _ & Hl & Hlt)|Hset]; [exfalso | exact Hset].
    assert (Hn0 : n <> O).
    { intros ->. cbn [INR] in Hn. lra. }
    specialize (Hlt Hn0). rewrite Hl, Hlev, Hinc, Hscale in Hlt.
    assert (Hge : 1 <= INR n / T) by (apply Habove; lra).
    lra.
Qed.

Lemma attack_takes_attack_time_witness :
  1 <= 1000 /\
  state (run [] (make 1000 0)) = ENV_IDLE /\
  attackTime (run [] (make 1000 0)) * 1000 <= MAX_STAGE /\
  state (process_n 9 (noteOn (run [] (make 1000 0)))) = ENV_ATTACK /\
  settling (process_n 11 (noteOn (run [] (make 1000 0)))).
Proof.
  assert (HT : attackTime (run [] (make 1000 0)) * 1000 <= MAX_STAGE).
  { cbn [run make updateIncrements attackTime]. unfold MAX_STAGE. lra. }
  destruct (attack_takes_attack_time 1000 0 [] ltac:(lra) eq_refl HT)
    as (Hramp & Hover).
  split; [lra |]. split; [reflexivity |]. split; [exact HT |]. split.
  - apply (Hramp 9%nat).
    cbn [run make updateIncrements attackTime].
    replace (INR 9) with 9 by (rewrite INR_IZR_INZ; reflexivity). lra.
  - apply (Hover 11%nat).
    cbn [run make updateIncrements attackTime].
    replace (INR 11) with 11 by (rewrite INR_IZR_INZ; reflexivity). lra.
Defined.

(** X4 (synth/envelope.h, [process], case ENV_DECAY): an envelope that
    is in its decay reaches the sustain stage, at exactly the sustain
    level, within decayTime * sampleRate + 1 calls of [process()], and
    then stays there for as long as [process()] is the only call; for
    a sample rate of at least 1, a decay of at most a million samples
    and a sustain level of at most 0.999, or of 1. *)
Theorem decay_takes_at_most_decay_time :
  forall (sr uninit : R) (cs : list call), 1 <= sr ->
    let e := run cs (make sr uninit) in
    let D := decayTime e * sr in
    state e = ENV_DECAY ->
    D <= MAX_STAGE ->
    ordinary_sustain (sustainLevel e) ->
    forall n, D + 1 <= INR n ->
      state (process_n n e) = ENV_SUSTAIN /\
      currentLevel (process_n n e) = sustainLevel e.
Proof.
  intros sr u cs Hsr e D Hdecay _ _ n Hn.
  pose proof (timed_run cs _ (timed_make sr u)) as Ht. fold e in Ht.
  assert (Hsr0 : 0 < sr) by lra.
  pose proof (well_formed_run cs _ (well_formed_make sr u Hsr0)) as Hw.
  fold e in Hw.
  pose proof (sampleRate_run cs (make sr u)) as Hsre. fold e in Hsre.
  rewrite sampleRate_make in Hsre.
  destruct Ht as [_ Hd _ _ Hdi _]. rewrite Hsre in Hdi.
  destruct Hw as [_ _ _ _ Hsus Hlvl _ _ _].
  apply (decay_completes e Hdecay) with (d := D);
    try lra; unfold D; try lra; apply Rmult_lt_0_compat; lra.
Qed.

Lemma decay_takes_at_most_decay_time_witness :
  1 <= 1000 /\
  state (run one_sample_attack (make 1000 0)) = ENV_DECAY /\
  decayTime (run one_sample_attack (make 1000 0)) * 1000 <= MAX_STAGE /\
  ordinary_sustain (sustainLevel (run one_sample_attack (make 1000 0))) /\
  state (process_n 101 (run one_sample_attack (make 1000 0))) = ENV_SUSTAIN.
Proof.
  assert (He : run one_sample_attack (make 1000 0) =
               set_state ENV_DECAY
                 (set_level 1.0 (noteOn (setAttack 0.0 (make 1000 0))))).
  { unfold one_sample_attack. cbn [run exec]. unfold process. cbn [snd].
    rewrite advance_attack_full; [reflexivity | reflexivity |].
    cbn [setAttack noteOn set_state set_attackTime updateIncrements make
         currentLevel attackIncrement attackTime sampleRate].
    rewrite Rmax_left by lra. lra. }
  assert (Hst : state (run one_sample_attack (make 1000 0)) = ENV_DECAY)
    by (rewrite He; reflexivity).
  assert (HD : decayTime (run one_sample_attack (make 1000 0)) * 1000
               <= MAX_STAGE).
  { rewrite He. cbn. unfold MAX_STAGE. lra. }
  assert (Hs : ordinary_sustain
                 (sustainLevel (run one_sample_attack (make 1000 0)))).
  { left. rewrite He. cbn. lra. }
  split; [lra |]. split; [exact Hst |]. split; [exact HD |].
  split; [exact Hs |].
  apply (decay_takes_at_most_decay_time 1000 0 one_sample_attack
           ltac:(lra) Hst HD Hs 101%nat).
  rewrite He. cbn [set_state set_level noteOn setAttack set_attackTime
                   updateIncrements make decayTime].
  replace (INR 101) with 101 by (rewrite INR_IZR_INZ; reflexivity). lra.
Defined.

(** X5 (synth/envelope.h, [process]): while a key is held, that is in
    the Attack, Decay or Sustain stage, no number of [process()] calls
    takes the envelope to Release or Idle: only [noteOff()] ends a
    note. *)
Theorem held_note_never_ends_by_itself :
  forall (e : t) (n : nat),
    held e ->
    held (process_n n e) /\ isActive (process_n n e) = true.
Proof.
  intros e n He. pose proof (held_process_n n e He) as H.
  split; [exact H | apply held_active, H].
Qed.

Lemma held_note_never_ends_by_itself_witness :
  held (noteOn (make 44100 0)) /\
  isActive (process_n 1000 (noteOn (make 44100 0))) = true.
Proof.
  assert (H : held (noteOn (make 44100 0))) by (left; reflexivity).
  split; [exact H |].
  apply (held_note_never_ends_by_itself (noteOn (make 44100 0)) 1000 H).
Defined.

(** X6 (synth/envelope.h, [process], case ENV_IDLE): on an idle
    envelope reached from the constructor, [process()] returns 0 and
    changes no member, however often it is called. *)
Theorem idle_envelope_is_a_fixed_point :
  forall (sr uninit : R) (cs : list call),
    let e := run cs (make sr uninit) in
    state e = ENV_IDLE ->
    process e = (0, e) /\ forall n, process_n n e = e.
Proof.
  intros sr u cs e Hidle.
  pose proof (timed_run cs _ (timed_make sr u)) as Ht. fold e in Ht.
  pose proof (tm_idle e Ht Hidle) as Hz.
  pose proof (advance_idle e Hidle Hz) as Ha.
  split.
  - unfold process. rewrite Ha, Hz. reflexivity.
  - intros n. induction n as [|n IH]; [reflexivity |].
    rewrite env_process_n_S, Ha. exact IH.
Qed.

Lemma idle_envelope_is_a_fixed_point_witness :
  state (run [] (make 44100 0)) = ENV_IDLE /\
  process (run [] (make 44100 0)) = (0, run [] (make 44100 0)).
Proof.
  split; [reflexivity |].
  apply (idle_envelope_is_a_fixed_point 44100 0 [] eq_refl).
Defined.

End EnvelopeStages.

(** ** Envelope: the release tail and the setters *)

Section ReleaseTail.

Import ADSREnvelope Terms Invariants.

Lemma same_tail_advance e1 e2 :
  same_tail e1 e2 -> same_tail (advance e1) (advance e2).
Proof.
  intros (Hs & Hl & Hr & [Hst|Hst]); unfold same_tail, advance;
    rewrite <- Hs, Hst.
  - rewrite <- Hl, <- Hr. destruct (Rle_dec _ _); cbn; auto.
  - cbn. auto.
Qed.

Lemma same_tail_setter c e1 e2 :
  tail_call c = true -> c <> Process ->
  same_tail e1 e2 -> same_tail (exec c e1) e2.
Proof.
  intros Hc Hp H. destruct c; try discriminate; try contradiction;
    exact H.
Qed.

Lemma same_tail_run cs : forall e1 e2,
  forallb tail_call cs = true -> same_tail e1 e2 ->
  same_tail (run cs e1) (process_n (processes cs) e2).
Proof.
  induction cs as [|c cs IH]; intros e1 e2 Hcs H; [exact H |].
  cbn [forallb] in Hcs. apply andb_true_iff in Hcs as [Hc Hcs].
  cbn [run].
  destruct c; try discriminate; cbn [processes];
    try (apply IH; [exact Hcs |]; apply same_tail_setter;
         [reflexivity | discriminate | exact H]).
  rewrite env_process_n_S. apply IH; [exact Hcs |].
  apply same_tail_advance, H.
Qed.

(** X7 (synth/envelope.h, [noteOff], [process] and the setters): the
    slope of a release is fixed by [noteOff()].  While the note fades,
    calls of [setAttack], [setDecay], [setSustain] and [setRelease],
    interleaved with [process()] in any way, leave the stage and the
    level of every sample what they would be without them. *)
Theorem release_ignores_setters :
  forall (e : t) (cs : list call),
    state e = ENV_RELEASE ->
    forallb tail_call cs = true ->
    state (run cs e) = state (process_n (processes cs) e) /\
    currentLevel (run cs e) = currentLevel (process_n (processes cs) e).
Proof.
  intros e cs Hst Hcs.
  destruct (same_tail_run cs e e Hcs) as (Hs & Hl & _).
  - repeat split; auto.
  - split; assumption.
Qed.

Lemma release_ignores_setters_witness :
  state fading = ENV_RELEASE /\
  forallb tail_call slider_moves = true /\
  currentLevel (run slider_moves fading) =
  currentLevel (process_n 2 fading).
Proof.
  assert (Hst : state fading = ENV_RELEASE).
  { unfold fading. cbn [run exec]. unfold process. cbn [snd].
    rewrite advance_attack_below; [reflexivity | reflexivity |].
    cbn. unfold SAMPLE_RATE. lra. }
  split; [exact Hst |]. split; [reflexivity |].
  apply (release_ignores_setters fading slider_moves Hst eq_refl).
Defined.

End ReleaseTail.

(** ** Oscillator: the phase in closed form *)

Section OscillatorCourse.

Import Oscillator Terms.

Lemma run_phase_at inc ms : forall o k,
  0 <= inc <= TWO_PI ->
  phaseIncrement o = inc -> phase o = phase_at inc k ->
  phase (run ms o) = phase_at inc (k + length ms).
Proof.
  induction ms as [|m ms IH]; intros o k Hinc Hi Hp; cbn [run length].
  - rewrite Nat.add_0_r. exact Hp.
  - replace (k + S (length ms))%nat with (S k + length ms)%nat by lia.
    apply IH; [exact Hinc | exact Hi |].
    rewrite phase_at_S by exact Hinc.
    unfold process. cbn [snd set_phase phase]. rewrite Hp, Hi. reflexivity.
Qed.

(** X1 (synth/oscillator.h, [process]): for a frequency between 0 and
    the sample rate, the phase after [n] calls of [process] is
    n * TWO_PI * f / sr reduced modulo TWO_PI, whatever modulation
    inputs the calls were given, and the next sample is the sine of
    that phase plus the modulation input. *)
Theorem oscillator_phase_closed_form :
  forall (f sr : R) (ms : list R) (m : R),
    0 < f -> f <= sr ->
    let o := run ms (make f sr) in
    phase o = phase_at (TWO_PI * f / sr) (length ms) /\
    fst (process o m) = sin (phase_at (TWO_PI * f / sr) (length ms) + m).
Proof.
  intros f sr ms m Hf Hsr o.
  assert (Hp : phase o = phase_at (TWO_PI * f / sr) (length ms)).
  { unfold o. apply (run_phase_at _ ms (make f sr) 0).
    - apply increment_within_turn; assumption.
    - apply make_phaseIncrement.
    - rewrite phase_at_0. reflexivity. }
  split; [exact Hp |]. rewrite process_sample, Hp. reflexivity.
Qed.

Lemma oscillator_phase_closed_form_witness :
  0 < 440 /\ 440 <= 44100 /\
  phase (run [0.5; 0.25] (make 440 44100)) =
  phase_at (TWO_PI * 440 / 44100) 2.
Proof.
  split; [lra |]. split; [lra |].
  apply (oscillator_phase_closed_form 440 44100 [0.5; 0.25] 0
           ltac:(lra) ltac:(lra)).
Defined.

End OscillatorCourse.

(** ** FM voice: what every reachable voice satisfies *)

Section VoiceInvariant.

Import Terms Invariants.

Lemma operator_ok_make f sr : operator_ok sr (Oscillator.make f sr).
Proof. split; reflexivity. Qed.

Lemma operator_ok_tick sr o : operator_ok sr o -> operator_ok sr (tick o).
Proof. intros [H1 H2]. split; [exact H1 | exact H2]. Qed.

Lemma operator_ok_setFrequency sr f o :
  operator_ok sr o -> operator_ok sr (Oscillator.setFrequency f o).
Proof.
  intros [H1 H2]. split; [exact H1 |].
  cbn [Oscillator.setFrequency Oscillator.updatePhaseIncrement
       Oscillator.phaseIncrement Oscillator.frequency
       Oscillator.sampleRate].
  rewrite H1. reflexivity.
Qed.

Lemma operator_ok_reset sr o :
  operator_ok sr o -> operator_ok sr (Oscillator.reset o).
Proof. intros [H1 H2]. split; [exact H1 | exact H2]. Qed.

Lemma held_advance_iff e : held (ADSREnvelope.advance e) <-> held e.
Proof.
  unfold held, ADSREnvelope.advance.
  destruct (ADSREnvelope.state e) eqn:Hst;
    try match goal with |- context [if ?c then _ else _] => destruct c end;
    cbn [ADSREnvelope.state ADSREnvelope.set_state ADSREnvelope.set_level];
    try rewrite Hst;
    split; intros [H|[H|H]]; try discriminate; auto.
Qed.

Lemma not_held_noteOff e : ~ held (ADSREnvelope.noteOff e).
Proof.
  unfold held, ADSREnvelope.noteOff.
  destruct (ADSREnvelope.state e) eqn:Hst;
    cbn [ADSREnvelope.state]; try rewrite Hst;
    intros [H|[H|H]]; discriminate.
Qed.

Lemma voice_ok_make f sr u :
  0 < sr -> voice_ok sr (FMSynth.make f sr u).
Proof.
  intros Hsr. constructor; cbn [FMSynth.make FMSynth.amplitude
    FMSynth.envelope FMSynth.prevSample1 FMSynth.op1 FMSynth.op2
    FMSynth.op3 FMSynth.op4 FMSynth.noteActive].
  - reflexivity.
  - apply well_formed_make, Hsr.
  - apply timed_make.
  - reflexivity.
  - lra.
  - apply operator_ok_make.
  - apply operator_ok_make.
  - apply operator_ok_make.
  - apply operator_ok_make.
  - split; [discriminate |]. intros [H|[H|H]]; discriminate.
  - discriminate.
Qed.

(** The voice left by [process()] on an active envelope. *)
Lemma process_named s :
  ADSREnvelope.isActive (FMSynth.envelope s) = true ->
  named_algorithm (FMSynth.algorithm s) ->
  exists g out1,
    -1 <= out1 <= 1 /\ -1.19 <= g <= 1.19 /\
    (FMSynth.algorithm s <> FMSynth.ALG_DUAL_CARRIER -> -1 <= g <= 1) /\
    FMSynth.process s =
      (g * FMSynth.amplitude s * envLevel s, stepped out1 s).
Proof.
  intros Ha [Hlo Hhi].
  assert (Hcase : FMSynth.algorithm s = 0%Z \/ FMSynth.algorithm s = 1%Z \/
                  FMSynth.algorithm s = 2%Z \/ FMSynth.algorithm s = 3%Z \/
                  FMSynth.algorithm s = 4%Z \/ FMSynth.algorithm s = 5%Z)
    by lia.
  destruct Hcase as [H|[H|[H|[H|[H|H]]]]].
  - pose proof (route_stack s Ha H) as Hr. cbv zeta in Hr.
    match type of Hr with _ = (?o * _ * _, _) =>
      exists o, o; pose proof (SIN_bound
        (ph1 s + (FMSynth.index2 s *
           sin (ph2 s + FMSynth.index3 s *
              sin (ph3 s + FMSynth.index4 s * sin (ph4 s + 0.0))) +
           FMSynth.index1 s * FMSynth.prevSample1 s))) end.
    split; [lra |]. split; [lra |]. split; [intros _; lra | exact Hr].
  - pose proof (route_twin s Ha H) as Hr. cbv zeta in Hr.
    match type of Hr with _ = (sin ?a * _ * _, _) =>
      exists (sin a), (sin a); pose proof (SIN_bound a) end.
    split; [lra |]. split; [lra |]. split; [intros _; lra | exact Hr].
  - pose proof (route_branch s Ha H) as Hr. cbv zeta in Hr.
    match type of Hr with _ = (sin ?a * _ * _, _) =>
      exists (sin a), (sin a); pose proof (SIN_bound a) end.
    split; [lra |]. split; [lra |]. split; [intros _; lra | exact Hr].
  - pose proof (route_parallel s Ha H) as Hr. cbv zeta in Hr.
    match type of Hr with _ = (sin ?a * _ * _, _) =>
      exists (sin a), (sin a); pose proof (SIN_bound a) end.
    split; [lra |]. split; [lra |]. split; [intros _; lra | exact Hr].
  - pose proof (route_dual s Ha H) as Hr. cbv zeta in Hr.
    match type of Hr with _ = ((sin ?a + sin ?b * 0.7) * _ * _ * 0.7, _) =>
      exists ((sin a + sin b * 0.7) * 0.7), (sin a);
      pose proof (SIN_bound a); pose proof (SIN_bound b) end.
    split; [lra |]. split; [lra |]. split; [intros Hn; contradiction |].
    rewrite Hr. f_equal. ring.
  - pose proof (route_triple s Ha H) as Hr. cbv zeta in Hr.
    match type of Hr with
      _ = ((sin ?a + sin ?b * 0.6 + sin ?c * 0.4) * _ * _ * 0.5, _) =>
      exists ((sin a + sin b * 0.6 + sin c * 0.4) * 0.5), (sin a);
      pose proof (SIN_bound a); pose proof (SIN_bound b);
      pose proof (SIN_bound c) end.
    split; [lra |]. split; [lra |]. split; [intros _; lra |].
    rewrite Hr. f_equal. ring.
Qed.

Lemma named_algorithm_dec a : named_algorithm a \/ ~ named_algorithm a.
Proof. unfold named_algorithm. lia. Qed.

Lemma voice_ok_set_envelope sr e s :
  voice_ok sr s ->
  well_formed e -> timed e -> ADSREnvelope.sampleRate e = sr ->
  (held e <-> held (FMSynth.envelope s)) ->
  voice_ok sr (FMSynth.set_envelope e s).
Proof.
  intros [Hamp _ _ _ Hprev H1 H2 H3 H4 Hheld Htuned] Hw Ht Hsr Hh.
  constructor; cbn [FMSynth.set_envelope FMSynth.amplitude
    FMSynth.envelope FMSynth.prevSample1 FMSynth.op1 FMSynth.op2
    FMSynth.op3 FMSynth.op4 FMSynth.noteActive FMSynth.currentFrequency
    FMSynth.ratio1 FMSynth.ratio2 FMSynth.ratio3 FMSynth.ratio4];
    try assumption.
  rewrite Hh. exact Hheld.
Qed.

Lemma voice_ok_stepped sr out1 s :
  voice_ok sr s -> -1 <= out1 <= 1 -> voice_ok sr (stepped out1 s).
Proof.
  intros [Hamp Hw Ht Hsr Hprev H1 H2 H3 H4 Hheld Htuned] Hout.
  unfold stepped, ADSREnvelope.process. cbn [snd].
  constructor; cbn [FMSynth.set_envelope FMSynth.set_prevSample1
    FMSynth.set_ops FMSynth.amplitude
    FMSynth.envelope FMSynth.prevSample1 FMSynth.op1 FMSynth.op2
    FMSynth.op3 FMSynth.op4 FMSynth.noteActive FMSynth.currentFrequency
    FMSynth.ratio1 FMSynth.ratio2 FMSynth.ratio3 FMSynth.ratio4];
    try assumption; try (apply operator_ok_tick; assumption).
  - apply (well_formed_exec ADSREnvelope.Process), Hw.
  - apply timed_advance, Ht.
  - rewrite <- Hsr.
    apply (sampleRate_exec ADSREnvelope.Process).
  - rewrite held_advance_iff. exact Hheld.
Qed.

Lemma voice_ok_process sr s :
  voice_ok sr s -> voice_ok sr (snd (FMSynth.process s)).
Proof.
  intros H.
  destruct (ADSREnvelope.isActive (FMSynth.envelope s)) eqn:Ha.
  - destruct (named_algorithm_dec (FMSynth.algorithm s)) as [Hn|Hn].
    + destruct (process_named s Ha Hn) as (g & out1 & Hout & _ & _ & Hp).
      rewrite Hp. cbn [snd]. apply voice_ok_stepped; assumption.
    + rewrite (process_invalid_selector s Ha Hn). cbn [snd].
      unfold ADSREnvelope.process. cbn [snd].
      apply voice_ok_set_envelope; [exact H | | | |].
      * apply (well_formed_exec ADSREnvelope.Process), (vo_envelope _ _ H).
      * apply timed_advance, (vo_timed _ _ H).
      * rewrite <- (vo_sampleRate _ _ H).
        apply (sampleRate_exec ADSREnvelope.Process).
      * apply held_advance_iff.
  - unfold FMSynth.process. rewrite Ha. exact H.
Qed.

Lemma voice_ok_noteOn sr f s :
  voice_ok sr s -> voice_ok sr (FMSynth.noteOn f s).
Proof.
  intros [Hamp Hw Ht Hsr Hprev H1 H2 H3 H4 Hheld Htuned].
  unfold FMSynth.noteOn.
  constructor; cbn [FMSynth.set_envelope FMSynth.set_prevSample1
    FMSynth.set_ops FMSynth.set_noteActive FMSynth.set_currentFrequency
    FMSynth.amplitude
    FMSynth.envelope FMSynth.prevSample1 FMSynth.op1 FMSynth.op2
    FMSynth.op3 FMSynth.op4 FMSynth.noteActive FMSynth.currentFrequency
    FMSynth.ratio1 FMSynth.ratio2 FMSynth.ratio3 FMSynth.ratio4];
    try assumption;
    try (apply operator_ok_reset, operator_ok_setFrequency; assumption).
  - apply (well_formed_exec ADSREnvelope.NoteOn), Hw.
  - apply (timed_exec ADSREnvelope.NoteOn), Ht.
  - lra.
  - split; [intros _; left; reflexivity | reflexivity].
  - intros _. repeat split; reflexivity.
Qed.

Lemma voice_ok_noteOff sr s :
  voice_ok sr s -> voice_ok sr (FMSynth.noteOff s).
Proof.
  intros [Hamp Hw Ht Hsr Hprev H1 H2 H3 H4 Hheld Htuned].
  unfold FMSynth.noteOff.
  constructor; cbn [FMSynth.set_envelope FMSynth.set_prevSample1
    FMSynth.set_ops FMSynth.set_noteActive FMSynth.set_currentFrequency
    FMSynth.amplitude
    FMSynth.envelope FMSynth.prevSample1 FMSynth.op1 FMSynth.op2
    FMSynth.op3 FMSynth.op4 FMSynth.noteActive FMSynth.currentFrequency
    FMSynth.ratio1 FMSynth.ratio2 FMSynth.ratio3 FMSynth.ratio4];
    try assumption.
  - apply (well_formed_exec ADSREnvelope.NoteOff), Hw.
  - apply (timed_exec ADSREnvelope.NoteOff), Ht.
  - rewrite <- Hsr. apply (sampleRate_exec ADSREnvelope.NoteOff).
  - split; [discriminate |]. intros Hh. exfalso.
    exact (not_held_noteOff _ Hh).
  - discriminate.
Qed.

Ltac voice_ok_fields :=
  constructor; cbn [FMSynth.set_envelope FMSynth.set_prevSample1
    FMSynth.set_ops FMSynth.set_noteActive FMSynth.set_currentFrequency
    FMSynth.set_ratios FMSynth.set_indices FMSynth.set_algorithm
    FMSynth.amplitude
    FMSynth.envelope FMSynth.prevSample1 FMSynth.op1 FMSynth.op2
    FMSynth.op3 FMSynth.op4 FMSynth.noteActive FMSynth.currentFrequency
    FMSynth.ratio1 FMSynth.ratio2 FMSynth.ratio3 FMSynth.ratio4];
  try assumption;
  try (apply operator_ok_setFrequency; assumption).

Lemma voice_ok_apply sr p s :
  voice_ok sr s -> voice_ok sr (VoiceCalls.apply p s).
Proof.
  intros H. pose proof H as [Hamp Hw Ht Hsr Hprev H1 H2 H3 H4 Hheld Htuned].
  destruct p; cbn [VoiceCalls.apply].
  - unfold FMSynth.setRatio1.
    cbn [FMSynth.set_ratios FMSynth.noteActive].
    destruct (FMSynth.noteActive s) eqn:Hna; voice_ok_fields;
      try (rewrite Hna; exact Hheld); try (rewrite Hna; discriminate).
    intros _. destruct (Htuned eq_refl) as (T1 & T2 & T3 & T4).
    repeat split; try assumption; reflexivity.
  - unfold FMSynth.setRatio2.
    cbn [FMSynth.set_ratios FMSynth.noteActive].
    destruct (FMSynth.noteActive s) eqn:Hna; voice_ok_fields;
      try (rewrite Hna; exact Hheld); try (rewrite Hna; discriminate).
    intros _. destruct (Htuned eq_refl) as (T1 & T2 & T3 & T4).
    repeat split; try assumption; reflexivity.
  - unfold FMSynth.setRatio3.
    cbn [FMSynth.set_ratios FMSynth.noteActive].
    destruct (FMSynth.noteActive s) eqn:Hna; voice_ok_fields;
      try (rewrite Hna; exact Hheld); try (rewrite Hna; discriminate).
    intros _. destruct (Htuned eq_refl) as (T1 & T2 & T3 & T4).
    repeat split; try assumption; reflexivity.
  - unfold FMSynth.setRatio4.
    cbn [FMSynth.set_ratios FMSynth.noteActive].
    destruct (FMSynth.noteActive s) eqn:Hna; voice_ok_fields;
      try (rewrite Hna; exact Hheld); try (rewrite Hna; discriminate).
    intros _. destruct (Htuned eq_refl) as (T1 & T2 & T3 & T4).
    repeat split; try assumption; reflexivity.
  - unfold FMSynth.setIndex1. voice_ok_fields.
  - unfold FMSynth.setIndex2. voice_ok_fields.
  - unfold FMSynth.setIndex3. voice_ok_fields.
  - unfold FMSynth.setIndex4. voice_ok_fields.
  - unfold FMSynth.setAlgorithm. voice_ok_fields.
  - unfold FMSynth.setAttack. apply voice_ok_set_envelope; [exact H | | | |].
    + apply (well_formed_exec (ADSREnvelope.SetAttack seconds)), Hw.
    + apply (timed_exec (ADSREnvelope.SetAttack seconds)), Ht.
    + exact Hsr.
    + reflexivity.
  - unfold FMSynth.setDecay. apply voice_ok_set_envelope; [exact H | | | |].
    + apply (well_formed_exec (ADSREnvelope.SetDecay seconds)), Hw.
    + apply (timed_exec (ADSREnvelope.SetDecay seconds)), Ht.
    + exact Hsr.
    + reflexivity.
  - unfold FMSynth.setSustain. apply voice_ok_set_envelope; [exact H | | | |].
    + apply (well_formed_exec (ADSREnvelope.SetSustain level)), Hw.
    + apply (timed_exec (ADSREnvelope.SetSustain level)), Ht.
    + exact Hsr.
    + reflexivity.
  - unfold FMSynth.setRelease. apply voice_ok_set_envelope; [exact H | | | |].
    + apply (well_formed_exec (ADSREnvelope.SetRelease seconds)), Hw.
    + apply (timed_exec (ADSREnvelope.SetRelease seconds)), Ht.
    + exact Hsr.
    + reflexivity.
Qed.

Lemma voice_ok_exec sr c s :
  voice_ok sr s -> voice_ok sr (VoiceCalls.exec c s).
Proof.
  intros H. destruct c; cbn [VoiceCalls.exec].
  - apply voice_ok_noteOn, H.
  - apply voice_ok_noteOff, H.
  - apply voice_ok_process, H.
  - apply voice_ok_apply, H.
Qed.

Lemma voice_ok_run sr cs : forall s,
  voice_ok sr s -> voice_ok sr (VoiceCalls.run cs s).
Proof.
  induction cs as [|c cs IH]; intros s H; cbn [VoiceCalls.run];
    [exact H |].
  apply IH, voice_ok_exec, H.
Qed.

End VoiceInvariant.

(** ** FM voice: one call of [process()] *)

Section VoiceStep.

Import Terms Invariants.

Lemma sin_origin x : x = 0 -> sin x = 0.
Proof. intros ->. apply sin_0. Qed.

(** X8 (synth/fm_synth.h, [noteOn] and [process]): the first sample
    after [noteOn] is 0, whatever the routing, the modulation indices,
    the ratios, the frequency and the earlier history of the voice:
    every phase and the feedback sample restart from 0. *)
Theorem first_sample_after_noteOn_is_zero :
  forall (s : FMSynth.t) (freq : R),
    fst (FMSynth.process (FMSynth.noteOn freq s)) = 0.
Proof.
  intros s freq. set (s1 := FMSynth.noteOn freq s).
  assert (Ha : ADSREnvelope.isActive (FMSynth.envelope s1) = true)
    by reflexivity.
  assert (P1 : ph1 s1 = 0) by reflexivity.
  assert (P2 : ph2 s1 = 0) by reflexivity.
  assert (P3 : ph3 s1 = 0) by reflexivity.
  assert (P4 : ph4 s1 = 0) by reflexivity.
  assert (Pp : FMSynth.prevSample1 s1 = 0.0) by reflexivity.
  assert (S4 : sin (ph4 s1 + 0.0) = 0) by (apply sin_origin; lra).
  destruct (named_algorithm_dec (FMSynth.algorithm s1)) as [[Hlo Hhi]|Hn];
    [| rewrite (process_invalid_selector s1 Ha Hn); reflexivity].
  assert (Hcase : FMSynth.algorithm s1 = 0%Z \/ FMSynth.algorithm s1 = 1%Z \/
                  FMSynth.algorithm s1 = 2%Z \/ FMSynth.algorithm s1 = 3%Z \/
                  FMSynth.algorithm s1 = 4%Z \/ FMSynth.algorithm s1 = 5%Z)
    by lia.
  destruct Hcase as [H|[H|[H|[H|[H|H]]]]].
  - rewrite (route_stack s1 Ha H). cbn [fst].
    rewrite S4, P3, P2, P1, Pp.
    assert (S3 : sin (0 + FMSynth.index4 s1 * 0) = 0)
      by (apply sin_origin; lra).
    rewrite S3.
    assert (S2 : sin (0 + FMSynth.index3 s1 * 0) = 0)
      by (apply sin_origin; lra).
    rewrite S2.
    assert (S1 : sin (0 + (FMSynth.index2 s1 * 0 +
                           FMSynth.index1 s1 * 0.0)) = 0)
      by (apply sin_origin; lra).
    rewrite S1. lra.
  - rewrite (route_twin s1 Ha H). cbn [fst].
    rewrite S4, P3, P2, P1, Pp.
    assert (S3 : sin (0 + FMSynth.index4 s1 * 0) = 0)
      by (apply sin_origin; lra).
    rewrite S3.
    assert (S2 : sin (0 + 0.0) = 0) by (apply sin_origin; lra).
    rewrite S2.
    assert (S1 : sin (0 + (FMSynth.index3 s1 * 0 + FMSynth.index2 s1 * 0 +
                           FMSynth.index1 s1 * 0.0)) = 0)
      by (apply sin_origin; lra).
    rewrite S1. lra.
  - rewrite (route_branch s1 Ha H). cbn [fst].
    rewrite S4, P3, P2, P1, Pp.
    assert (S3 : sin (0 + FMSynth.index4 s1 * 0) = 0)
      by (apply sin_origin; lra).
    rewrite S3.
    assert (S1 : sin (0 + (FMSynth.index3 s1 * 0 + FMSynth.index2 s1 * 0 +
                           FMSynth.index1 s1 * 0.0)) = 0)
      by (apply sin_origin; lra).
    rewrite S1. lra.
  - rewrite (route_parallel s1 Ha H). cbn [fst].
    rewrite S4, P3, P2, P1, Pp.
    assert (S2 : sin (0 + 0.0) = 0) by (apply sin_origin; lra).
    rewrite S2.
    assert (S1 : sin (0 + (FMSynth.index2 s1 * 0 + FMSynth.index3 s1 * 0 +
                           FMSynth.index4 s1 * 0 +
                           FMSynth.index1 s1 * 0.0)) = 0)
      by (apply sin_origin; lra).
    rewrite S1. lra.
  - rewrite (route_dual s1 Ha H). cbn [fst].
    rewrite S4, P3, P2, P1, Pp.
    assert (S3 : sin (0 + FMSynth.index4 s1 * 0) = 0)
      by (apply sin_origin; lra).
    rewrite S3.
    assert (S2 : sin (0 + 0.0) = 0) by (apply sin_origin; lra).
    rewrite S2.
    assert (S1 : sin (0 + (FMSynth.index2 s1 * 0 +
                           FMSynth.index1 s1 * 0.0)) = 0)
      by (apply sin_origin; lra).
    rewrite S1. lra.
  - rewrite (route_triple s1 Ha H). cbn [fst].
    rewrite S4, P3, P2, P1, Pp.
    assert (S3 : sin (0 + FMSynth.index4 s1 * 0) = 0)
      by (apply sin_origin; lra).
    rewrite S3.
    assert (S1 : sin (0 + (FMSynth.index4 s1 * 0 +
                           FMSynth.index1 s1 * 0.0)) = 0)
      by (apply sin_origin; lra).
    rewrite S1. lra.
Qed.

(** X9 (synth/fm_synth.h, [process]): under each of the six routings
    one call of [process()] on an active voice advances each of the
    four oscillators by exactly its own increment, with one wrap,
    advances the envelope by one sample, stores in [prevSample1] a
    value of [-1, 1], and writes none of the control members (ratios,
    indices, selector, amplitude, note flag, base frequency). *)
Theorem process_steps_each_operator_once :
  forall s : FMSynth.t,
    ADSREnvelope.isActive (FMSynth.envelope s) = true ->
    named_algorithm (FMSynth.algorithm s) ->
    let s' := snd (FMSynth.process s) in
    let step o :=
      Oscillator.set_phase
        (Oscillator.wrap (Oscillator.phase o + Oscillator.phaseIncrement o))
        o in
    (FMSynth.op1 s' = step (FMSynth.op1 s) /\
     FMSynth.op2 s' = step (FMSynth.op2 s) /\
     FMSynth.op3 s' = step (FMSynth.op3 s) /\
     FMSynth.op4 s' = step (FMSynth.op4 s)) /\
    FMSynth.envelope s' = ADSREnvelope.advance (FMSynth.envelope s) /\
    -1 <= FMSynth.prevSample1 s' <= 1 /\
    (FMSynth.ratio1 s', FMSynth.ratio2 s', FMSynth.ratio3 s',
     FMSynth.ratio4 s') =
    (FMSynth.ratio1 s, FMSynth.ratio2 s, FMSynth.ratio3 s,
     FMSynth.ratio4 s) /\
    (FMSynth.index1 s', FMSynth.index2 s', FMSynth.index3 s',
     FMSynth.index4 s') =
    (FMSynth.index1 s, FMSynth.index2 s, FMSynth.index3 s,
     FMSynth.index4 s) /\
    FMSynth.algorithm s' = FMSynth.algorithm s /\
    FMSynth.amplitude s' = FMSynth.amplitude s /\
    FMSynth.noteActive s' = FMSynth.noteActive s /\
    FMSynth.currentFrequency s' = FMSynth.currentFrequency s.
Proof.
  intros s Ha Hn s' step.
  destruct (process_named s Ha Hn) as (g & out1 & Hout & _ & _ & Hp).
  unfold s'. rewrite Hp. cbn [snd]. unfold stepped.
  cbn [FMSynth.set_envelope FMSynth.set_prevSample1 FMSynth.set_ops
       FMSynth.op1 FMSynth.op2 FMSynth.op3 FMSynth.op4 FMSynth.envelope
       FMSynth.prevSample1 FMSynth.ratio1 FMSynth.ratio2 FMSynth.ratio3
       FMSynth.ratio4 FMSynth.index1 FMSynth.index2 FMSynth.index3
       FMSynth.index4 FMSynth.algorithm FMSynth.amplitude
       FMSynth.noteActive FMSynth.currentFrequency].
  repeat split; try reflexivity; try lra.
Qed.

Lemma process_steps_each_operator_once_witness :
  ADSREnvelope.isActive (FMSynth.envelope held_voice) = true /\
  named_algorithm (FMSynth.algorithm held_voice) /\
  FMSynth.envelope (snd (FMSynth.process held_voice)) =
  ADSREnvelope.advance (FMSynth.envelope held_voice).
Proof.
  assert (Ha : ADSREnvelope.isActive (FMSynth.envelope held_voice) = true)
    by reflexivity.
  assert (Hn : named_algorithm (FMSynth.algorithm held_voice))
    by (cbn; unfold named_algorithm; lia).
  split; [exact Ha |]. split; [exact Hn |].
  apply (process_steps_each_operator_once held_voice Ha Hn).
Defined.

(** The envelope of a voice runs as the envelope class alone would. *)
Lemma envelope_process s :
  timed (FMSynth.envelope s) ->
  FMSynth.envelope (snd (FMSynth.process s)) =
  ADSREnvelope.advance (FMSynth.envelope s).
Proof.
  intros Ht.
  destruct (ADSREnvelope.isActive (FMSynth.envelope s)) eqn:Ha.
  - destruct (named_algorithm_dec (FMSynth.algorithm s)) as [Hn|Hn].
    + destruct (process_named s Ha Hn) as (g & out1 & _ & _ & _ & Hp).
      rewrite Hp. reflexivity.
    + rewrite (process_invalid_selector s Ha Hn). reflexivity.
  - unfold FMSynth.process. rewrite Ha. cbn [negb snd].
    unfold ADSREnvelope.isActive in Ha.
    destruct (ADSREnvelope.state (FMSynth.envelope s)) eqn:Hst;
      try discriminate.
    symmetry. apply advance_idle; [exact Hst | apply (tm_idle _ Ht Hst)].
Qed.

Lemma envelope_process_n n : forall s,
  timed (FMSynth.envelope s) ->
  FMSynth.envelope (FMSynth.process_n n s) =
  ADSREnvelope.process_n n (FMSynth.envelope s).
Proof.
  induction n as [|n IH]; intros s Ht; [reflexivity |].
  cbn [FMSynth.process_n]. rewrite IH.
  - rewrite envelope_process by exact Ht. reflexivity.
  - rewrite envelope_process by exact Ht. apply timed_advance, Ht.
Qed.

(** The sample of a voice against the level of its envelope. *)
Lemma sample_bound s :
  FMSynth.amplitude s = 0.3 ->
  well_formed (FMSynth.envelope s) ->
  Rabs (fst (FMSynth.process s)) <= 0.357 * envLevel s /\
  (FMSynth.algorithm s <> FMSynth.ALG_DUAL_CARRIER ->
   Rabs (fst (FMSynth.process s)) <= 0.3 * envLevel s) /\
  0 <= envLevel s <= 1.
Proof.
  intros Hamp Hw.
  assert (HL : 0 <= envLevel s <= 1).
  { unfold envLevel, ADSREnvelope.process. cbn [fst].
    apply (wf_currentLevel _ (well_formed_exec ADSREnvelope.Process _ Hw)). }
  assert (Hzero : Rabs 0 <= 0.357 * envLevel s /\
                  (FMSynth.algorithm s <> FMSynth.ALG_DUAL_CARRIER ->
                   Rabs 0 <= 0.3 * envLevel s) /\
                  0 <= envLevel s <= 1).
  { rewrite Rabs_R0. repeat split; try lra; intros _; lra. }
  destruct (ADSREnvelope.isActive (FMSynth.envelope s)) eqn:Ha.
  - destruct (named_algorithm_dec (FMSynth.algorithm s)) as [Hn|Hn].
    + destruct (process_named s Ha Hn) as (g & out1 & _ & Hg & Hg1 & Hp).
      rewrite Hp. cbn [fst]. rewrite Hamp.
      split; [| split; [intros Hd; specialize (Hg1 Hd) | exact HL]];
        apply Rabs_le; nra.
    + rewrite (process_invalid_selector s Ha Hn). exact Hzero.
  - unfold FMSynth.process. rewrite Ha. cbn [negb fst].
    rewrite zero_lit. exact Hzero.
Qed.



(** X11 (synth/fm_synth.h, [noteOn], [noteOff], [setRatio1] to
    [setRatio4]): in every state a voice can reach, the flag
    [noteActive] is set exactly while the envelope is in Attack, Decay
    or Sustain, and while it is set every operator runs at
    currentFrequency * ratio with the phase increment
    TWO_PI * currentFrequency * ratio / sampleRate: a ratio change on a
    held note retunes at once. *)
Theorem held_voice_follows_ratios :
  forall (freq sr uninit : R) (cs : list VoiceCalls.call),
    0 < sr ->
    let s := VoiceCalls.run cs (FMSynth.make freq sr uninit) in
    let inc r := TWO_PI * (FMSynth.currentFrequency s * r) / sr in
    (FMSynth.noteActive s = true <-> held (FMSynth.envelope s)) /\
    (FMSynth.noteActive s = true ->
     Oscillator.phaseIncrement (FMSynth.op1 s) = inc (FMSynth.ratio1 s) /\
     Oscillator.phaseIncrement (FMSynth.op2 s) = inc (FMSynth.ratio2 s) /\
     Oscillator.phaseIncrement (FMSynth.op3 s) = inc (FMSynth.ratio3 s) /\
     Oscillator.phaseIncrement (FMSynth.op4 s) = inc (FMSynth.ratio4 s)).
Proof.
  intros freq sr u cs Hsr s inc.
  pose proof (voice_ok_run sr cs _ (voice_ok_make freq sr u Hsr)) as H.
  fold s in H.
  destruct H as [_ _ _ _ _ [_ I1] [_ I2] [_ I3] [_ I4] Hheld Htuned].
  split; [exact Hheld |]. intros Hna.
  destruct (Htuned Hna) as (T1 & T2 & T3 & T4). unfold inc.
  rewrite I1, I2, I3, I4, T1, T2, T3, T4. repeat split; reflexivity.
Qed.

Lemma held_voice_follows_ratios_witness :
  0 < 44100 /\
  Oscillator.phaseIncrement
    (FMSynth.op2
       (VoiceCalls.run
          [VoiceCalls.NoteOn 220;
           VoiceCalls.Control (VoiceCalls.SetRatio2 3.5)]
          (FMSynth.make 440 44100 0))) =
  TWO_PI * (220 * 3.5) / 44100.
Proof.
  split; [lra |].
  apply (held_voice_follows_ratios 440 44100 0
           [VoiceCalls.NoteOn 220;
            VoiceCalls.Control (VoiceCalls.SetRatio2 3.5)] ltac:(lra)).
  reflexivity.
Defined.

(** [noteOff()] on an envelope that is not idle. *)
Lemma noteOff_active e :
  ADSREnvelope.state e <> ADSREnvelope.ENV_IDLE ->
  0 < ADSREnvelope.releaseTime e ->
  ADSREnvelope.state (ADSREnvelope.noteOff e) = ADSREnvelope.ENV_RELEASE /\
  ADSREnvelope.currentLevel (ADSREnvelope.noteOff e) =
    ADSREnvelope.currentLevel e /\
  ADSREnvelope.releaseIncrement (ADSREnvelope.noteOff e) =
    ADSREnvelope.currentLevel e /
    (ADSREnvelope.releaseTime e * ADSREnvelope.sampleRate e).
Proof.
  intros Hst Hr. unfold ADSREnvelope.noteOff.
  destruct (ADSREnvelope.state e); try contradiction;
    cbn [ADSREnvelope.state ADSREnvelope.currentLevel
         ADSREnvelope.releaseIncrement];
    (destruct (Rgt_dec _ _); [repeat split; reflexivity | lra]).
Qed.

(** The whole release, from any stage. *)
Lemma noteOff_completes e n :
  well_formed e -> timed e ->
  ADSREnvelope.releaseTime e * ADSREnvelope.sampleRate e <= INR n ->
  ADSREnvelope.state (ADSREnvelope.process_n n (ADSREnvelope.noteOff e)) =
  ADSREnvelope.ENV_IDLE.
Proof.
  intros Hw Ht Hn.
  assert (Hdec : ADSREnvelope.state e = ADSREnvelope.ENV_IDLE \/
                 ADSREnvelope.state e <> ADSREnvelope.ENV_IDLE).
  { destruct (ADSREnvelope.state e); auto; right; discriminate. }
  destruct Hdec as [Hst|Hst].
  - assert (Hoff : ADSREnvelope.noteOff e = e).
    { unfold ADSREnvelope.noteOff. rewrite Hst. reflexivity. }
    rewrite Hoff. apply idle_stays; [exact Hst | apply (tm_idle _ Ht Hst)].
  - destruct (noteOff_active e Hst (wf_releaseTime _ Hw)) as (Hs & Hl & Hi).
    apply (release_completes (ADSREnvelope.noteOff e) Hs)
      with (d := ADSREnvelope.releaseTime e * ADSREnvelope.sampleRate e).
    + rewrite Hl. apply (wf_currentLevel _ Hw).
    + apply Rmult_lt_0_compat;
        [apply (wf_releaseTime _ Hw) | apply (wf_sampleRate _ Hw)].
    + rewrite Hi, Hl. reflexivity.
    + exact Hn.
Qed.

(** X12 (synth/fm_synth.h, [noteOff], [process], [isActive]): after
    [noteOff()] a voice is inactive once [process()] has been called
    releaseTime * sampleRate + 1 times, under every routing and also
    under a selector that names none; from then on [process()] returns
    0 and changes nothing, so the slot can be reused.  For a sample
    rate of at least 1, a release of at most a million samples and a
    level at note-off that is 0 or at least 1e-300. *)
Theorem released_voice_falls_silent :
  forall (freq sr uninit : R) (cs : list VoiceCalls.call) (n : nat),
    1 <= sr ->
    let s := VoiceCalls.run cs (FMSynth.make freq sr uninit) in
    let d := ADSREnvelope.releaseTime (FMSynth.envelope s) * sr in
    d <= Ranges.MAX_STAGE ->
    Ranges.ordinary_level (ADSREnvelope.currentLevel (FMSynth.envelope s)) ->
    d + 1 <= INR n ->
    let s' := FMSynth.process_n n (FMSynth.noteOff s) in
    FMSynth.isActive s' = false /\ FMSynth.process s' = (0, s').
Proof.
  intros freq sr u cs n Hsr s d _ _ Hn s'.
  assert (Hsr0 : 0 < sr) by lra.
  pose proof (voice_ok_run sr cs _ (voice_ok_make freq sr u Hsr0)) as H.
  fold s in H.
  pose proof (voice_ok_noteOff sr s H) as Hoff.
  assert (Hidle : ADSREnvelope.state (FMSynth.envelope s') =
                  ADSREnvelope.ENV_IDLE).
  { unfold s'. rewrite envelope_process_n by apply (vo_timed _ _ Hoff).
    cbn [FMSynth.noteOff FMSynth.set_envelope FMSynth.set_noteActive
         FMSynth.envelope].
    apply noteOff_completes;
      [apply (vo_envelope _ _ H) | apply (vo_timed _ _ H) |].
    rewrite (vo_sampleRate _ _ H). fold d. lra. }
  assert (Hin : FMSynth.isActive s' = false).
  { unfold FMSynth.isActive, ADSREnvelope.isActive. rewrite Hidle.
    reflexivity. }
  split; [exact Hin |].
  unfold FMSynth.process. unfold FMSynth.isActive in Hin. rewrite Hin.
  cbn [negb]. rewrite zero_lit. reflexivity.
Qed.

Lemma released_voice_falls_silent_witness :
  1 <= 1000 /\
  ADSREnvelope.currentLevel
    (FMSynth.envelope
       (VoiceCalls.run [VoiceCalls.NoteOn 440; VoiceCalls.Process]
          (FMSynth.make 440 1000 0))) = 0.1 /\
  ADSREnvelope.releaseTime
    (FMSynth.envelope
       (VoiceCalls.run [VoiceCalls.NoteOn 440; VoiceCalls.Process]
          (FMSynth.make 440 1000 0)))
    * 1000 + 1 <= INR 301 /\
  FMSynth.isActive
    (FMSynth.process_n 301
       (FMSynth.noteOff
          (VoiceCalls.run [VoiceCalls.NoteOn 440; VoiceCalls.Process]
             (FMSynth.make 440 1000 0)))) = false.
Proof.
  assert (He : FMSynth.envelope
                 (VoiceCalls.run [VoiceCalls.NoteOn 440; VoiceCalls.Process]
                    (FMSynth.make 440 1000 0)) =
               ADSREnvelope.set_level (0 + 1.0 / (0.01 * 1000))
                 (ADSREnvelope.noteOn (ADSREnvelope.make 1000 0))).
  { cbn [VoiceCalls.run VoiceCalls.exec].
    rewrite envelope_process.
    - rewrite advance_attack_below; [| reflexivity |].
      + cbn. f_equal; lra.
      + cbn. lra.
    - apply (vo_timed 1000), voice_ok_noteOn, voice_ok_make. lra. }
  assert (Hl : ADSREnvelope.currentLevel
    (FMSynth.envelope
       (VoiceCalls.run [VoiceCalls.NoteOn 440; VoiceCalls.Process]
          (FMSynth.make 440 1000 0))) = 0.1).
  { rewrite He. cbn. lra. }
  assert (Hn : ADSREnvelope.releaseTime
    (FMSynth.envelope
       (VoiceCalls.run [VoiceCalls.NoteOn 440; VoiceCalls.Process]
          (FMSynth.make 440 1000 0)))
    * 1000 + 1 <= INR 301).
  { rewrite He. cbn.
    replace (INR 301) with 301 by (rewrite INR_IZR_INZ; reflexivity).
    lra. }
  assert (Hmax : ADSREnvelope.releaseTime
    (FMSynth.envelope
       (VoiceCalls.run [VoiceCalls.NoteOn 440; VoiceCalls.Process]
          (FMSynth.make 440 1000 0)))
    * 1000 <= Ranges.MAX_STAGE).
  { rewrite He. cbn. unfold Ranges.MAX_STAGE. lra. }
  assert (Hord : Ranges.ordinary_level
    (ADSREnvelope.currentLevel
       (FMSynth.envelope
          (VoiceCalls.run [VoiceCalls.NoteOn 440; VoiceCalls.Process]
             (FMSynth.make 440 1000 0))))).
  { right. rewrite Hl. unfold Ranges.MIN_LEVEL. lra. }
  split; [lra |]. split; [exact Hl |]. split; [exact Hn |].
  apply (released_voice_falls_silent 440 1000 0
           [VoiceCalls.NoteOn 440; VoiceCalls.Process]
           301 ltac:(lra) Hmax Hord Hn).
Defined.

End VoiceStep.

(** ** Voice pool: sessions *)

Section PoolSession.

Import Pool Terms Invariants.

Lemma length_update i f : forall vs, length (update i f vs) = length vs.
Proof.
  revert i. intros i vs. revert i.
  induction vs as [|v vs IH]; intros [|i]; cbn [update length];
    try reflexivity.
  rewrite IH. reflexivity.
Qed.

Lemma mixVoices_snd vs : forall acc,
  snd (mixVoices vs acc) =
  map (fun v => mkVoice (snd (FMSynth.process (synth v))) (note v)) vs.
Proof.
  induction vs as [|v vs IH]; intros acc; [reflexivity |].
  cbn [mixVoices map].
  destruct (FMSynth.process (synth v)) as [x s'] eqn:Hp.
  specialize (IH (acc + x)).
  destruct (mixVoices vs (acc + x)) as [total rest'].
  cbn [snd] in *. rewrite IH. reflexivity.
Qed.

Lemma mixVoices_fst v vs acc :
  fst (mixVoices (v :: vs) acc) =
  fst (mixVoices vs (acc + fst (FMSynth.process (synth v)))).
Proof.
  cbn [mixVoices].
  destruct (FMSynth.process (synth v)) as [x s'].
  cbn [fst]. destruct (mixVoices vs (acc + x)) as [total rest'].
  reflexivity.
Qed.

Lemma length_exec ev vs : length (Pool.exec ev vs) = length vs.
Proof.
  destruct ev; cbn [Pool.exec].
  - unfold voiceNoteOn. destruct (_ >=? 0)%Z; [reflexivity |].
    rewrite !length_update. reflexivity.
  - unfold voiceNoteOff. destruct (_ >=? 0)%Z; [| reflexivity].
    rewrite !length_update. reflexivity.
  - rewrite mixVoices_snd. apply length_map.
Qed.

Lemma length_session_exec ev vs : length (Session.exec ev vs) = length vs.
Proof.
  destruct ev; cbn [Session.exec]; [apply length_exec |].
  unfold Session.push. apply length_update.
Qed.

Lemma slot_map {A B : Type} (f : A -> B) vs i :
  slot (map f vs) i = option_map f (slot vs i).
Proof. unfold slot. apply nth_error_map. Qed.

Lemma distinct_notes_update (f : Voice -> Voice) k vs :
  (forall v, note (f v) = note v) ->
  distinct_notes vs -> distinct_notes (update k f vs).
Proof.
  intros Hf H i j vi vj Hi Hj Heq Hne.
  assert (Hnote : forall m w, slot (update k f vs) m = Some w ->
            exists w', slot vs m = Some w' /\ note w' = note w).
  { intros m w Hw. rewrite slot_update in Hw.
    destruct (k =? m)%nat; [| exists w; split; [exact Hw | reflexivity]].
    destruct (slot vs m) as [w'|]; [| discriminate].
    cbn in Hw. injection Hw as <-. exists w'.
    split; [reflexivity | symmetry; apply Hf]. }
  destruct (Hnote i vi Hi) as (wi & Ei & Ni).
  destruct (Hnote j vj Hj) as (wj & Ej & Nj).
  apply (H i j wi wj Ei Ej); congruence.
Qed.

Lemma distinct_notes_session_exec ev vs :
  distinct_notes vs -> distinct_notes (Session.exec ev vs).
Proof.
  destruct ev; cbn [Session.exec]; [apply distinct_notes_exec |].
  apply distinct_notes_update. reflexivity.
Qed.

Lemma pool_ok_map (f : Voice -> Voice) vs :
  (forall v, voice_ok SAMPLE_RATE (synth v) ->
             voice_ok SAMPLE_RATE (synth (f v))) ->
  pool_ok vs -> pool_ok (map f vs).
Proof.
  intros Hf H i v Hi. rewrite slot_map in Hi.
  destruct (slot vs i) as [w|] eqn:Ei; [| discriminate].
  cbn in Hi. injection Hi as <-. apply Hf, (H i w Ei).
Qed.

Lemma pool_ok_update k (f : Voice -> Voice) vs :
  (forall v, voice_ok SAMPLE_RATE (synth v) ->
             voice_ok SAMPLE_RATE (synth (f v))) ->
  pool_ok vs -> pool_ok (update k f vs).
Proof.
  intros Hf H i v Hi. rewrite slot_update in Hi.
  destruct (k =? i)%nat; [| exact (H i v Hi)].
  destruct (slot vs i) as [w|] eqn:Ei; [| discriminate].
  cbn in Hi. injection Hi as <-. apply Hf, (H i w Ei).
Qed.

Lemma pool_ok_exec ev vs : pool_ok vs -> pool_ok (Pool.exec ev vs).
Proof.
  intros H. destruct ev; cbn [Pool.exec].
  - unfold voiceNoteOn. destruct (_ >=? 0)%Z; [exact H |].
    apply pool_ok_update; [intros v Hv; exact Hv |].
    apply pool_ok_update; [| exact H].
    intros v Hv. apply voice_ok_noteOn, Hv.
  - unfold voiceNoteOff. destruct (_ >=? 0)%Z; [| exact H].
    apply pool_ok_update; [intros v Hv; exact Hv |].
    apply pool_ok_update; [| exact H].
    intros v Hv. apply voice_ok_noteOff, Hv.
  - rewrite mixVoices_snd. apply pool_ok_map; [| exact H].
    intros v Hv. apply voice_ok_process, Hv.
Qed.

Lemma pool_ok_session_exec ev vs :
  pool_ok vs -> pool_ok (Session.exec ev vs).
Proof.
  intros H. destruct ev; cbn [Session.exec]; [apply pool_ok_exec, H |].
  apply pool_ok_update; [| exact H].
  intros w Hw. apply voice_ok_apply, Hw.
Qed.

Lemma pool_ok_initial u : pool_ok (initial u).
Proof.
  intros i v Hi. apply slot_repeat in Hi. subst v.
  apply voice_ok_make, SAMPLE_RATE_pos.
Qed.

(** What a session keeps. *)
Lemma session_run_keeps (P : voices -> Prop) :
  (forall ev vs, P vs -> P (Session.exec ev vs)) ->
  forall evs vs, P vs -> P (Session.run evs vs).
Proof.
  intros Hstep evs. induction evs as [|ev evs IH]; intros vs H;
    cbn [Session.run]; [exact H |].
  apply IH, Hstep, H.
Qed.

Lemma isNoteActive_true n vs :
  Session.isNoteActive n vs = true <->
  exists i v, slot vs i = Some v /\ note v = n.
Proof.
  unfold Session.isNoteActive. split.
  - destruct (scan _ vs 0) as [k|] eqn:Hk; [| discriminate].
    intros _. destruct (scan_some _ _ _ _ Hk) as (_ & (v & Hv & Hp) & _).
    exists (k - 0)%nat, v. split; [exact Hv |]. apply Z.eqb_eq, Hp.
  - intros (i & v & Hv & Hn).
    destruct (scan _ vs 0) as [k|] eqn:Hk; [reflexivity |].
    pose proof (scan_none _ _ _ Hk i v Hv) as Hp. cbn in Hp.
    apply Z.eqb_neq in Hp. contradiction.
Qed.

Lemma isNoteActive_false n vs :
  Session.isNoteActive n vs = false <-> not_held n vs.
Proof.
  split.
  - intros H i v Hv Hn.
    assert (Ht : Session.isNoteActive n vs = true)
      by (apply isNoteActive_true; exists i, v; auto).
    congruence.
  - intros H. destruct (Session.isNoteActive n vs) eqn:E; [| reflexivity].
    apply isNoteActive_true in E as (i & v & Hv & Hn).
    exfalso. exact (H i v Hv Hn).
Qed.

Lemma findVoiceWithNote_none n vs :
  not_held n vs -> (findVoiceWithNote n vs >=? 0)%Z = false.
Proof.
  intros H. destruct (findVoiceWithNote n vs >=? 0)%Z eqn:E;
    [| reflexivity].
  destruct (findVoiceWithNote_present n vs E) as (v & Hv & Hn).
  exfalso. exact (H _ v Hv Hn).
Qed.

Lemma voiceNoteOff_absent n vs : not_held n vs -> voiceNoteOff n vs = vs.
Proof.
  intros H. unfold voiceNoteOff.
  rewrite (findVoiceWithNote_none n vs H). reflexivity.
Qed.

(** The slot a key-up goes through. *)
Lemma voiceNoteOff_present n vs k v :
  distinct_notes vs -> n <> (-1)%Z ->
  slot vs k = Some v -> note v = n ->
  voiceNoteOff n vs =
  update k (fun x => mkVoice (FMSynth.noteOff (synth x)) (-1)) vs.
Proof.
  intros Hd Hn Hk Hv. unfold voiceNoteOff.
  assert (E : (findVoiceWithNote n vs >=? 0)%Z = true).
  { apply Z.geb_le. pose proof (findVoiceWithNote_found n vs k v Hk Hv).
    lia. }
  rewrite E.
  destruct (findVoiceWithNote_present n vs E) as (w & Hw & Hwn).
  assert (Hi : Z.to_nat (findVoiceWithNote n vs) = k).
  { apply (Hd _ _ w v Hw Hk); [congruence | congruence]. }
  rewrite Hi, update_update. reflexivity.
Qed.

(** X14 (fm_synth_gui.cpp, [voiceNoteOn], [voiceNoteOff],
    [audioCallback] and the parameter loop of [main]): through any
    interleaving of key events, rendered frames and setter calls on
    single voices the pool keeps its six slots and no two slots carry
    the same note. *)
Theorem session_keeps_pool_shape :
  forall (uninit : R) (evs : list Session.event),
    let vs := Session.run evs (initial uninit) in
    length vs = NUM_VOICES /\ distinct_notes vs.
Proof.
  intros u evs vs. split.
  - unfold vs.
    apply (session_run_keeps (fun vs => length vs = NUM_VOICES)).
    + intros ev vs0 H. rewrite length_session_exec. exact H.
    + apply repeat_length.
  - unfold vs. apply (session_run_keeps distinct_notes).
    + intros ev vs0. apply distinct_notes_session_exec.
    + apply distinct_notes_unassigned. apply initial_unassigned.
Qed.

(** X15 (fm_synth_gui.cpp, [voiceNoteOn] and [isNoteActive]): after
    [voiceNoteOn(note, freq)] on a pool with at least one slot,
    [isNoteActive(note)] is true: a key-down is never dropped, if need
    be at the price of the note in slot 0. *)
Theorem key_down_is_never_dropped :
  forall (vs : voices) (n : Z) (freq : R),
    (0 < length vs)%nat ->
    Session.isNoteActive n (voiceNoteOn n freq vs) = true.
Proof.
  intros vs n freq Hlen.
  destruct (Session.isNoteActive n vs) eqn:E.
  - pose proof E as E'. apply isNoteActive_true in E' as (i & v & Hv & Hn).
    rewrite (voiceNoteOn_present n freq vs i v Hv Hn). exact E.
  - apply isNoteActive_false in E.
    rewrite (voiceNoteOn_absent n freq vs E).
    destruct (findFreeVoice_in_range vs Hlen) as (v & Hv).
    apply isNoteActive_true.
    exists (findFreeVoice vs), (assign n freq v). split; [| reflexivity].
    apply slot_update_same, Hv.
Qed.

Lemma key_down_is_never_dropped_witness :
  (0 < length (initial 0))%nat /\
  Session.isNoteActive 60 (voiceNoteOn 60 261.63 (initial 0)) = true.
Proof.
  assert (H : (0 < length (initial 0))%nat) by (cbn; lia).
  split; [exact H |].
  apply (key_down_is_never_dropped (initial 0) 60 261.63 H).
Defined.

(** X16 (fm_synth_gui.cpp, [voiceNoteOff] and [isNoteActive]): on a
    pool whose notes are distinct, [voiceNoteOff(note)] for a real note
    (not the sentinel -1) leaves no slot with that note; for a note no
    slot carries it changes nothing. *)
Theorem key_up_releases_the_note :
  forall (vs : voices) (n : Z),
    distinct_notes vs -> n <> (-1)%Z ->
    Session.isNoteActive n (voiceNoteOff n vs) = false /\
    (Session.isNoteActive n vs = false -> voiceNoteOff n vs = vs).
Proof.
  intros vs n Hd Hn. split.
  - destruct (Session.isNoteActive n vs) eqn:E.
    + apply isNoteActive_true in E as (k & v & Hk & Hv).
      rewrite (voiceNoteOff_present n vs k v Hd Hn Hk Hv).
      apply isNoteActive_false. intros i w Hw Hwn.
      rewrite slot_update in Hw.
      destruct (k =? i)%nat eqn:Eki.
      * destruct (slot vs i); [| discriminate]. cbn in Hw.
        injection Hw as <-. cbn in Hwn. congruence.
      * apply Nat.eqb_neq in Eki. apply Eki.
        apply (Hd k i v w Hk Hw); congruence.
    + apply isNoteActive_false in E.
      rewrite (voiceNoteOff_absent n vs E).
      apply isNoteActive_false, E.
  - intros E. apply voiceNoteOff_absent, isNoteActive_false, E.
Qed.

Lemma key_up_releases_the_note_witness :
  distinct_notes pressed /\ 60%Z <> (-1)%Z /\
  Session.isNoteActive 60 (voiceNoteOff 60 pressed) = false.
Proof.
  assert (Hd : distinct_notes pressed).
  { apply distinct_notes_run, distinct_notes_unassigned.
    apply initial_unassigned. }
  assert (Hn : 60%Z <> (-1)%Z) by lia.
  split; [exact Hd |]. split; [exact Hn |].
  apply (key_up_releases_the_note pressed 60 Hd Hn).
Defined.

Lemma isActive_noteOff s :
  FMSynth.isActive (FMSynth.noteOff s) = FMSynth.isActive s.
Proof.
  unfold FMSynth.isActive, FMSynth.noteOff, ADSREnvelope.isActive,
    ADSREnvelope.noteOff.
  cbn [FMSynth.set_envelope FMSynth.set_noteActive FMSynth.envelope].
  destruct (ADSREnvelope.state (FMSynth.envelope s)) eqn:Hst;
    cbn [ADSREnvelope.state]; try rewrite Hst; reflexivity.
Qed.

Lemma level_noteOff s :
  FMSynth.getEnvelopeLevel (FMSynth.noteOff s) = FMSynth.getEnvelopeLevel s.
Proof.
  unfold FMSynth.getEnvelopeLevel, ADSREnvelope.getLevel, FMSynth.noteOff,
    ADSREnvelope.noteOff.
  cbn [FMSynth.set_envelope FMSynth.set_noteActive FMSynth.envelope].
  destruct (ADSREnvelope.state (FMSynth.envelope s)); reflexivity.
Qed.

(** X17 (fm_synth_gui.cpp, [voiceNoteOff]; synth/fm_synth.h,
    [noteOff]): a key-up frees the slot of the note without silencing
    its voice: the slot's note becomes -1 while the voice is as active
    as before, at the same envelope level and with its four oscillators
    untouched; every other slot is unchanged. *)
Theorem key_up_frees_a_sounding_slot :
  forall (vs : voices) (n : Z) (k : nat) (v : Voice),
    distinct_notes vs -> n <> (-1)%Z ->
    slot vs k = Some v -> note v = n ->
    let vs' := voiceNoteOff n vs in
    (exists v', slot vs' k = Some v' /\ note v' = (-1)%Z /\
       FMSynth.isActive (synth v') = FMSynth.isActive (synth v) /\
       FMSynth.getEnvelopeLevel (synth v') =
         FMSynth.getEnvelopeLevel (synth v) /\
       (FMSynth.op1 (synth v'), FMSynth.op2 (synth v'),
        FMSynth.op3 (synth v'), FMSynth.op4 (synth v')) =
       (FMSynth.op1 (synth v), FMSynth.op2 (synth v),
        FMSynth.op3 (synth v), FMSynth.op4 (synth v))) /\
    (forall j, j <> k -> slot vs' j = slot vs j).
Proof.
  intros vs n k v Hd Hn Hk Hv vs'. unfold vs'.
  rewrite (voiceNoteOff_present n vs k v Hd Hn Hk Hv). split.
  - exists (mkVoice (FMSynth.noteOff (synth v)) (-1)).
    split; [exact (slot_update_same vs k _ v Hk) |]. cbn [note synth].
    split; [reflexivity |]. split; [apply isActive_noteOff |].
    split; [apply level_noteOff | reflexivity].
  - intros j Hj. apply slot_update_other. congruence.
Qed.

Lemma key_up_frees_a_sounding_slot_witness :
  distinct_notes pressed /\ 60%Z <> (-1)%Z /\
  (forall j, j <> 0%nat ->
     slot (voiceNoteOff 60 pressed) j = slot pressed j).
Proof.
  assert (Hd : distinct_notes pressed).
  { apply distinct_notes_run, distinct_notes_unassigned.
    apply initial_unassigned. }
  assert (Hn : 60%Z <> (-1)%Z) by lia.
  split; [exact Hd |]. split; [exact Hn |].
  apply (key_up_frees_a_sounding_slot pressed 60 0
           (mkVoice (FMSynth.noteOn 261.63
                       (FMSynth.make 440.0 SAMPLE_RATE 0)) 60)
           Hd Hn eq_refl eq_refl).
Defined.

Lemma findFreeVoice_full vs :
  (forall i v, slot vs i = Some v -> note v <> (-1)%Z) ->
  findFreeVoice vs = 0%nat.
Proof.
  intros Hfull. unfold findFreeVoice.
  destruct (scan is_free_and_silent vs 0) as [k|] eqn:E1.
  - destruct (scan_some _ _ _ _ E1) as (_ & (v & Hv & Hp) & _).
    apply is_free_and_silent_true in Hp as [Hp _].
    exfalso. exact (Hfull _ v Hv Hp).
  - destruct (scan is_free vs 0) as [k|] eqn:E2; [| reflexivity].
    destruct (scan_some _ _ _ _ E2) as (_ & (v & Hv & Hp) & _).
    apply is_free_true in Hp.
    exfalso. exact (Hfull _ v Hv Hp).
Qed.

(** X18 (fm_synth_gui.cpp, [findFreeVoice], [voiceNoteOn],
    [voiceNoteOff]): when every slot carries a note, a new note takes
    slot 0 and retriggers its voice; the note slot 0 carried is then in
    no slot, and its later key-up changes nothing: the stolen note
    cannot release the voice that now plays the new one. *)
Theorem full_pool_steals_slot_0 :
  forall (vs : voices) (n : Z) (freq : R) (v0 : Voice),
    distinct_notes vs ->
    (forall i v, slot vs i = Some v -> note v <> (-1)%Z) ->
    not_held n vs ->
    slot vs 0 = Some v0 ->
    let vs' := voiceNoteOn n freq vs in
    slot vs' 0 = Some (mkVoice (FMSynth.noteOn freq (synth v0)) n) /\
    (forall j, j <> 0%nat -> slot vs' j = slot vs j) /\
    not_held (note v0) vs' /\
    voiceNoteOff (note v0) vs' = vs'.
Proof.
  intros vs n freq v0 Hd Hfull Hn H0 vs'.
  assert (E : vs' = update 0 (assign n freq) vs).
  { unfold vs'. rewrite (voiceNoteOn_absent n freq vs Hn).
    rewrite (findFreeVoice_full vs Hfull). reflexivity. }
  assert (Hnh : not_held (note v0) vs').
  { intros i w Hw Hwn. rewrite E, slot_update in Hw.
    destruct i as [|i]; cbn [Nat.eqb] in Hw.
    - rewrite H0 in Hw. cbn in Hw. injection Hw as <-. cbn in Hwn.
      apply (Hn 0%nat v0 H0). congruence.
    - assert (S i = 0)%nat; [| discriminate].
      apply (Hd (S i) 0%nat w v0 Hw H0 Hwn).
      rewrite Hwn. apply (Hfull 0%nat v0 H0). }
  split; [rewrite E; exact (slot_update_same vs 0 _ v0 H0) |].
  split; [intros j Hj; rewrite E; apply slot_update_other; congruence |].
  split; [exact Hnh | apply voiceNoteOff_absent, Hnh].
Qed.

Lemma full_pool_steals_slot_0_witness :
  let vs := [mkVoice fresh_voice 60] in
  distinct_notes vs /\
  (forall i v, slot vs i = Some v -> note v <> (-1)%Z) /\
  not_held 62 vs /\
  voiceNoteOff 60 (voiceNoteOn 62 293.66 vs) = voiceNoteOn 62 293.66 vs.
Proof.
  intros vs.
  assert (Hone : forall i v, slot vs i = Some v -> note v = 60%Z).
  { intros [|[|i]] v Hv; cbn in Hv; try discriminate.
    injection Hv as <-. reflexivity. }
  assert (Hd : distinct_notes vs).
  { intros [|[|i]] [|[|j]] vi vj Hi Hj; cbn in Hi, Hj; try discriminate.
    reflexivity. }
  assert (Hfull : forall i v, slot vs i = Some v -> note v <> (-1)%Z).
  { intros i v Hv. rewrite (Hone i v Hv). lia. }
  assert (Hn : not_held 62 vs).
  { intros i v Hv. rewrite (Hone i v Hv). lia. }
  split; [exact Hd |]. split; [exact Hfull |]. split; [exact Hn |].
  apply (full_pool_steals_slot_0 vs 62 293.66 (mkVoice fresh_voice 60)
           Hd Hfull Hn eq_refl).
Defined.

Lemma Rabs_le_bounds a b : Rabs a <= b -> - b <= a <= b.
Proof. unfold Rabs. destruct (Rcase_abs a); lra. Qed.

Lemma mix_within vs : forall acc,
  (forall i v, slot vs i = Some v ->
     FMSynth.amplitude (synth v) = 0.3 /\
     well_formed (FMSynth.envelope (synth v))) ->
  Rabs (fst (mixVoices vs acc) - acc) <= 0.357 * INR (length vs).
Proof.
  induction vs as [|v vs IH]; intros acc H.
  - cbn [mixVoices fst length INR].
    replace (acc - acc) with 0 by lra. rewrite Rabs_R0. lra.
  - rewrite mixVoices_fst.
    destruct (H 0%nat v eq_refl) as [Hamp Hw].
    destruct (sample_bound (synth v) Hamp Hw) as (Hx & _ & HL).
    set (x := fst (FMSynth.process (synth v))) in *.
    assert (Hrest : Rabs (fst (mixVoices vs (acc + x)) - (acc + x))
                    <= 0.357 * INR (length vs)).
    { apply IH. intros i w Hi. exact (H (S i) w Hi). }
    change (length (v :: vs)) with (S (length vs)). rewrite S_INR.
    apply Rabs_le. apply Rabs_le_bounds in Hrest.
    assert (Hx1 : Rabs x <= 0.357) by nra.
    apply Rabs_le_bounds in Hx1. lra.
Qed.

(** X19 (fm_synth_gui.cpp, [audioCallback]): in every state of a
    session the frame sample that leaves the voice loop and the 0.4
    scaling, before filter and effects, is at most 6 * 0.357 * 0.4 =
    0.8568 in absolute value. *)
Theorem mixdown_bounded :
  forall (uninit : R) (evs : list Session.event),
    Rabs (fst (Session.mixdown (Session.run evs (initial uninit))))
    <= 0.8568.
Proof.
  intros u evs.
  set (vs := Session.run evs (initial u)).
  assert (Hok : pool_ok vs).
  { apply (session_run_keeps pool_ok);
      [intros ev vs0; apply pool_ok_session_exec | apply pool_ok_initial]. }
  assert (Hlen : length vs = NUM_VOICES).
  { apply (session_run_keeps (fun vs => length vs = NUM_VOICES)).
    - intros ev vs0 H. rewrite length_session_exec. exact H.
    - apply repeat_length. }
  assert (Hmix : Rabs (fst (mixVoices vs 0.0) - 0.0) <= 0.357 * INR 6).
  { change 6%nat with NUM_VOICES. rewrite <- Hlen. apply mix_within.
    intros i v Hv. pose proof (Hok i v Hv) as H.
    split; [apply (vo_amplitude _ _ H) | apply (vo_envelope _ _ H)]. }
  unfold Session.mixdown.
  destruct (mixVoices vs 0.0) as [sample vs'] eqn:E. cbn [fst] in *.
  apply Rabs_le. apply Rabs_le_bounds in Hmix.
  replace (INR 6) with 6 in Hmix by (cbn; lra). lra.
Qed.

(** X20 (fm_synth_gui.cpp, [audioCallback]; synth/fm_synth.h,
    [process]): a frame rendered on a pool whose voices are all
    inactive adds nothing to the sample and changes no voice. *)
Theorem idle_pool_renders_silence :
  forall (vs : voices) (sample : R),
    (forall i v, slot vs i = Some v ->
       FMSynth.isActive (synth v) = false) ->
    mixVoices vs sample = (sample, vs).
Proof.
  induction vs as [|v vs IH]; intros sample H; [reflexivity |].
  cbn [mixVoices].
  assert (Hp : FMSynth.process (synth v) = (0.0, synth v)).
  { unfold FMSynth.process.
    pose proof (H 0%nat v eq_refl) as Hv. unfold FMSynth.isActive in Hv.
    rewrite Hv. reflexivity. }
  rewrite Hp.
  replace (sample + 0.0) with sample by lra.
  rewrite IH; [destruct v; reflexivity |].
  intros i w Hi. exact (H (S i) w Hi).
Qed.

Lemma idle_pool_renders_silence_witness :
  (forall i v, slot (initial 0) i = Some v ->
     FMSynth.isActive (synth v) = false) /\
  mixVoices (initial 0) 0 = (0, initial 0).
Proof.
  assert (H : forall i v, slot (initial 0) i = Some v ->
                          FMSynth.isActive (synth v) = false).
  { intros i v Hv. apply slot_repeat in Hv. subst v. reflexivity. }
  split; [exact H |].
  apply (idle_pool_renders_silence (initial 0) 0 H).
Defined.

End PoolSession.

(** ** The two-operator program in general *)

Section TwoOperatorCourse.

Import Terms.

Lemma two_operator_course n : forall s ic im,
  TwoOperator.isActive s = true ->
  Oscillator.phaseIncrement (TwoOperator.carrier s) = ic ->
  Oscillator.phaseIncrement (TwoOperator.modulator s) = im ->
  0 <= ic <= TWO_PI -> 0 <= im <= TWO_PI ->
  Oscillator.phase (TwoOperator.carrier s) = 0 ->
  Oscillator.phase (TwoOperator.modulator s) = 0 ->
  let s' := TwoOperator.process_n n s in
  TwoOperator.isActive s' = true /\
  TwoOperator.modulationIndex s' = TwoOperator.modulationIndex s /\
  TwoOperator.amplitude s' = TwoOperator.amplitude s /\
  Oscillator.phaseIncrement (TwoOperator.carrier s') = ic /\
  Oscillator.phaseIncrement (TwoOperator.modulator s') = im /\
  Oscillator.phase (TwoOperator.carrier s') = phase_at ic n /\
  Oscillator.phase (TwoOperator.modulator s') = phase_at im n.
Proof.
  induction n as [|n IH]; intros s ic im Ha Hic Him Rc Rm Pc Pm s'.
  - unfold s'. cbn [TwoOperator.process_n]. rewrite !phase_at_0.
    repeat split; assumption.
  - unfold s'. rewrite two_process_n_snoc.
    destruct (IH s ic im Ha Hic Him Rc Rm Pc Pm)
      as (Ha' & Hi' & Hm' & Hic' & Him' & Pc' & Pm').
    set (sn := TwoOperator.process_n n s) in *.
    unfold TwoOperator.process. rewrite Ha'. cbn [negb].
    unfold Oscillator.process.
    cbn [fst snd TwoOperator.carrier TwoOperator.modulator
         TwoOperator.isActive TwoOperator.modulationIndex
         TwoOperator.amplitude Oscillator.phase Oscillator.phaseIncrement
         Oscillator.set_phase].
    repeat split; try assumption.
    + rewrite Pc', Hic', phase_at_S by exact Rc. reflexivity.
    + rewrite Pm', Him', phase_at_S by exact Rm. reflexivity.
Qed.

(** X13 (fm_synth.cpp, the two-operator program: [noteOn] and
    [process]): with the carrier frequency and the modulator frequency
    freq * modRatio both above 0 and at most the sample rate, sample
    number [n] after [noteOn(freq, modRatio)] is
    0.3 * sin(pc + I * sin(pm)), where I is the modulation index given
    to the constructor and pc, pm are [n] phase increments of the
    carrier and of the modulator reduced modulo TWO_PI; the frequency
    and ratio given to the constructor play no part. *)
Theorem two_operator_sample_closed_form :
  forall (freq0 ratio0 index sr freq modRatio : R) (n : nat),
    0 < freq <= sr -> 0 < freq * modRatio <= sr ->
    TwoOperator.sample n
      (TwoOperator.noteOn freq modRatio
         (TwoOperator.make freq0 ratio0 index sr)) =
    0.3 * sin (phase_at (TWO_PI * freq / sr) n +
               index * sin (phase_at (TWO_PI * (freq * modRatio) / sr) n)).
Proof.
  intros freq0 ratio0 index sr freq modRatio n [Hf0 Hf1] [Hm0 Hm1].
  set (s := TwoOperator.noteOn freq modRatio
              (TwoOperator.make freq0 ratio0 index sr)).
  destruct (two_operator_course n s (TWO_PI * freq / sr)
              (TWO_PI * (freq * modRatio) / sr))
    as (Ha & Hi & Hamp & _ & _ & Pc & Pm); try reflexivity;
    try (apply increment_within_turn; assumption).
  unfold TwoOperator.sample, TwoOperator.process. rewrite Ha. cbn [negb].
  unfold Oscillator.process. cbn [fst]. rewrite Hi, Hamp, Pc, Pm.
  cbn [s TwoOperator.noteOn TwoOperator.make TwoOperator.modulationIndex
       TwoOperator.amplitude].
  replace (phase_at (TWO_PI * (freq * modRatio) / sr) n + 0.0)
    with (phase_at (TWO_PI * (freq * modRatio) / sr) n) by lra.
  ring.
Qed.

Lemma two_operator_sample_closed_form_witness :
  0 < 440 <= 44100 /\ 0 < 440 * 2 <= 44100 /\
  TwoOperator.sample 0
    (TwoOperator.noteOn 440 2 (TwoOperator.make 220 3 1.5 44100)) =
  0.3 * sin (phase_at (TWO_PI * 440 / 44100) 0 +
             1.5 * sin (phase_at (TWO_PI * (440 * 2) / 44100) 0)).
Proof.
  assert (H1 : 0 < 440 <= 44100) by lra.
  assert (H2 : 0 < 440 * 2 <= 44100) by lra.
  split; [exact H1 |]. split; [exact H2 |].
  apply (two_operator_sample_closed_form 220 3 1.5 44100 440 2 0 H1 H2).
Defined.

End TwoOperatorCourse.

(** ** Waveform ring buffer *)

Section RingBuffer.

Import WaveformBuffer.

Lemma checked_in_range z :
  (Int.min_int <= z <= Int.max_int)%Z -> Int.checked z = Some z.
Proof.
  intros H. unfold Int.checked, Int.in_range.
  destruct (Int.min_int <=? z)%Z eqn:E1; [| apply Z.leb_gt in E1; lia].
  destruct (z <=? Int.max_int)%Z eqn:E2; [| apply Z.leb_gt in E2; lia].
  reflexivity.
Qed.

Lemma int_bounds : Int.min_int = (-2147483648)%Z /\
                   Int.max_int = 2147483647%Z.
Proof. split; reflexivity. Qed.

Lemma two_30 : (2 ^ 30 = 1073741824)%Z.
Proof. reflexivity. Qed.

(** A sum below twice the modulus wraps at most once. *)
Lemma rem_wrap a s :
  (0 <= a < 2 * s)%Z -> (0 < s)%Z ->
  Z.rem a s = if (a <? s)%Z then a else (a - s)%Z.
Proof.
  intros Ha Hs. rewrite Z.rem_mod_nonneg by lia.
  destruct (a <? s)%Z eqn:E.
  - apply Z.ltb_lt in E. apply Z.mod_small. lia.
  - apply Z.ltb_ge in E.
    replace a with ((a - s) + 1 * s)%Z at 1 by lia.
    rewrite Z.mod_add by lia. apply Z.mod_small. lia.
Qed.

Lemma int_add_small a b :
  (Int.min_int <= a + b <= Int.max_int)%Z -> Int.add a b = Some (a + b)%Z.
Proof. intros H. unfold Int.add. apply checked_in_range, H. Qed.

Lemma int_rem_wrap a s :
  (0 <= a < 2 * s)%Z -> (0 < s <= Int.max_int)%Z ->
  Int.rem a s = Some (if (a <? s)%Z then a else (a - s)%Z).
Proof.
  intros Ha Hs. destruct int_bounds as [Hmin Hmax]. unfold Int.rem.
  destruct (s =? 0)%Z eqn:E0; [apply Z.eqb_eq in E0; lia |].
  destruct (a =? Int.min_int)%Z eqn:E1; [apply Z.eqb_eq in E1; lia |].
  cbn [orb andb]. rewrite rem_wrap by lia.
  apply checked_in_range.
  destruct (a <? s)%Z eqn:E;
    [apply Z.ltb_lt in E | apply Z.ltb_ge in E]; lia.
Qed.

Lemma set_nth_spec {A : Type} (x : A) : forall (v : list A) (n : nat),
  (n < length v)%nat ->
  exists v', Vec.set_nth n x v = Some v' /\
    length v' = length v /\
    nth_error v' n = Some x /\
    forall m, m <> n -> nth_error v' m = nth_error v m.
Proof.
  induction v as [|y v IH]; intros n Hn; cbn [length] in Hn; [lia |].
  destruct n as [|n]; cbn [Vec.set_nth].
  - exists (x :: v). repeat split; try reflexivity.
    intros [|m] Hm; [contradiction | reflexivity].
  - destruct (IH n ltac:(lia)) as (v' & Hs & Hl & Hg & Ho).
    rewrite Hs. exists (y :: v'). cbn [length nth_error].
    repeat split; try assumption; [f_equal; exact Hl |].
    intros [|m] Hm; [reflexivity |]. cbn [nth_error]. apply Ho. lia.
Qed.

Lemma get_nonneg {A : Type} (v : list A) i :
  (0 <= i)%Z -> Vec.get v i = nth_error v (Z.to_nat i).
Proof.
  intros H. unfold Vec.get.
  destruct (i <? 0)%Z eqn:E; [apply Z.ltb_lt in E; lia | reflexivity].
Qed.

Lemma landing_range b k :
  (0 < size b)%Z -> (0 <= writeIndex b < size b)%Z ->
  (0 <= k <= size b)%Z -> (0 <= landing b k < size b)%Z.
Proof.
  intros Hs Hw Hk. unfold landing.
  destruct (writeIndex b + k <? size b)%Z eqn:E1;
    [apply Z.ltb_lt in E1 | apply Z.ltb_ge in E1]; lia.
Qed.

Lemma read_landing b k :
  ok b -> (0 <= k < size b)%Z ->
  read k b = Vec.get (buffer b) (landing b k) /\
  (0 <= landing b k < size b)%Z.
Proof.
  intros ((Hs & Hs30) & Hl & Hw) Hk. rewrite two_30 in Hs30.
  destruct int_bounds as [Hmin Hmax].
  unfold read, bind.
  rewrite int_add_small, int_rem_wrap by lia. fold (landing b k).
  split; [reflexivity | apply landing_range; lia].
Qed.

Lemma write_spec x b :
  ok b ->
  exists b', write x b = Some b' /\ ok b' /\ size b' = size b /\
    writeIndex b' = landing b 1 /\
    Vec.get (buffer b') (writeIndex b) = Some x /\
    forall i, (0 <= i)%Z -> i <> writeIndex b ->
              Vec.get (buffer b') i = Vec.get (buffer b) i.
Proof.
  intros ((Hs & Hs30) & Hl & Hw). rewrite two_30 in Hs30.
  destruct int_bounds as [Hmin Hmax].
  destruct (set_nth_spec x (buffer b) (Z.to_nat (writeIndex b)))
    as (v' & Hset & Hlen & Hget & Hoth); [lia |].
  unfold write, Vec.set, bind.
  destruct (writeIndex b <? 0)%Z eqn:E0; [apply Z.ltb_lt in E0; lia |].
  rewrite Hset, int_add_small, int_rem_wrap by lia. fold (landing b 1).
  assert (Hr : (0 <= landing b 1 < size b)%Z)
    by (apply landing_range; lia).
  eexists. split; [reflexivity |]. unfold ok. cbn [buffer writeIndex size].
  split; [split; [split; [exact Hs | rewrite two_30; exact Hs30]
                 | split; [congruence | exact Hr]] |].
  split; [reflexivity |]. split; [reflexivity |].
  split; [rewrite get_nonneg by lia; exact Hget |].
  intros i Hi Hne. rewrite !get_nonneg by lia. apply Hoth. lia.
Qed.

(** One write moves the window by one sample. *)
Lemma read_write x b b' k :
  ok b -> write x b = Some b' -> (0 <= k < size b)%Z ->
  read k b' = if (k =? size b - 1)%Z then Some x else read (k + 1) b.
Proof.
  intros Hok Hwr Hk.
  destruct (write_spec x b Hok) as (b1 & Hw1 & Hok1 & Hsz & Hwi & Hnew & Hold).
  rewrite Hwr in Hw1. injection Hw1 as <-.
  destruct (read_landing b' k Hok1) as [Hrd Hld]; [lia |].
  rewrite Hrd.
  pose proof Hok as ((Hs & _) & _ & Hw).
  assert (Hl' : landing b' k =
                if (k =? size b - 1)%Z then writeIndex b
                else landing b (k + 1)).
  { unfold landing. rewrite Hsz, Hwi. unfold landing.
    destruct (k =? size b - 1)%Z eqn:Ek;
      [apply Z.eqb_eq in Ek | apply Z.eqb_neq in Ek];
      repeat match goal with
             | |- context [(?a <? ?c)%Z] =>
                 let E := fresh "E" in
                 destruct (a <? c)%Z eqn:E;
                 [apply Z.ltb_lt in E | apply Z.ltb_ge in E]
             end; lia. }
  rewrite Hl'.
  destruct (k =? size b - 1)%Z eqn:Ek; [exact Hnew |].
  apply Z.eqb_neq in Ek.
  destruct (read_landing b (k + 1) Hok) as [Hrd2 Hld2]; [lia |].
  rewrite Hrd2. apply Hold; [lia |].
  unfold landing.
  destruct (writeIndex b + (k + 1) <? size b)%Z eqn:E1;
    [apply Z.ltb_lt in E1 | apply Z.ltb_ge in E1]; lia.
Qed.

Lemma write_all_window xs : forall b,
  ok b ->
  exists b', write_all xs b = Some b' /\ ok b' /\ size b' = size b /\
    forall k, (0 <= k < size b)%Z ->
      read k b' =
      if (k + Z.of_nat (length xs) <? size b)%Z
      then read (k + Z.of_nat (length xs)) b
      else nth_error xs (Z.to_nat (k + Z.of_nat (length xs) - size b)).
Proof.
  induction xs as [|x xs IH]; intros b Hok.
  - exists b. split; [reflexivity |]. split; [exact Hok |].
    split; [reflexivity |]. intros k Hk. cbn [length Z.of_nat].
    rewrite Z.add_0_r.
    destruct (k <? size b)%Z eqn:E; [reflexivity |].
    apply Z.ltb_ge in E. lia.
  - destruct (write_spec x b Hok) as (b1 & Hw1 & Hok1 & Hsz & _).
    destruct (IH b1 Hok1) as (b' & Hall & Hok' & Hsz' & Hwin).
    exists b'. cbn [write_all]. rewrite Hw1. cbn [bind].
    split; [exact Hall |]. split; [exact Hok' |].
    split; [congruence |]. intros k Hk.
    rewrite Hwin by lia. rewrite Hsz.
    change (length (x :: xs)) with (S (length xs)).
    rewrite Nat2Z.inj_succ.
    set (n := Z.of_nat (length xs)).
    assert (Hn : (0 <= n)%Z) by (unfold n; lia).
    destruct (k + n <? size b)%Z eqn:E1;
      [apply Z.ltb_lt in E1 | apply Z.ltb_ge in E1].
    + rewrite (read_write x b b1 (k + n) Hok Hw1) by lia.
      destruct (k + n =? size b - 1)%Z eqn:E2;
        [apply Z.eqb_eq in E2 | apply Z.eqb_neq in E2].
      * destruct (k + Z.succ n <? size b)%Z eqn:E3;
          [apply Z.ltb_lt in E3; lia |].
        replace (k + Z.succ n - size b)%Z with 0%Z by lia. reflexivity.
      * destruct (k + Z.succ n <? size b)%Z eqn:E3;
          [| apply Z.ltb_ge in E3; lia].
        f_equal. lia.
    + destruct (k + Z.succ n <? size b)%Z eqn:E3;
        [apply Z.ltb_lt in E3; lia |].
      replace (Z.to_nat (k + Z.succ n - size b))
        with (S (Z.to_nat (k + n - size b))) by lia.
      reflexivity.
Qed.

Lemma make_ok n :
  (0 < n <= 2 ^ 30)%Z ->
  exists b, make n = Some b /\ ok b /\ size b = n /\
            forall k y, read k b = Some y -> y = 0.
Proof.
  intros Hn. unfold make.
  destruct (n <? 0)%Z eqn:E; [apply Z.ltb_lt in E; lia |].
  eexists. split; [reflexivity |]. cbn [size].
  split; [repeat split; cbn [size buffer writeIndex]; try lia;
          apply repeat_length |].
  split; [reflexivity |].
  intros k y. unfold read, bind. cbn [buffer writeIndex size].
  destruct (Int.add 0 k); [| discriminate].
  destruct (Int.rem z n); [| discriminate].
  unfold Vec.get. destruct (z0 <? 0)%Z; [discriminate |].
  intros H. apply nth_error_In, repeat_spec in H. rewrite H. lra.
Qed.

(** X21 (synth/voice.h, class [WaveformBuffer]: constructor, [write],
    [read]): a buffer built with a size between 1 and 2^30 never
    leaves its storage: every [write] succeeds, whatever was written
    before, the size stays what the constructor was given, and every
    [read(k)] with 0 <= k < size returns a value. *)
Theorem waveform_buffer_stays_in_bounds :
  forall (n : Z) (xs : list R),
    (0 < n <= 2 ^ 30)%Z ->
    exists b b',
      make n = Some b /\ write_all xs b = Some b' /\
      getSize b' = n /\ (0 <= writeIndex b' < n)%Z /\
      forall k, (0 <= k < n)%Z -> exists y, read k b' = Some y.
Proof.
  intros n xs Hn.
  destruct (make_ok n Hn) as (b & Hmk & Hok & Hsz & _).
  destruct (write_all_window xs b Hok) as (b' & Hall & Hok' & Hsz' & _).
  exists b, b'. split; [exact Hmk |]. split; [exact Hall |].
  unfold getSize. split; [congruence |].
  pose proof Hok' as (_ & Hlen & Hw).
  split; [rewrite <- Hsz, <- Hsz'; exact Hw |].
  intros k Hk.
  destruct (read_landing b' k Hok') as [Hrd Hld]; [lia |].
  rewrite Hrd, get_nonneg by lia.
  destruct (nth_error (buffer b') (Z.to_nat (landing b' k))) as [y|] eqn:E;
    [exists y; reflexivity |].
  apply nth_error_None in E. lia.
Qed.

Lemma waveform_buffer_stays_in_bounds_witness :
  (0 < 512 <= 2 ^ 30)%Z /\
  exists b b', make 512 = Some b /\ write_all [0.5; 0.25] b = Some b' /\
               getSize b' = 512%Z.
Proof.
  assert (H : (0 < 512 <= 2 ^ 30)%Z) by (rewrite two_30; lia).
  split; [exact H |].
  destruct (waveform_buffer_stays_in_bounds 512 [0.5; 0.25] H)
    as (b & b' & H1 & H2 & H3 & _).
  exists b, b'. repeat split; assumption.
Defined.

(** X22 (synth/voice.h, class [WaveformBuffer]: [write], [read]): the
    buffer is a sliding window over the samples written: after the
    samples [xs], [read(k)] returns the sample written size - k writes
    ago, [read(size - 1)] being the latest; where fewer than size - k
    samples were written it returns what [read(k + length xs)] returned
    before them.  After exactly size writes, [read(0)] to
    [read(size - 1)] are those samples in the order written. *)
Theorem waveform_buffer_is_a_sliding_window :
  forall (b : t) (xs : list R),
    ok b ->
    exists b', write_all xs b = Some b' /\
      (forall k, (0 <= k < size b)%Z ->
         read k b' =
         if (k + Z.of_nat (length xs) <? size b)%Z
         then read (k + Z.of_nat (length xs)) b
         else nth_error xs (Z.to_nat (k + Z.of_nat (length xs) - size b))) /\
      (Z.of_nat (length xs) = size b ->
       forall k, (0 <= k < size b)%Z ->
         read k b' = nth_error xs (Z.to_nat k)).
Proof.
  intros b xs Hok.
  destruct (write_all_window xs b Hok) as (b' & Hall & _ & _ & Hwin).
  exists b'. split; [exact Hall |]. split; [exact Hwin |].
  intros Hlen k Hk. rewrite (Hwin k Hk), Hlen.
  destruct (k + size b <? size b)%Z eqn:E; [apply Z.ltb_lt in E; lia |].
  f_equal. lia.
Qed.

Lemma waveform_buffer_is_a_sliding_window_witness :
  ok (mk [0; 0] 0 2) /\
  exists b', write_all [0.5; 0.25; 0.125] (mk [0; 0] 0 2) = Some b' /\
             read 1 b' = Some 0.125.
Proof.
  assert (H : ok (mk [0; 0] 0 2)).
  { unfold ok. cbn [size buffer writeIndex]. rewrite two_30.
    repeat split; try lia. }
  split; [exact H |].
  destruct (waveform_buffer_is_a_sliding_window (mk [0; 0] 0 2)
              [0.5; 0.25; 0.125] H) as (b' & H1 & H2 & _).
  exists b'. split; [exact H1 |].
  rewrite (H2 1%Z); [reflexivity | cbn [size]; lia].
Defined.

End RingBuffer.

(** ** Note numbers to frequencies *)

Section EqualTemperament.

Lemma midiToFreq_in_range n :
  (Int.min_int + 69 <= n <= Int.max_int)%Z ->
  midiToFreq n = Some (440 * Rpower 2 (IZR (n - 69) / 12)).
Proof.
  intros H. unfold midiToFreq, Int.sub, bind.
  destruct int_bounds as [Hmin Hmax].
  rewrite checked_in_range by lia.
  replace 440.0 with 440 by lra. replace 2.0 with 2 by lra.
  replace 12.0 with 12 by lra. reflexivity.
Qed.

Lemma midiToFreq_some n f :
  midiToFreq n = Some f -> f = 440 * Rpower 2 (IZR (n - 69) / 12).
Proof.
  unfold midiToFreq, Int.sub, Int.checked, bind.
  destruct (Int.in_range (n - 69)); [| discriminate].
  intros H. injection H as <-.
  replace 440.0 with 440 by lra. replace 2.0 with 2 by lra.
  replace 12.0 with 12 by lra. reflexivity.
Qed.

(** X23 (fm_synth_gui.cpp, [midiToFreq]): for every note number from
    -1000 to 1000, a range that holds the 128 notes of MIDI and keeps
    the power of 2 far from the ends of the range of a double,
    [midiToFreq] returns a positive frequency; note 69 gives 440 Hz; a
    higher note of the range gives a strictly higher frequency; twelve
    notes up the frequency doubles. *)
Theorem midiToFreq_is_equal_tempered :
  forall n : Z,
    (-1000 <= n <= 1000)%Z ->
    exists f,
      midiToFreq n = Some f /\ 0 < f /\
      (n = 69%Z -> f = 440) /\
      (forall m g,
          (n < m <= 1000)%Z -> midiToFreq m = Some g -> f < g) /\
      (forall g,
          (n + 12 <= 1000)%Z -> midiToFreq (n + 12) = Some g -> g = 2 * f).
Proof.
  intros n Hn. exists (440 * Rpower 2 (IZR (n - 69) / 12)).
  split.
  { apply midiToFreq_in_range. destruct int_bounds as [-> ->]. lia. }
  split.
  { apply Rmult_lt_0_compat; [lra |]. unfold Rpower. apply exp_pos. }
  split.
  { intros ->. replace (IZR (69 - 69) / 12) with 0
      by (change (69 - 69)%Z with 0%Z; lra).
    rewrite Rpower_O by lra. lra. }
  split.
  - intros m g Hm Hg. rewrite (midiToFreq_some m g Hg).
    apply Rmult_lt_compat_l; [lra |].
    apply Rpower_lt; [lra |].
    assert (IZR (n - 69) < IZR (m - 69)) by (apply IZR_lt; lia).
    lra.
  - intros g _ Hg. rewrite (midiToFreq_some _ g Hg).
    replace (IZR (n + 12 - 69) / 12) with (IZR (n - 69) / 12 + 1).
    + rewrite Rpower_plus, Rpower_1 by lra. lra.
    + replace (n + 12 - 69)%Z with ((n - 69) + 12)%Z by lia.
      rewrite plus_IZR. lra.
Qed.

Lemma midiToFreq_is_equal_tempered_witness :
  (-1000 <= 57 <= 1000)%Z /\
  exists f g,
    midiToFreq 57 = Some f /\ midiToFreq 69 = Some g /\
    0 < f /\ g = 440 /\ g = 2 * f.
Proof.
  assert (H57 : (-1000 <= 57 <= 1000)%Z) by lia.
  assert (H69 : (-1000 <= 69 <= 1000)%Z) by lia.
  split; [exact H57 |].
  destruct (midiToFreq_is_equal_tempered 57 H57)
    as (f & Hf & Hpos & _ & _ & Hoct).
  destruct (midiToFreq_is_equal_tempered 69 H69)
    as (g & Hg & _ & Hg69 & _).
  exists f, g. split; [exact Hf |]. split; [exact Hg |].
  split; [exact Hpos |]. split; [exact (Hg69 eq_refl) |].
  apply Hoct; [lia | exact Hg].
Defined.

End EqualTemperament.

(** ** Biquad filter *)

Section Biquad.

Import Filter.









End Biquad.

(** ** Low-frequency oscillator and its routing *)

Section Modulation.

Import LFO.





Lemma applyLfoMod_off baseValue target lfoTarget v lo hi :
  target <> lfoTarget \/ lfoTarget = 0%Z ->
  applyLfoMod baseValue target lfoTarget v lo hi = baseValue.
Proof.
  intros H. unfold applyLfoMod.
  destruct (target =? lfoTarget)%Z eqn:E1; cbn [negb orb];
    [| reflexivity].
  destruct (lfoTarget =? 0)%Z eqn:E2; [reflexivity |].
  apply Z.eqb_eq in E1. apply Z.eqb_neq in E2.
  destruct H; contradiction.
Qed.

Lemma applyLfoMod_on baseValue target v lo hi :
  target <> 0%Z ->
  applyLfoMod baseValue target target v lo hi =
  Rmax lo (Rmin hi (baseValue + v * (hi - lo) * 0.5)).
Proof.
  intros H. unfold applyLfoMod. rewrite Z.eqb_refl. cbn [negb orb].
  destruct (target =? 0)%Z eqn:E; [apply Z.eqb_eq in E; contradiction |].
  reflexivity.
Qed.

Lemma clamp_range lo hi x : lo <= hi -> lo <= Rmax lo (Rmin hi x) <= hi.
Proof.
  intros H. split; [apply Rmax_l |].
  apply Rmax_lub; [exact H | apply Rmin_l].
Qed.

Lemma applyLfoMod_range baseValue target lfoTarget v lo hi :
  lo <= baseValue <= hi ->
  lo <= applyLfoMod baseValue target lfoTarget v lo hi <= hi.
Proof.
  intros H.
  destruct (Z.eq_dec target lfoTarget) as [<-|Hne].
  - destruct (Z.eq_dec target 0) as [H0|H0].
    + rewrite applyLfoMod_off by (right; exact H0). exact H.
    + rewrite applyLfoMod_on by exact H0. apply clamp_range. lra.
  - rewrite applyLfoMod_off by (left; exact Hne). exact H.
Qed.

(** X26 (synth/lfo.h, [applyLfoMod]): the helper returns the base
    value untouched when the LFO is off or aimed at another parameter;
    when the LFO is aimed at the parameter the result lies in
    [minVal, maxVal] for every base value and LFO value, and for a
    base value inside the range it is at most
    |lfoValue| * (maxVal - minVal) / 2 away from it. *)
Theorem applyLfoMod_clamps_to_range :
  forall (baseValue : R) (target lfoTarget : Z) (lfoValue lo hi : R),
    lo <= hi ->
    (target <> lfoTarget \/ lfoTarget = LFO_OFF ->
     applyLfoMod baseValue target lfoTarget lfoValue lo hi = baseValue) /\
    (target = lfoTarget -> lfoTarget <> LFO_OFF ->
     lo <= applyLfoMod baseValue target lfoTarget lfoValue lo hi <= hi /\
     (lo <= baseValue <= hi ->
      Rabs (applyLfoMod baseValue target lfoTarget lfoValue lo hi
            - baseValue)
      <= Rabs lfoValue * (hi - lo) * 0.5)).
Proof.
  intros baseValue target lfoTarget v lo hi Hr. split.
  - apply applyLfoMod_off.
  - intros <- Hon. rewrite applyLfoMod_on by exact Hon.
    split; [apply clamp_range, Hr |].
    intros [Hb0 Hb1].
    set (d := v * (hi - lo) * 0.5).
    assert (Hd : Rabs d = Rabs v * (hi - lo) * 0.5).
    { unfold d. rewrite !Rabs_mult.
      rewrite (Rabs_right (hi - lo)) by lra.
      rewrite (Rabs_right 0.5) by lra. reflexivity. }
    rewrite <- Hd.
    apply Rabs_le.
    unfold Rmax, Rmin, Rabs.
    destruct (Rle_dec hi (baseValue + d));
      destruct (Rle_dec lo _); destruct (Rcase_abs d); lra.
Qed.

Lemma applyLfoMod_clamps_to_range_witness :
  0.5 <= 8 /\
  0.5 <= applyLfoMod 7.5 LFO_RATIO2 LFO_RATIO2 1 0.5 8 <= 8.
Proof.
  assert (H : 0.5 <= 8) by lra.
  split; [exact H |].
  destruct (applyLfoMod_clamps_to_range 7.5 LFO_RATIO2 LFO_RATIO2 1 0.5 8 H)
    as [_ Hon].
  apply (Hon eq_refl). discriminate.
Defined.

(** X27 (fm_synth_gui.cpp, main loop, "Apply LFO modulation"): a
    parameter whose GUI value lies inside its slider range reaches the
    voices, filter and effects inside that range, whatever the two LFOs
    are aimed at and whatever they output; with neither LFO aimed at it
    the GUI value passes through unchanged, also when it lies outside
    the range. *)
Theorem modulated_parameter_stays_in_range :
  forall (baseValue : R) (target t1 t2 : Z) (v1 v2 lo hi : R),
    (lo <= baseValue <= hi ->
     lo <= modulated baseValue target t1 v1 t2 v2 lo hi <= hi) /\
    (target <> t1 \/ t1 = LFO_OFF -> target <> t2 \/ t2 = LFO_OFF ->
     modulated baseValue target t1 v1 t2 v2 lo hi = baseValue).
Proof.
  intros baseValue target t1 t2 v1 v2 lo hi. unfold modulated. split.
  - intros H. apply applyLfoMod_range, applyLfoMod_range, H.
  - intros H1 H2. rewrite (applyLfoMod_off _ _ t2) by exact H2.
    apply applyLfoMod_off, H1.
Qed.

Lemma modulated_parameter_stays_in_range_witness :
  100 <= 2000 <= 8000 /\
  100 <= modulated 2000 LFO_FILTER_CUT LFO_FILTER_CUT 1
           LFO_FILTER_CUT (-1) 100 8000 <= 8000.
Proof.
  assert (H : 100 <= 2000 <= 8000) by lra.
  split; [exact H |].
  destruct (modulated_parameter_stays_in_range 2000 LFO_FILTER_CUT
              LFO_FILTER_CUT LFO_FILTER_CUT 1 (-1) 100 8000) as [Hin _].
  exact (Hin H).
Defined.

End Modulation.

(** ** Chorus *)

Section Chorus.

Import JunoChorus.

Lemma trunc_nonneg x :
  0 <= x ->
  (0 <= Int.trunc x)%Z /\ IZR (Int.trunc x) <= x < IZR (Int.trunc x) + 1.
Proof.
  intros Hx. unfold Int.trunc. destruct (Rle_dec 0 x) as [_|Hn]; [| lra].
  destruct (base_Int_part x) as [H1 H2].
  split; [| lra].
  apply le_IZR.
  assert (H : -1 < IZR (Int_part x)) by lra.
  apply lt_IZR in H. apply IZR_le. lia.
Qed.

Lemma trunc_below x n :
  0 <= x -> x < IZR n -> (0 <= Int.trunc x < n)%Z.
Proof.
  intros Hx Hn. destruct (trunc_nonneg x Hx) as (H0 & H1 & H2).
  split; [exact H0 |]. apply lt_IZR. lra.
Qed.

Lemma set_nth_Forall {A : Type} (P : A -> Prop) x : forall v n v',
  Vec.set_nth n x v = Some v' -> Forall P v -> P x -> Forall P v'.
Proof.
  induction v as [|y v IH]; intros n v' Hs Hv Hx;
    [cbn [Vec.set_nth] in Hs; discriminate |].
  inversion Hv as [|y' v'' Hy Hv']; subst.
  destruct n as [|n]; cbn [Vec.set_nth] in Hs.
  - injection Hs as <-. constructor; assumption.
  - destruct (Vec.set_nth n x v) as [w|] eqn:E; [| discriminate].
    injection Hs as <-. constructor; [exact Hy |].
    apply (IH n w E Hv' Hx).
Qed.

Lemma vec_set_spec {A : Type} (P : A -> Prop) (v : list A) i x :
  (0 <= i < Z.of_nat (length v))%Z -> Forall P v -> P x ->
  exists v', Vec.set v i x = Some v' /\ length v' = length v /\
             Forall P v'.
Proof.
  intros Hi Hv Hx. unfold Vec.set.
  destruct (i <? 0)%Z eqn:E; [apply Z.ltb_lt in E; lia |].
  destruct (set_nth_spec x v (Z.to_nat i)) as (v' & Hs & Hl & _);
    [lia |].
  exists v'. split; [exact Hs |]. split; [exact Hl |].
  apply (set_nth_Forall P x v _ v' Hs Hv Hx).
Qed.

Lemma vec_get_spec {A : Type} (P : A -> Prop) (v : list A) i :
  (0 <= i < Z.of_nat (length v))%Z -> Forall P v ->
  exists a, Vec.get v i = Some a /\ P a.
Proof.
  intros Hi Hv. rewrite get_nonneg by lia.
  destruct (nth_error v (Z.to_nat i)) as [a|] eqn:E.
  - exists a. split; [reflexivity |].
    rewrite Forall_forall in Hv. apply Hv.
    apply (nth_error_In _ _ E).
  - apply nth_error_None in E. lia.
Qed.

Lemma next_index i :
  (0 <= i < MAX_DELAY)%Z ->
  exists j, (n <- Int.add i 1 ;; Int.rem n MAX_DELAY) = Some j /\
            (0 <= j < MAX_DELAY)%Z.
Proof.
  intros Hi. unfold MAX_DELAY in *.
  destruct int_bounds as [Hmin Hmax]. unfold bind.
  rewrite int_add_small, int_rem_wrap by lia.
  eexists. split; [reflexivity |].
  destruct (i + 1 <? 2048)%Z eqn:E;
    [apply Z.ltb_lt in E | apply Z.ltb_ge in E]; lia.
Qed.

(** A convex combination stays within the bound of its two ends. *)
Lemma convex_bound a b t B :
  Rabs a <= B -> Rabs b <= B -> 0 <= t <= 1 ->
  Rabs (a * (1.0 - t) + b * t) <= B.
Proof.
  intros Ha Hb Ht. apply Rabs_le_bounds in Ha. apply Rabs_le_bounds in Hb.
  apply Rabs_le. nra.
Qed.

Lemma tap_spec line pos B :
  length line = Z.to_nat MAX_DELAY ->
  Forall (fun x => Rabs x <= B) line ->
  0 <= pos < IZR MAX_DELAY ->
  exists w, tap line pos = Some w /\ Rabs w <= B.
Proof.
  intros Hlen Hall [Hp0 Hp1].
  destruct (trunc_below pos MAX_DELAY Hp0 Hp1) as [Hi0 Hi1].
  destruct (trunc_nonneg pos Hp0) as (_ & Hf0 & Hf1).
  destruct int_bounds as [Hmin Hmax].
  unfold tap, Int.of_double.
  rewrite checked_in_range by (unfold MAX_DELAY in *; lia).
  cbn [bind].
  destruct (next_index (Int.trunc pos)) as (j & Hj & Hjr); [lia |].
  unfold bind in Hj.
  destruct (Int.add (Int.trunc pos) 1) as [n|] eqn:En; [| discriminate].
  cbn [bind]. rewrite Hj. cbn [bind].
  destruct (vec_get_spec (fun x => Rabs x <= B) line (Int.trunc pos))
    as (a & Ha & Pa); [unfold MAX_DELAY in *; lia | exact Hall |].
  destruct (vec_get_spec (fun x => Rabs x <= B) line j)
    as (b & Hb & Pb); [unfold MAX_DELAY in *; lia | exact Hall |].
  rewrite Ha, Hb. cbn [bind]. eexists. split; [reflexivity |].
  apply convex_bound; [exact Pa | exact Pb | lra].
Qed.

Lemma readPos_range i d :
  (0 <= i < MAX_DELAY)%Z -> 0 < d <= IZR MAX_DELAY ->
  0 <= readPos i d < IZR MAX_DELAY.
Proof.
  intros [Hi0 Hi1] [Hd0 Hd1].
  assert (H0 : 0 <= IZR i) by (apply IZR_le; exact Hi0).
  assert (H1 : IZR i < IZR MAX_DELAY) by (apply IZR_lt; exact Hi1).
  unfold readPos. destruct (Rlt_dec _ _); lra.
Qed.

Lemma delay_range sr l :
  0 < sr <= 256000 -> -1 <= l <= 1 ->
  0 < (baseDelay + depth * l) * sr <= IZR MAX_DELAY.
Proof.
  intros [H0 H1] [Hl0 Hl1]. unfold baseDelay, depth, MAX_DELAY.
  split; nra.
Qed.

Lemma process_spec input mix c B :
  0 < sampleRate c <= 256000 ->
  ok B c -> Rabs input <= B ->
  exists outL outR c',
    process input mix c = Some (outL, outR, c') /\
    ok B c' /\ sampleRate c' = sampleRate c /\
    (mix = 0 -> outL = input /\ outR = input) /\
    (0 <= mix <= 1 -> Rabs outL <= B /\ Rabs outR <= B).
Proof.
  intros Hsr (HlL & HlR & Hw & HaL & HaR) Hin.
  destruct (vec_set_spec (fun x => Rabs x <= B) (delayLineL c)
              (writeIndex c) input) as (lineL & HsL & HlenL & HallL);
    [unfold MAX_DELAY in *; lia | exact HaL | exact Hin |].
  destruct (vec_set_spec (fun x => Rabs x <= B) (delayLineR c)
              (writeIndex c) input) as (lineR & HsR & HlenR & HallR);
    [unfold MAX_DELAY in *; lia | exact HaR | exact Hin |].
  unfold process. rewrite HsL, HsR. cbn [bind].
  set (lfo1 := sin (lfoPhase1 c * 2.0 * 3.14159265)).
  set (lfo2 := sin (lfoPhase2 c * 2.0 * 3.14159265 + 1.5708)).
  destruct (tap_spec lineL
              (readPos (writeIndex c)
                 ((baseDelay + depth * lfo1) * sampleRate c)) B)
    as (wetL & HtL & HbL);
    [congruence | exact HallL
    | apply readPos_range; [exact Hw |];
      apply delay_range; [exact Hsr | apply SIN_bound] |].
  destruct (tap_spec lineR
              (readPos (writeIndex c)
                 ((baseDelay + depth * lfo2) * sampleRate c)) B)
    as (wetR & HtR & HbR);
    [congruence | exact HallR
    | apply readPos_range; [exact Hw |];
      apply delay_range; [exact Hsr | apply SIN_bound] |].
  rewrite HtL, HtR. cbn [bind].
  destruct (next_index (writeIndex c) Hw) as (j & Hj & Hjr).
  unfold bind in Hj.
  destruct (Int.add (writeIndex c) 1) as [n|] eqn:En; [| discriminate].
  cbn [bind]. rewrite Hj. cbn [bind].
  do 3 eexists. split; [reflexivity |].
  split.
  { unfold ok. cbn [delayLineL delayLineR writeIndex].
    repeat split; try assumption; try congruence; lia. }
  split; [reflexivity |].
  split.
  - intros ->. split; lra.
  - intros Hm. apply Rabs_le_bounds in Hin.
    apply Rabs_le_bounds in HbL. apply Rabs_le_bounds in HbR.
    split; apply Rabs_le; nra.
Qed.

Lemma ok_make sr B : 0 <= B -> ok B (make sr).
Proof.
  intros HB. unfold ok, make. cbn [delayLineL delayLineR writeIndex].
  repeat split; try apply repeat_length; try (unfold MAX_DELAY; lia);
    apply Forall_forall; intros x Hx; apply repeat_spec in Hx; subst x;
    rewrite zero_lit, Rabs_R0; exact HB.
Qed.

Lemma run_spec B calls : forall c,
  0 < sampleRate c <= 256000 -> ok B c ->
  Forall (fun p => Rabs (fst p) <= B) calls ->
  exists c', run calls c = Some c' /\ ok B c' /\
             sampleRate c' = sampleRate c.
Proof.
  induction calls as [|[input mix] calls IH]; intros c Hsr Hok Hall.
  - exists c. split; [reflexivity | split; [exact Hok | reflexivity]].
  - inversion Hall as [|p ps Hp Hps]; subst. cbn [fst] in Hp.
    destruct (process_spec input mix c B Hsr Hok Hp)
      as (outL & outR & c1 & Hpr & Hok1 & Hsr1 & _).
    cbn [run]. rewrite Hpr. cbn [bind snd].
    destruct (IH c1) as (c' & Hrun & Hok' & Hsr');
      [rewrite Hsr1; exact Hsr | exact Hok1 | exact Hps |].
    exists c'. split; [exact Hrun | split; [exact Hok' | congruence]].
Qed.

(** X28 (synth/effects.h, [JunoChorus::process]): at the 44.1 kHz the
    program builds its chorus for, every call of the chorus stays
    inside its two delay lines, after any history of calls; its two
    outputs are the input itself when mix is 0, and for a mix between
    0 and 1 they never exceed in absolute value a bound that the
    inputs so far respect: the chorus adds no gain.  The read
    positions are those of the exact arithmetic of the model. *)
Theorem chorus_is_safe_and_adds_no_gain :
  forall (B : R) (calls : list (R * R)) (input mix : R),
    Forall (fun p => Rabs (fst p) <= B) calls ->
    Rabs input <= B ->
    exists c outL outR c',
      run calls (make SAMPLE_RATE) = Some c /\
      process input mix c = Some (outL, outR, c') /\
      (mix = 0 -> outL = input /\ outR = input) /\
      (0 <= mix <= 1 -> Rabs outL <= B /\ Rabs outR <= B).
Proof.
  intros B calls input mix Hall Hin.
  assert (Hsr : 0 < SAMPLE_RATE <= 256000) by (unfold SAMPLE_RATE; lra).
  assert (HB : 0 <= B).
  { apply Rle_trans with (Rabs input); [apply Rabs_pos | exact Hin]. }
  destruct (run_spec B calls (make SAMPLE_RATE))
    as (c & Hrun & Hok & Hsrc);
    [exact Hsr | apply ok_make, HB | exact Hall |].
  destruct (process_spec input mix c B) as
    (outL & outR & c' & Hpr & _ & _ & Hdry & Hbd);
    [rewrite Hsrc; exact Hsr | exact Hok | exact Hin |].
  exists c, outL, outR, c'. repeat split; try assumption.
  - apply Hdry. assumption.
  - apply Hdry. assumption.
  - apply Hbd. assumption.
  - apply Hbd. assumption.
Qed.

Lemma chorus_is_safe_and_adds_no_gain_witness :
  Forall (fun p => Rabs (fst p) <= 1) [(0.5, 0.3)] /\
  Rabs 0.25 <= 1 /\
  exists c outL outR c',
    run [(0.5, 0.3)] (make SAMPLE_RATE) = Some c /\
    process 0.25 0 c = Some (outL, outR, c') /\ outL = 0.25.
Proof.
  assert (H2 : Forall (fun p : R * R => Rabs (fst p) <= 1) [(0.5, 0.3)]).
  { apply Forall_cons; [cbn [fst]; apply Rabs_le; lra | apply Forall_nil]. }
  assert (H3 : Rabs 0.25 <= 1) by (apply Rabs_le; lra).
  split; [exact H2 |]. split; [exact H3 |].
  destruct (chorus_is_safe_and_adds_no_gain 1 [(0.5, 0.3)] 0.25 0
              H2 H3) as (c & outL & outR & c' & Hr & Hp & Hdry & _).
  exists c, outL, outR, c'. split; [exact Hr |]. split; [exact Hp |].
  apply (Hdry eq_refl).
Defined.

End Chorus.

(** ** Reverb *)

Section Reverb.

Import AtmosphericReverb.

Lemma advance_index idx delay :
  (1 <= delay <= Int.max_int)%Z -> (0 <= idx < delay)%Z ->
  exists j, (n <- Int.add idx 1 ;; Int.rem n delay) = Some j /\
            (0 <= j < delay)%Z.
Proof.
  intros Hd Hi. destruct int_bounds as [Hmin Hmax]. unfold bind.
  rewrite int_add_small, int_rem_wrap by lia.
  eexists. split; [reflexivity |].
  destruct (idx + 1 <? delay)%Z eqn:E;
    [apply Z.ltb_lt in E | apply Z.ltb_ge in E]; lia.
Qed.

(** One turn of a delay line: the sample under the cursor is read, a
    new one is stored there, the cursor moves on. *)
Lemma line_turn M buffer delay index x :
  line_ok M buffer delay index -> Rabs x <= M ->
  exists delayed, Vec.get buffer index = Some delayed /\
    Rabs delayed <= M /\
    forall y, Rabs y <= M ->
      exists buffer' index',
        Vec.set buffer index y = Some buffer' /\
        (n <- Int.add index 1 ;; Int.rem n delay) = Some index' /\
        line_ok M buffer' delay index'.
Proof.
  intros (Hd & Hl & Hi & Hall) _.
  destruct (vec_get_spec (fun x => Rabs x <= M) buffer index)
    as (delayed & Hg & Pd); [lia | exact Hall |].
  exists delayed. split; [exact Hg |]. split; [exact Pd |].
  intros y Hy.
  destruct (vec_set_spec (fun x => Rabs x <= M) buffer index y)
    as (buffer' & Hs & Hl' & Hall'); [lia | exact Hall | exact Hy |].
  destruct (advance_index index delay Hd Hi) as (j & Hj & Hjr).
  exists buffer', j. split; [exact Hs |]. split; [exact Hj |].
  unfold line_ok. repeat split; try assumption; try lia; congruence.
Qed.

Lemma comb_step_spec input M c :
  comb_ok M c -> Rabs input <= 0.15 * M ->
  exists delayed c',
    comb_step input 0.85 0.3 c = Some (delayed, c') /\
    Rabs delayed <= M /\ comb_ok M c'.
Proof.
  intros [Hline Hf] Hin.
  assert (HM : 0 <= M).
  { apply Rle_trans with (Rabs (combFilter c)); [apply Rabs_pos | exact Hf]. }
  destruct (line_turn M _ _ _ 0 Hline) as (delayed & Hg & Pd & Hturn);
    [rewrite Rabs_R0; exact HM |].
  set (filter := delayed * (1.0 - 0.3) + combFilter c * 0.3).
  assert (Pf : Rabs filter <= M).
  { unfold filter. apply Rabs_le_bounds in Pd. apply Rabs_le_bounds in Hf.
    apply Rabs_le. lra. }
  destruct (Hturn (input + filter * 0.85)) as (buffer' & j & Hs & Hj & Hok').
  { apply Rabs_le_bounds in Pf. apply Rabs_le_bounds in Hin.
    apply Rabs_le. lra. }
  unfold comb_step. rewrite Hg. cbn [bind]. fold filter.
  rewrite Hs. cbn [bind].
  unfold bind in Hj.
  destruct (Int.add (combIndex c) 1) as [n|] eqn:En; [| discriminate].
  cbn [bind]. rewrite Hj. cbn [bind].
  do 2 eexists. split; [reflexivity |]. split; [exact Pd |].
  split; [exact Hok' | exact Pf].
Qed.

Lemma comb_loop_spec input M cs : forall wet,
  Forall (comb_ok M) cs -> Rabs input <= 0.15 * M ->
  exists wet' cs',
    comb_loop input 0.85 0.3 cs wet = Some (wet', cs') /\
    Rabs (wet' - wet) <= INR (length cs) * M /\
    length cs' = length cs /\ Forall (comb_ok M) cs'.
Proof.
  induction cs as [|c cs IH]; intros wet Hall Hin.
  - exists wet, []. split; [reflexivity |].
    split; [| split; [reflexivity | constructor]].
    replace (wet - wet) with 0 by lra. rewrite Rabs_R0. cbn. lra.
  - inversion Hall as [|c0 cs0 Hc Hcs]; subst.
    destruct (comb_step_spec input M c Hc Hin)
      as (delayed & c' & Hst & Pd & Hc').
    destruct (IH (wet + delayed) Hcs Hin)
      as (wet' & cs' & Hl & Pw & Hlen & Hall').
    exists wet', (c' :: cs'). cbn [comb_loop]. rewrite Hst. cbn [bind fst snd].
    rewrite Hl. cbn [bind fst snd]. split; [reflexivity |].
    split; [| split; [cbn [length]; congruence | constructor; assumption]].
    change (length (c :: cs)) with (S (length cs)). rewrite S_INR.
    apply Rabs_le_bounds in Pd. apply Rabs_le_bounds in Pw.
    apply Rabs_le. lra.
Qed.

Lemma allpass_step_spec wet W a :
  allpass_ok (2.5 * W) a -> Rabs wet <= W ->
  exists output a',
    allpass_step wet a = Some (output, a') /\
    Rabs output <= 3 * W /\ allpass_ok (2.5 * W) a'.
Proof.
  intros Hline Hw.
  assert (HW : 0 <= W).
  { apply Rle_trans with (Rabs wet); [apply Rabs_pos | exact Hw]. }
  destruct (line_turn (2.5 * W) _ _ _ 0 Hline) as (delayed & Hg & Pd & Hturn);
    [rewrite Rabs_R0; lra |].
  set (output := - (0.5) * wet + delayed).
  assert (Po : Rabs output <= 3 * W).
  { unfold output. apply Rabs_le_bounds in Pd. apply Rabs_le_bounds in Hw.
    apply Rabs_le. lra. }
  destruct (Hturn (wet + 0.5 * output)) as (buffer' & j & Hs & Hj & Hok').
  { unfold output. apply Rabs_le_bounds in Pd. apply Rabs_le_bounds in Hw.
    apply Rabs_le. lra. }
  unfold allpass_step. rewrite Hg. cbn [bind]. cbv zeta. fold output.
  rewrite Hs. cbn [bind].
  unfold bind in Hj.
  destruct (Int.add (allpassIndex a) 1) as [n|] eqn:En; [| discriminate].
  cbn [bind]. rewrite Hj. cbn [bind].
  do 2 eexists. split; [reflexivity |]. split; [exact Po | exact Hok'].
Qed.

Lemma process_spec_reverb input mix M r :
  ok M r -> Rabs input <= 0.15 * M ->
  exists out r',
    process input mix r = Some (out, r') /\ ok M r' /\
    (mix = 0 -> out = input) /\
    (0 <= mix <= 1 -> Rabs out <= 9 * M).
Proof.
  intros (Hdec & Hdamp & Hlen & Hcombs & a1 & a2 & Haps & Ha1 & Ha2) Hin.
  assert (HM : 0 <= M).
  { assert (0 <= 0.15 * M)
      by (apply Rle_trans with (Rabs input); [apply Rabs_pos | exact Hin]).
    lra. }
  destruct (comb_loop_spec input M (combs r) 0.0 Hcombs Hin)
    as (total & cs' & Hloop & Pt & Hlen' & Hall').
  rewrite Hlen in Pt.
  assert (Pw : Rabs (total * 0.25) <= M).
  { apply Rabs_le_bounds in Pt. replace (INR 4) with 4 in Pt by (cbn; lra).
    apply Rabs_le. lra. }
  destruct (allpass_step_spec (total * 0.25) M a1 Ha1 Pw)
    as (o1 & a1' & Hs1 & Po1 & Ha1').
  replace (7.5 * M) with (2.5 * (3 * M)) in Ha2 by lra.
  destruct (allpass_step_spec o1 (3 * M) a2 Ha2 Po1)
    as (o2 & a2' & Hs2 & Po2 & Ha2').
  unfold process. rewrite Hdec, Hdamp, Hloop. cbn [bind fst snd].
  rewrite Haps. cbn [allpass_loop]. rewrite Hs1. cbn [bind fst snd].
  rewrite Hs2. cbn [bind fst snd].
  do 2 eexists. split; [reflexivity |].
  split.
  { unfold ok. cbn [decay damping combs allpasses].
    split; [reflexivity |]. split; [reflexivity |].
    split; [congruence |]. split; [exact Hall' |].
    exists a1', a2'. split; [reflexivity |]. split; [exact Ha1' |].
    replace (7.5 * M) with (2.5 * (3 * M)) by lra. exact Ha2'. }
  split.
  - intros ->. lra.
  - intros Hm. apply Rabs_le_bounds in Po2. apply Rabs_le_bounds in Hin.
    apply Rabs_le. nra.
Qed.

Lemma run_spec_reverb M calls : forall r,
  ok M r -> Forall (fun p => Rabs (fst p) <= 0.15 * M) calls ->
  exists r', run calls r = Some r' /\ ok M r'.
Proof.
  induction calls as [|[input mix] calls IH]; intros r Hok Hall.
  - exists r. split; [reflexivity | exact Hok].
  - inversion Hall as [|p ps Hp Hps]; subst. cbn [fst] in Hp.
    destruct (process_spec_reverb input mix M r Hok Hp)
      as (out & r1 & Hpr & Hok1 & _).
    cbn [run]. rewrite Hpr. cbn [bind snd]. apply IH; assumption.
Qed.

(** The delay of a line after the constructor has scaled it. *)
Lemma scaled_spec d srRatio :
  (1 <= d)%Z -> 1 <= IZR d * srRatio -> IZR d * srRatio <= 1000000 ->
  exists d', scaled d srRatio = Some d' /\ (1 <= d' <= 1000000)%Z.
Proof.
  intros Hd H1 H2. unfold scaled, Int.of_double.
  destruct (trunc_nonneg (IZR d * srRatio)) as (H0 & Hlo & Hhi); [lra |].
  destruct int_bounds as [Hmin Hmax].
  assert (Hr : (1 <= Int.trunc (IZR d * srRatio) <= 1000000)%Z).
  { split.
    - assert (H : 0 < IZR (Int.trunc (IZR d * srRatio))) by lra.
      apply lt_IZR in H. lia.
    - apply le_IZR. lra. }
  rewrite checked_in_range by lia. eexists. split; [reflexivity | exact Hr].
Qed.

Lemma line_spec M d :
  (1 <= d <= 1000000)%Z -> 0 <= M ->
  exists buffer, line d = Some buffer /\ line_ok M buffer d 0.
Proof.
  intros Hd HM. unfold line.
  destruct (d <? 0)%Z eqn:E; [apply Z.ltb_lt in E; lia |].
  eexists. split; [reflexivity |].
  destruct int_bounds as [Hmin Hmax].
  unfold line_ok. repeat split; try lia; [apply repeat_length |].
  apply Forall_forall. intros x Hx. apply repeat_spec in Hx. subst x.
  rewrite zero_lit, Rabs_R0. exact HM.
Qed.

Lemma ratio_range sr d :
  134 <= sr <= 1000000 -> (331 <= d <= 2251)%Z ->
  1 <= IZR d * (sr / 44100.0) <= 1000000.
Proof.
  intros [H0 H1] [Hd0 Hd1].
  apply IZR_le in Hd0, Hd1.
  assert (Hq : sr / 44100.0 = sr * / 44100) by (unfold Rdiv; f_equal; lra).
  rewrite Hq.
  assert (Hinv : / 44100 = 1 / 44100) by lra.
  assert (Hk : 0 < / 44100) by (apply Rinv_0_lt_compat; lra).
  assert (Hone : 44100 * / 44100 = 1) by (apply Rinv_r; lra).
  set (k := / 44100) in *.
  split; nra.
Qed.

Lemma make_comb_spec sr M d :
  134 <= sr <= 1000000 -> (331 <= d <= 2251)%Z -> 0 <= M ->
  exists c, make_comb (sr / 44100.0) d = Some c /\ comb_ok M c.
Proof.
  intros Hsr Hd HM.
  destruct (ratio_range sr d Hsr Hd) as [H1 H2].
  destruct (scaled_spec d (sr / 44100.0)) as (d' & Hs & Hr);
    [lia | exact H1 | exact H2 |].
  destruct (line_spec M d' Hr HM) as (buffer & Hl & Hok).
  unfold make_comb. rewrite Hs. cbn [bind]. rewrite Hl. cbn [bind].
  eexists. split; [reflexivity |].
  split; [exact Hok |]. cbn [combFilter]. rewrite zero_lit, Rabs_R0.
  exact HM.
Qed.

Lemma make_allpass_spec sr M d :
  134 <= sr <= 1000000 -> (331 <= d <= 2251)%Z -> 0 <= M ->
  exists a, make_allpass (sr / 44100.0) d = Some a /\ allpass_ok M a.
Proof.
  intros Hsr Hd HM.
  destruct (ratio_range sr d Hsr Hd) as [H1 H2].
  destruct (scaled_spec d (sr / 44100.0)) as (d' & Hs & Hr);
    [lia | exact H1 | exact H2 |].
  destruct (line_spec M d' Hr HM) as (buffer & Hl & Hok).
  unfold make_allpass. rewrite Hs. cbn [bind]. rewrite Hl. cbn [bind].
  eexists. split; [reflexivity | exact Hok].
Qed.

Lemma make_spec_reverb sr M :
  134 <= sr <= 1000000 -> 0 <= M ->
  exists r, make sr = Some r /\ ok M r.
Proof.
  intros Hsr HM. unfold make. cbn [build].
  destruct (make_comb_spec sr M 1687 Hsr ltac:(lia) HM) as (c1 & E1 & K1).
  destruct (make_comb_spec sr M 1931 Hsr ltac:(lia) HM) as (c2 & E2 & K2).
  destruct (make_comb_spec sr M 2053 Hsr ltac:(lia) HM) as (c3 & E3 & K3).
  destruct (make_comb_spec sr M 2251 Hsr ltac:(lia) HM) as (c4 & E4 & K4).
  destruct (make_allpass_spec sr (2.5 * M) 547 Hsr ltac:(lia) ltac:(lra))
    as (a1 & F1 & L1).
  destruct (make_allpass_spec sr (7.5 * M) 331 Hsr ltac:(lia) ltac:(lra))
    as (a2 & F2 & L2).
  rewrite E1, E2, E3, E4. cbn [bind]. rewrite F1, F2. cbn [bind].
  eexists. split; [reflexivity |].
  unfold ok. cbn [decay damping combs allpasses].
  split; [reflexivity |]. split; [reflexivity |]. split; [reflexivity |].
  split; [repeat (apply Forall_cons; [assumption |]); apply Forall_nil |].
  exists a1, a2. split; [reflexivity | split; assumption].
Qed.

(** X29 (synth/effects.h, [AtmosphericReverb], constructor and
    [process]): for a sample rate between 134 Hz and 1 MHz the
    constructor gives every delay line at least one sample, and every
    call of [process] stays inside the lines, after any history of
    calls; the output is the input itself when mix is 0; and the
    feedback cannot build up: for a mix between 0 and 1 the output is
    at most 60 times a bound that the inputs so far respect. *)
Theorem reverb_is_safe_and_bounded :
  forall (sr B : R) (calls : list (R * R)) (input mix : R),
    134 <= sr <= 1000000 ->
    Forall (fun p => Rabs (fst p) <= B) calls ->
    Rabs input <= B ->
    exists r0 r out r',
      make sr = Some r0 /\ run calls r0 = Some r /\
      process input mix r = Some (out, r') /\
      (mix = 0 -> out = input) /\
      (0 <= mix <= 1 -> Rabs out <= 60 * B).
Proof.
  intros sr B calls input mix Hsr Hall Hin.
  assert (HB : 0 <= B).
  { apply Rle_trans with (Rabs input); [apply Rabs_pos | exact Hin]. }
  set (M := B * (20 / 3)).
  assert (HM : 0.15 * M = B) by (unfold M; lra).
  assert (HM0 : 0 <= M) by lra.
  destruct (make_spec_reverb sr M Hsr HM0) as (r0 & Hmk & Hok0).
  destruct (run_spec_reverb M calls r0 Hok0) as (r & Hrun & Hok).
  { rewrite HM. exact Hall. }
  destruct (process_spec_reverb input mix M r Hok) as
    (out & r' & Hpr & _ & Hdry & Hbd).
  { rewrite HM. exact Hin. }
  exists r0, r, out, r'. repeat split; try assumption.
  intros Hm. specialize (Hbd Hm). lra.
Qed.

Lemma reverb_is_safe_and_bounded_witness :
  134 <= 44100 <= 1000000 /\
  Forall (fun p => Rabs (fst p) <= 1) [(0.5, 0.3)] /\
  Rabs 0.25 <= 1 /\
  exists r0 r out r',
    make 44100 = Some r0 /\ run [(0.5, 0.3)] r0 = Some r /\
    process 0.25 0 r = Some (out, r') /\ out = 0.25.
Proof.
  assert (H1 : 134 <= 44100 <= 1000000) by lra.
  assert (H2 : Forall (fun p : R * R => Rabs (fst p) <= 1) [(0.5, 0.3)]).
  { apply Forall_cons; [cbn [fst]; apply Rabs_le; lra | apply Forall_nil]. }
  assert (H3 : Rabs 0.25 <= 1) by (apply Rabs_le; lra).
  split; [exact H1 |]. split; [exact H2 |]. split; [exact H3 |].
  destruct (reverb_is_safe_and_bounded 44100 1 [(0.5, 0.3)] 0.25 0
              H1 H2 H3) as (r0 & r & out & r' & Hm & Hr & Hp & Hdry & _).
  exists r0, r, out, r'. split; [exact Hm |]. split; [exact Hr |].
  split; [exact Hp |]. apply (Hdry eq_refl).
Defined.

End Reverb.

(** ** The audio engine *)

Section AudioEngine.

Import Engine.

Lemma tanh_bound x : -1 < tanh x < 1.
Proof.
  unfold tanh, sinh, cosh.
  pose proof (exp_pos x) as H1. pose proof (exp_pos (- x)) as H2.
  assert (Hc : 0 < (exp x + exp (- x)) / 2) by lra.
  split.
  - apply Rmult_lt_reg_r with ((exp x + exp (- x)) / 2); [exact Hc |].
    unfold Rdiv at 2. rewrite Rmult_assoc, Rinv_l by lra. lra.
  - apply Rmult_lt_reg_r with ((exp x + exp (- x)) / 2); [exact Hc |].
    unfold Rdiv at 1. rewrite Rmult_assoc, Rinv_l by lra. lra.
Qed.

Lemma chorus_ok_weaken B B' c :
  B <= B' -> JunoChorus.ok B c -> JunoChorus.ok B' c.
Proof.
  intros HB (H1 & H2 & H3 & H4 & H5).
  repeat split; try assumption; try apply H3;
    eapply Forall_impl; try eassumption; cbn beta; intros; lra.
Qed.

Lemma line_ok_weaken M M' buffer delay index :
  M <= M' -> AtmosphericReverb.line_ok M buffer delay index ->
  AtmosphericReverb.line_ok M' buffer delay index.
Proof.
  intros HM (H1 & H2 & H3 & H4).
  split; [exact H1 |]. split; [exact H2 |]. split; [exact H3 |].
  eapply Forall_impl; [| exact H4]. cbn beta. intros. lra.
Qed.

Lemma reverb_ok_weaken M M' r :
  M <= M' -> AtmosphericReverb.ok M r -> AtmosphericReverb.ok M' r.
Proof.
  intros HM (H1 & H2 & H3 & H4 & a1 & a2 & H5 & H6 & H7).
  split; [exact H1 |]. split; [exact H2 |]. split; [exact H3 |].
  split.
  - eapply Forall_impl; [| exact H4]. intros c [Hl Hf].
    split; [apply (line_ok_weaken M M'); assumption | lra].
  - exists a1, a2. split; [exact H5 |].
    split;
      [apply (line_ok_weaken (2.5 * M)) | apply (line_ok_weaken (7.5 * M))];
      try assumption; lra.
Qed.

(** The chorus takes any input. *)
Lemma chorus_step input mix c :
  JunoChorus.sampleRate c = SAMPLE_RATE ->
  (exists B, JunoChorus.ok B c) ->
  exists outL outR c',
    JunoChorus.process input mix c = Some (outL, outR, c') /\
    JunoChorus.sampleRate c' = SAMPLE_RATE /\
    (exists B, JunoChorus.ok B c').
Proof.
  intros Hsr [B Hok].
  destruct (process_spec input mix c (Rmax B (Rabs input)))
    as (outL & outR & c' & Hp & Hok' & Hsr' & _).
  - rewrite Hsr. unfold SAMPLE_RATE. lra.
  - apply (chorus_ok_weaken B); [apply Rmax_l | exact Hok].
  - apply Rmax_r.
  - exists outL, outR, c'. split; [exact Hp |].
    split; [congruence | exists (Rmax B (Rabs input)); exact Hok'].
Qed.

(** So does the reverb. *)
Lemma reverb_step input mix r :
  (exists M, AtmosphericReverb.ok M r) ->
  exists out r',
    AtmosphericReverb.process input mix r = Some (out, r') /\
    (exists M, AtmosphericReverb.ok M r').
Proof.
  intros [M Hok].
  set (M' := Rmax M (Rabs input * (20 / 3))).
  destruct (process_spec_reverb input mix M' r) as (out & r' & Hp & Hok' & _).
  - apply (reverb_ok_weaken M); [apply Rmax_l | exact Hok].
  - assert (Rabs input * (20 / 3) <= M') by apply Rmax_r. lra.
  - exists out, r'. split; [exact Hp | exists M'; exact Hok'].
Qed.

Lemma frame_spec chMix rvMix fType e :
  ok e ->
  exists outL outR e',
    frame chMix rvMix fType e = Some (outL, outR, e') /\ ok e' /\
    -1 < outL < 1 /\ -1 < outR < 1 /\
    WaveformBuffer.read (WaveformBuffer.size (waveformBuffer e) - 1)
      (waveformBuffer e') = Some ((outL + outR) * 0.5) /\
    filterR e' = filterR e /\
    (chorusMix e', reverbMix e', filterType e') =
    (chorusMix e, reverbMix e, filterType e) /\
    voices e' = snd (Session.mixdown (voices e)).
Proof.
  intros (Hwb & Hsr & Hch & HrL & HrR).
  unfold frame.
  destruct (Session.mixdown (voices e)) as [sample vs] eqn:Emix.
  destruct (if negb (fType =? 0)%Z
            then Filter.process sample (filterL e)
            else (sample, filterL e)) as [sample' fl] eqn:Efl.
  destruct (chorus_step sample' chMix (chorus e) Hsr Hch)
    as (cL & cR & ch' & Hp & Hsr' & Hch').
  rewrite Hp. cbn [bind].
  destruct (reverb_step cL rvMix (reverbL e) HrL) as (oL & rl' & HpL & HrL').
  destruct (reverb_step cR rvMix (reverbR e) HrR) as (oR & rr' & HpR & HrR').
  rewrite HpL, HpR. cbn [bind fst snd].
  destruct (write_spec ((tanh oL + tanh oR) * 0.5) (waveformBuffer e) Hwb)
    as (wb' & Hw & Hwb' & Hsz & _).
  rewrite Hw. cbn [bind].
  do 3 eexists. split; [reflexivity |].
  split.
  { unfold ok. cbn [waveformBuffer chorus reverbL reverbR].
    split; [exact Hwb' |]. split; [exact Hsr' |]. split; [exact Hch' |].
    split; [exact HrL' | exact HrR']. }
  split; [apply tanh_bound |]. split; [apply tanh_bound |].
  cbn [waveformBuffer filterR chorusMix reverbMix filterType voices snd].
  split.
  - rewrite (read_write _ _ wb' _ Hwb Hw).
    + rewrite Z.eqb_refl. reflexivity.
    + destruct Hwb as ((Hs & _) & _). lia.
  - repeat split.
Qed.

Lemma frames_spec n chMix rvMix fType : forall e,
  ok e ->
  exists outs e',
    frames n chMix rvMix fType e = Some (outs, e') /\ ok e' /\
    length outs = n /\
    Forall (fun p => -1 < fst p < 1 /\ -1 < snd p < 1) outs /\
    filterR e' = filterR e.
Proof.
  induction n as [|n IH]; intros e Hok.
  - exists [], e. split; [reflexivity |]. split; [exact Hok |].
    split; [reflexivity |]. split; [constructor | reflexivity].
  - destruct (frame_spec chMix rvMix fType e Hok)
      as (outL & outR & e1 & Hf & Hok1 & HL & HR & _ & Hfr & _).
    destruct (IH e1 Hok1) as (outs & e' & Hfs & Hok' & Hlen & Hall & Hfr').
    exists ((outL, outR) :: outs), e'.
    cbn [frames]. rewrite Hf. cbn [bind fst snd]. rewrite Hfs.
    cbn [bind fst snd]. split; [reflexivity |]. split; [exact Hok' |].
    split; [cbn [length]; congruence |].
    split; [constructor; [split; assumption | exact Hall] | congruence].
Qed.

Lemma ok_exec ev e :
  ok e -> exists e', exec ev e = Some e' /\ ok e'.
Proof.
  intros Hok. destruct ev as [c|chMix rvMix fType cutoff q|n];
    cbn [exec].
  - eexists. split; [reflexivity | exact Hok].
  - eexists. split; [reflexivity | exact Hok].
  - unfold audioCallback.
    destruct (frames_spec n (chorusMix e) (reverbMix e) (filterType e) e Hok)
      as (outs & e' & Hfs & Hok' & _).
    rewrite Hfs. cbn [bind snd]. exists e'. split; [reflexivity | exact Hok'].
Qed.

Lemma ok_run evs : forall e,
  ok e -> exists e', run evs e = Some e' /\ ok e'.
Proof.
  induction evs as [|ev evs IH]; intros e Hok.
  - exists e. split; [reflexivity | exact Hok].
  - destruct (ok_exec ev e Hok) as (e1 & He1 & Hok1).
    cbn [run]. rewrite He1. cbn [bind]. apply IH, Hok1.
Qed.

Lemma ok_start u : exists e, start u = Some e /\ ok e.
Proof.
  unfold start.
  destruct (make_ok WAVEFORM_SIZE) as (wb & Hwb & Hokwb & _);
    [unfold WAVEFORM_SIZE; rewrite two_30; lia |].
  destruct (make_spec_reverb SAMPLE_RATE 0) as (r & Hr & Hokr);
    [unfold SAMPLE_RATE; lra | lra |].
  rewrite Hwb, Hr. cbn [bind].
  eexists. split; [reflexivity |].
  unfold ok. cbn [waveformBuffer chorus reverbL reverbR].
  split; [exact Hokwb |]. split; [reflexivity |].
  split; [exists 0; apply ok_make; lra |].
  split; exists 0; exact Hokr.
Qed.

(** X30 (fm_synth_gui.cpp, [main] and [audioCallback]): from the
    engine [main] builds, and through any sequence of key events,
    parameter pushes, effect settings and earlier callbacks, a call of
    [audioCallback] for any number of frames completes without leaving
    a buffer (voice pool, filter, both delay lines of the chorus, the
    comb and all-pass lines of both reverbs, the waveform buffer); it
    returns one pair per frame, each sample strictly between -1 and 1,
    and it never touches the right filter. *)
Theorem audio_callback_is_safe_and_clipped :
  forall (uninit : R) (evs : list event) (nFrames : nat),
    exists e0 e outs e',
      start uninit = Some e0 /\ run evs e0 = Some e /\
      audioCallback nFrames e = Some (outs, e') /\
      length outs = nFrames /\
      Forall (fun p => -1 < fst p < 1 /\ -1 < snd p < 1) outs /\
      filterR e' = filterR e.
Proof.
  intros u evs n.
  destruct (ok_start u) as (e0 & Hs & Hok0).
  destruct (ok_run evs e0 Hok0) as (e & Hr & Hok).
  destruct (frames_spec n (chorusMix e) (reverbMix e) (filterType e) e Hok)
    as (outs & e' & Hfs & _ & Hlen & Hall & Hfr).
  exists e0, e, outs, e'. repeat split; assumption.
Qed.

End AudioEngine.
